(** * btclib: elliptic-curve group arithmetic (curvegroup.py)

    A shallow embedding of [src/btclib/curvegroup.py] and the properties
    of it that the specification states.

    Python integers are unbounded: they are [Z].  [%] with a positive
    modulus is [Z.modulo], [//] is [Z.div], [divmod] is [Z.div_eucl].
    Tuples are products, lists are [list].  A call that may raise returns
    a [result]. *)

From Stdlib Require Import String.
From Stdlib Require Import ZArith Lia List Bool Znumtheory Zcong.
From Stdlib Require Ring_polynom InitialRing Ring_theory Field_theory Ring Field.
From Stdlib Require Zmod.ZmodDef Zmod.ZmodBase Zmod.ZmodInv.
Import ListNotations.
Open Scope string_scope.
Open Scope list_scope.
Open Scope Z_scope.

(** ** Exceptions and results *)

(** The exceptions the module raises.  A [ValueError] carries the fixed
    prefix of its message (the formatted offending value is left out).
    [Diverges] is not a Python exception: it marks a loop of the model
    that used up its fuel, where Python would keep running. *)
Inductive exn : Type :=
| ValueError (msg : string)
| TypeError (msg : string)
| IndexError
| ZeroDivisionError
| Diverges.

Inductive result (A : Type) : Type :=
| Ret (a : A)
| Raise (e : exn).
Arguments Ret {A} a.
Arguments Raise {A} e.

Definition bind {A B : Type} (r : result A) (k : A -> result B) : result B :=
  match r with
  | Ret a => k a
  | Raise e => Raise e
  end.

Notation "x <- c ;; k" := (bind c (fun x => k))
  (at level 61, c at next level, right associativity).
Notation "' pat <- c ;; k" := (bind c (fun x => match x with pat => k end))
  (at level 61, pat pattern, c at next level, right associativity).

Definition returns {A : Type} (r : result A) : Prop := exists a, r = Ret a.
Definition raises {A : Type} (r : result A) : Prop := exists e, r = Raise e /\ e <> Diverges.

(** ** Points (alias.py) *)

Definition Point : Type := Z * Z.
Definition JacPoint : Type := Z * Z * Z.

(** [alias.py] is not among the sources: the two infinity constants it
    defines are parameters of the development.  The code only ever tests
    the last coordinate of a point against zero. *)
Class Alias : Type := { INF : Point; INFJ : JacPoint }.

(** Modelled from the spec: alias.py is missing; the spec gives the
    affine infinity as (0, 0) and the Jacobian infinity as (0, 0, 0). *)
Definition alias_spec : Alias := {| INF := (0, 0); INFJ := (0, 0, 0) |}.

(** ** List indexing as Python does it *)

(** [l[i]]: a negative index counts from the end, an index out of range
    raises IndexError. *)
Definition py_index {A : Type} (l : list A) (i : Z) : result A :=
  let n := Z.of_nat (length l) in
  let j := if i <? 0 then i + n else i in
  if (j <? 0) || (n <=? j) then Raise IndexError
  else match nth_error l (Z.to_nat j) with
       | Some a => Ret a
       | None => Raise IndexError
       end.

(** [range(start, stop, step)] with a positive step. *)
Fixpoint range_from (n : nat) (start step : Z) : list Z :=
  match n with
  | O => []
  | S n' => start :: range_from n' (start + step) step
  end.

Definition py_range (start stop step : Z) : list Z :=
  range_from (Z.to_nat ((stop - start + step - 1) / step)) start step.

(** [int.bit_length()] of a nonnegative integer. *)
Definition bit_length (n : Z) : Z := if n =? 0 then 0 else Z.log2 n + 1.

(** [bin(m)[2:]] as a list of bits, most significant first ("0" for 0). *)
Fixpoint bin_pos (q : positive) (acc : list Z) : list Z :=
  match q with
  | xH => 1 :: acc
  | xO q' => bin_pos q' (0 :: acc)
  | xI q' => bin_pos q' (1 :: acc)
  end.

Definition py_bin (m : Z) : list Z :=
  match m with
  | Z0 => [0]
  | Zpos q => bin_pos q []
  | Zneg q => bin_pos q []
  end.

(** [s.zfill(width)] on a string of digits: pad with zeros on the left. *)
Definition zfill (s : list Z) (width : nat) : list Z :=
  repeat 0 (width - length s) ++ s.

(** ** Number theory (numbertheory.py) *)

(** Modelled from the spec: numbertheory.py is missing; [mod_inv(a, p)]
    is the modular inverse and fails when a = 0 (mod p). *)
Definition mod_inv (a m : Z) : result Z :=
  if a mod m =? 0 then Raise (ValueError "no inverse")
  else Ret (Z.invmod a m).

(** Quadratic residues, by search over the nonzero residues. *)
Definition is_square_mod (a m : Z) : bool :=
  existsb (fun r => r * r mod m =? a mod m) (py_range 1 m 1).

(** Modelled from the spec: numbertheory.py is missing; the Legendre
    symbol is +1 for a quadratic residue, -1 otherwise, 0 when a = 0
    (mod p). *)
Definition legendre_symbol (a m : Z) : Z :=
  if a mod m =? 0 then 0
  else if is_square_mod a m then 1 else -1.

(** The Tonelli-Shanks branch of [mod_sqrt] (p = 1 mod 4) is not in the
    sources and the spec only names it: it stays a parameter. *)
Class Numbertheory : Type := { tonelli_shanks : Z -> Z -> result Z }.

(** Modelled from the spec: numbertheory.py is missing; [mod_sqrt(a, p)]
    returns r with r*r = a (mod p) and fails when a is a non-residue;
    for p = 3 (mod 4) it is the direct formula a^((p+1)/4). *)
Definition mod_sqrt {nt : Numbertheory} (a m : Z) : result Z :=
  if m mod 4 =? 3 then
    let r := (a mod m) ^ ((m + 1) / 4) mod m in
    if r * r mod m =? a mod m then Ret r
    else Raise (ValueError "no root for")
  else tonelli_shanks a m.

(** ** class CurveGroup *)

Record CurveGroup : Type := {
  p : Z;
  _a : Z;
  _b : Z;
  psize : Z;
  pIsThreeModFour : bool
}.

(** [CurveGroup.__init__]; [int_from_integer] (utils.py) is the identity
    on integers.  [ceil(plen / 8)] is computed on integers. *)
Definition CurveGroup_init (p a b : Z) : result CurveGroup :=
  if (p <? 2) || (p mod 2 =? 0) || negb (2 ^ (p - 1) mod p =? 1) then
    Raise (ValueError "p is not prime: ")
  else
    let plen := bit_length p in
    let psize := (plen + 7) / 8 in
    let pIsThreeModFour := p mod 4 =? 3 in
    if a <? 0 then Raise (ValueError "negative a: ")
    else if p <=? a then Raise (ValueError "p <= a: ")
    else if b <? 0 then Raise (ValueError "negative b: ")
    else if p <=? b then Raise (ValueError "p <= b: ")
    else
      let d := 4 * a * a * a + 27 * b * b in
      if d mod p =? 0 then Raise (ValueError "zero discriminant")
      else Ret {| p := p; _a := a; _b := b; psize := psize;
                  pIsThreeModFour := pIsThreeModFour |}.

Definition _jac_from_aff (Q : Point) : JacPoint :=
  let '(x, y) := Q in (x, y, if y =? 0 then 0 else 1).

Section Methods.

Context {al : Alias} {nt : Numbertheory}.
Variable ec : CurveGroup.

(** [len(Q) == 2] holds of every [Point]: the TypeError branch of
    [negate] and [negate_jac] is excluded by the types. *)
Definition negate (Q : Point) : Point :=
  let '(x, y) := Q in (x, (ec.(p) - y) mod ec.(p)).

Definition negate_jac (Q : JacPoint) : JacPoint :=
  let '(X, Y, Z) := Q in (X, (ec.(p) - Y) mod ec.(p), Z).

Definition _aff_from_jac (Q : JacPoint) : result Point :=
  let '(X, Y, Z) := Q in
  if Z =? 0 then Ret INF
  else
    let Z2 := Z * Z in
    i2 <- mod_inv Z2 ec.(p) ;;
    let x := X * i2 in
    i3 <- mod_inv (Z2 * Z) ec.(p) ;;
    let y := Y * i3 in
    Ret (x mod ec.(p), y mod ec.(p)).

Definition _x_aff_from_jac (Q : JacPoint) : result Z :=
  let '(X, Y, Z) := Q in
  if Z =? 0 then Raise (ValueError "infinity point has no x-coordinate")
  else
    let Z2 := Z * Z in
    i2 <- mod_inv Z2 ec.(p) ;;
    Ret ((X * i2) mod ec.(p)).

Definition _jac_equality (QJ PJ : JacPoint) : bool :=
  let '(QX, QY, QZ) := QJ in
  let '(PX, PY, PZ) := PJ in
  let PJ2 := PZ * PZ in
  let QJ2 := QZ * QZ in
  if negb (QX * PJ2 mod ec.(p) =? PX * QJ2 mod ec.(p)) then false
  else
    let PJ3 := PJ2 * PZ in
    let QJ3 := QJ2 * QZ in
    QY * PJ3 mod ec.(p) =? PY * QJ3 mod ec.(p).

Definition _double_jac (Q : JacPoint) : JacPoint :=
  let '(Q0, Q1, Q2) := Q in
  let QZ2 := Q2 * Q2 in
  let QY2 := Q1 * Q1 in
  let W := 3 * Q0 * Q0 + ec.(_a) * QZ2 * QZ2 in
  let V := 4 * Q0 * QY2 in
  let X := W * W - 2 * V in
  let Y := W * (V - X) - 8 * QY2 * QY2 in
  let Z := 2 * Q1 * Q2 in
  (X mod ec.(p), Y mod ec.(p), Z mod ec.(p)).

Definition _add_jac (Q R : JacPoint) : JacPoint :=
  let '(Q0, Q1, Q2) := Q in
  let '(R0, R1, R2) := R in
  let RZ2 := R2 * R2 in
  let RZ3 := RZ2 * R2 in
  let QZ2 := Q2 * Q2 in
  let QZ3 := QZ2 * Q2 in
  let M := Q0 * RZ2 in
  let N := R0 * QZ2 in
  let T := Q1 * RZ3 in
  let U := R1 * QZ3 in
  if (M mod ec.(p) =? N mod ec.(p)) && (T mod ec.(p) =? U mod ec.(p)) then
    (* point doubling *)
    let QY2 := Q1 * Q1 in
    let W := 3 * Q0 * Q0 + ec.(_a) * QZ2 * QZ2 in
    let V := 4 * Q0 * QY2 in
    let X := W * W - 2 * V in
    let Y := W * (V - X) - 8 * QY2 * QY2 in
    let Z := 2 * Q1 * Q2 in
    (X mod ec.(p), Y mod ec.(p), Z mod ec.(p))
  else
    let W := U - T in
    let V := N - M in
    let V2 := V * V in
    let V3 := V2 * V in
    let MV2 := M * V2 in
    let X := (W * W - V3 - 2 * MV2) mod ec.(p) in
    let Y := (W * (MV2 - X) - T * V3) mod ec.(p) in
    let Z := (V * Q2 * R2) mod ec.(p) in
    let ret_values := [(X, Y, Z); R; Q; INFJ] in
    let i := Z.b2z (Q2 =? 0) + Z.b2z (R2 =? 0) * 2 in
    nth (Z.to_nat i) ret_values INFJ.

Definition _double_aff (Q : Point) : result Point :=
  let '(Q0, Q1) := Q in
  if Q1 =? 0 then Ret INF
  else
    i <- mod_inv (2 * Q1) ec.(p) ;;
    let lam := (3 * Q0 * Q0 + ec.(_a)) * i in
    let x := lam * lam - Q0 - Q0 in
    let y := lam * (Q0 - x) - Q1 in
    Ret (x mod ec.(p), y mod ec.(p)).

Definition _add_aff (Q R : Point) : result Point :=
  let '(Q0, Q1) := Q in
  let '(R0, R1) := R in
  if R1 =? 0 then Ret Q
  else if Q1 =? 0 then Ret R
  else if R0 =? Q0 then
    if R1 =? Q1 then _double_aff R
    else Ret INF
  else
    i <- mod_inv (R0 - Q0) ec.(p) ;;
    let lam := (R1 - Q1) * i in
    let x := lam * lam - Q0 - R0 in
    let y := lam * (Q0 - x) - Q1 in
    Ret (x mod ec.(p), y mod ec.(p)).

Definition _y2 (x : Z) : Z :=
  ((x ^ 2 + ec.(_a)) * x + ec.(_b)) mod ec.(p).

(** [y]: the try/except turns every exception of [mod_sqrt] into
    ValueError("invalid x-coordinate"). *)
Definition y (x : Z) : result Z :=
  if negb ((0 <=? x) && (x <? ec.(p))) then
    Raise (ValueError "x-coordinate not in 0..p-1: ")
  else
    let y2 := _y2 x in
    match mod_sqrt y2 ec.(p) with
    | Ret r => Ret r
    | Raise Diverges => Raise Diverges
    | Raise _ => Raise (ValueError "invalid x-coordinate")
    end.

(** [len(Q) != 2] is excluded by the type of [Q]. *)
Definition is_on_curve (Q : Point) : result bool :=
  let '(Q0, Q1) := Q in
  if Q1 =? 0 then Ret true
  else if negb ((0 <? Q1) && (Q1 <? ec.(p))) then
    Raise (ValueError "y-coordinate not in 1..p-1: ")
  else Ret (_y2 Q0 =? Q1 * Q1 mod ec.(p)).

Definition require_on_curve (Q : Point) : result unit :=
  b <- is_on_curve Q ;;
  if negb b then Raise (ValueError "point not on curve") else Ret tt.

Definition add (Q1 Q2 : Point) : result Point :=
  _ <- require_on_curve Q1 ;;
  _ <- require_on_curve Q2 ;;
  _add_aff Q1 Q2.

Definition has_square_y (Q : Point) : bool :=
  legendre_symbol (snd Q) ec.(p) =? 1.

Definition has_square_y_jac (Q : JacPoint) : bool :=
  let '(X, Y, Z) := Q in
  legendre_symbol (Y * Z mod ec.(p)) ec.(p) =? 1.

Definition require_p_ThreeModFour : result unit :=
  if negb ec.(pIsThreeModFour) then
    Raise (ValueError "field prime is not equal to 3 mod 4: ")
  else Ret tt.

Definition y_odd (x : Z) (odd1even0 : Z) : result Z :=
  if negb ((odd1even0 =? 0) || (odd1even0 =? 1)) then
    Raise (ValueError "odd1even0 must be bool or 1/0")
  else
    root <- y x ;;
    Ret (if root mod 2 =? odd1even0 then root else ec.(p) - root).

Definition y_low (x : Z) (low1high0 : Z) : result Z :=
  if negb ((low1high0 =? 0) || (low1high0 =? 1)) then
    Raise (ValueError "low1high0 must be bool or 1/0")
  else
    root <- y x ;;
    Ret (if Z.b2z (ec.(p) / 2 >=? root) =? low1high0 then root
         else ec.(p) - root).

Definition y_quadratic_residue (x : Z) (quad_res : Z) : result Z :=
  if negb ((quad_res =? 0) || (quad_res =? 1)) then
    Raise (ValueError "quad_res must be bool or 1/0")
  else
    _ <- require_p_ThreeModFour ;;
    root <- y x ;;
    let legendre := legendre_symbol root ec.(p) in
    Ret (if legendre =? quad_res then root else ec.(p) - root).

End Methods.

(** ** Scalar multiplication *)

(** A [for] loop whose body may raise. *)
Fixpoint foldM {A B : Type} (f : A -> B -> result A) (l : list B) (a : A)
  : result A :=
  match l with
  | [] => Ret a
  | b :: l' => a' <- f a b ;; foldM f l' a'
  end.

(** The two-element list [R] of the binary algorithms, and [R[i]] and
    [R[i] = v] for a bit [i]. *)
Definition get2 {A : Type} (R : A * A) (i : Z) : A :=
  if i =? 0 then fst R else snd R.

Definition set2 {A : Type} (R : A * A) (i : Z) (v : A) : A * A :=
  if i =? 0 then (v, snd R) else (fst R, v).

(** Python's [not i] on a bit, used as an index. *)
Definition py_not (i : Z) : Z := if i =? 0 then 1 else 0.

Section ScalarMult.

Context {al : Alias}.

(** The [while m > 0] loop of [_mult_aff]; it halves [m] and so runs
    [bit_length m] times. *)
Fixpoint _mult_aff_loop (fuel : nat) (m : Z) (Q : Point) (R : Point * Point)
  (ec : CurveGroup) : result Point :=
  if 0 <? m then
    match fuel with
    | O => Raise Diverges
    | S fuel' =>
      Q' <- _double_aff ec Q ;;
      R1 <- _add_aff ec (fst R) Q' ;;
      let R := set2 R 1 R1 in
      let R := set2 R 0 (get2 R (Z.land m 1)) in
      _mult_aff_loop fuel' (Z.shiftr m 1) Q' R ec
    end
  else Ret (fst R).

Definition _mult_aff (m : Z) (Q : Point) (ec : CurveGroup) : result Point :=
  if m <? 0 then Raise (ValueError "negative m: ")
  else
    let R := (INF, Q) in
    let R := set2 R 0 (get2 R (Z.land m 1)) in
    let m := Z.shiftr m 1 in
    _mult_aff_loop (Z.to_nat (bit_length m)) m Q R ec.

Fixpoint _mult_jac_loop (fuel : nat) (m : Z) (Q : JacPoint)
  (R : JacPoint * JacPoint) (ec : CurveGroup) : result JacPoint :=
  if 0 <? m then
    match fuel with
    | O => Raise Diverges
    | S fuel' =>
      let Q' := _double_jac ec Q in
      let R := set2 R (py_not (Z.land m 1)) (_add_jac ec (fst R) Q') in
      _mult_jac_loop fuel' (Z.shiftr m 1) Q' R ec
    end
  else Ret (fst R).

Definition _mult_jac (m : Z) (Q : JacPoint) (ec : CurveGroup)
  : result JacPoint :=
  if m <? 0 then Raise (ValueError "negative m: ")
  else
    let R := (INFJ, Q) in
    let R := set2 R (py_not (Z.land m 1)) Q in
    let m := Z.shiftr m 1 in
    _mult_jac_loop (Z.to_nat (bit_length m)) m Q R ec.

(** The body of the table loops: append the double of [T[(i-1)//2]],
    then the sum of the last entry and [Q]. *)
Definition multiples_step (Q : JacPoint) (ec : CurveGroup)
  (T : list JacPoint) (i : Z) : result (list JacPoint) :=
  d <- py_index T ((i - 1) / 2) ;;
  let T := T ++ [_double_jac ec d] in
  l <- py_index T (-1) ;;
  Ret (T ++ [_add_jac ec l Q]).

Definition multiples (Q : JacPoint) (size : Z) (ec : CurveGroup)
  : result (list JacPoint) :=
  if size <? 2 then Raise (ValueError "size too low: ")
  else
    let k := size / 2 in
    let odd := size mod 2 in
    let T := [INFJ; Q] in
    T <- foldM (multiples_step Q ec) (py_range 3 (k * 2) 2) T ;;
    if negb (odd =? 0) then
      d <- py_index T ((size - 1) / 2) ;;
      Ret (T ++ [_double_jac ec d])
    else Ret T.

Definition _MAX_W : Z := 5.

(** [functools.lru_cache] memoises a pure function: it is not modelled. *)
Definition cached_multiples (Q : JacPoint) (ec : CurveGroup)
  : result (list JacPoint) :=
  let T := [INFJ; Q] in
  foldM (multiples_step Q ec) (py_range 3 (2 ^ _MAX_W) 2) T.

(** One turn of the outer loop of [cached_multiples_fixwind]. *)
Definition fixwind_step (ec : CurveGroup) (w : Z)
  (st : list (list JacPoint) * JacPoint) (_ : Z)
  : result (list (list JacPoint) * JacPoint) :=
  let '(T, K) := st in
  let sublist := [INFJ; K] in
  sublist <- foldM (multiples_step K ec) (py_range 3 (2 ^ w) 2) sublist ;;
  h <- py_index sublist (2 ^ (w - 1)) ;;
  let K := _double_jac ec h in
  Ret (T ++ [sublist], K).

(** [(ec.psize * 8) // w] raises ZeroDivisionError for w = 0. *)
Definition cached_multiples_fixwind (Q : JacPoint) (ec : CurveGroup) (w : Z)
  : result (list (list JacPoint)) :=
  if w =? 0 then Raise ZeroDivisionError
  else
    st <- foldM (fixwind_step ec w)
                (py_range 0 ((ec.(psize) * 8) / w + 1) 1) ([], Q) ;;
    Ret (fst st).

(** The loop of [convert_number_to_base]. *)
Fixpoint convert_loop (fuel : nat) (i base : Z) (digits : list Z)
  : result (list Z) :=
  if negb (i =? 0) || (match digits with [] => true | _ => false end) then
    match fuel with
    | O => Raise Diverges
    | S fuel' =>
      if base =? 0 then Raise ZeroDivisionError
      else convert_loop fuel' (i / base) base (digits ++ [i mod base])
    end
  else Ret (rev digits).

(** The loop divides [i] by [base]: for i >= 0 and base >= 2 it runs at
    most [bit_length i] times, and once for i = 0. *)
Definition convert_number_to_base (i base : Z) : result (list Z) :=
  convert_loop (S (Z.to_nat (bit_length (Z.abs i)))) i base [].

Definition mont_step (ec : CurveGroup) (R : JacPoint * JacPoint) (i : Z)
  : JacPoint * JacPoint :=
  let R := set2 R (py_not i) (_add_jac ec (get2 R i) (get2 R (py_not i))) in
  set2 R i (_double_jac ec (get2 R i)).

Definition _mult_mont_ladder (m : Z) (Q : JacPoint) (ec : CurveGroup)
  : result JacPoint :=
  if m <? 0 then Raise (ValueError "negative m: ")
  else
    let R := (INFJ, Q) in
    Ret (fst (fold_left (mont_step ec) (py_bin m) R)).

Definition base_3_step (ec : CurveGroup) (T : list JacPoint) (R : JacPoint)
  (i : Z) : result JacPoint :=
  let R2 := _double_jac ec R in
  let R3 := _add_jac ec R2 R in
  t <- py_index T i ;;
  Ret (_add_jac ec R3 t).

Definition _mult_base_3 (m : Z) (Q : JacPoint) (ec : CurveGroup)
  : result JacPoint :=
  if m <? 0 then Raise (ValueError "negative m: ")
  else
    let T := [INFJ; Q; _double_jac ec Q] in
    digits <- convert_number_to_base m 3 ;;
    d0 <- py_index digits 0 ;;
    R <- py_index T d0 ;;
    foldM (base_3_step ec T) (tl digits) R.

Definition fixed_window_step (ec : CurveGroup) (w : Z) (T : list JacPoint)
  (R : JacPoint) (i : Z) : result JacPoint :=
  let R := Nat.iter (Z.to_nat w) (_double_jac ec) R in
  t <- py_index T i ;;
  Ret (_add_jac ec R t).

Definition _mult_fixed_window (m : Z) (Q : JacPoint) (ec : CurveGroup)
  (w : Z) (cached : bool) : result JacPoint :=
  if m <? 0 then Raise (ValueError "negative m: ")
  else if w <=? 0 then Raise (ValueError "non positive w: ")
  else
    T <- (if cached then cached_multiples Q ec
          else multiples Q (2 ^ w) ec) ;;
    digits <- convert_number_to_base m (2 ^ w) ;;
    d0 <- py_index digits 0 ;;
    R <- py_index T d0 ;;
    foldM (fixed_window_step ec w T) (tl digits) R.

(** The loop of [_mult_fixed_window_cached]: the state is (k, R). *)
Definition fixed_window_cached_step (ec : CurveGroup)
  (T : list (list JacPoint)) (digits : list Z) (st : Z * JacPoint) (i : Z)
  : result (Z * JacPoint) :=
  let '(k, R) := st in
  let k := k - 1 in
  Tk <- py_index T k ;;
  di <- py_index digits i ;;
  t <- py_index Tk di ;;
  Ret (k, _add_jac ec R t).

Definition _mult_fixed_window_cached (m : Z) (Q : JacPoint) (ec : CurveGroup)
  (w : Z) : result JacPoint :=
  if m <? 0 then Raise (ValueError "negative m: ")
  else if w <=? 0 then Raise (ValueError "non positive w: ")
  else
    T <- cached_multiples_fixwind Q ec w ;;
    digits <- convert_number_to_base m (2 ^ w) ;;
    let k := Z.of_nat (length digits) - 1 in
    Tk <- py_index T k ;;
    d0 <- py_index digits 0 ;;
    R <- py_index Tk d0 ;;
    st <- foldM (fixed_window_cached_step ec T digits)
                (py_range 1 (Z.of_nat (length digits)) 1) (k, R) ;;
    Ret (snd st).

(** [_mult = _mult_fixed_window], with its defaults w = 4 and
    cached = False. *)
Definition _mult (m : Z) (Q : JacPoint) (ec : CurveGroup) : result JacPoint :=
  _mult_fixed_window m Q ec 4 false.

Definition double_mult_step (ec : CurveGroup) (T : list JacPoint)
  (R : JacPoint) (i : Z) : result JacPoint :=
  let R := _double_jac ec R in
  t <- py_index T i ;;
  Ret (_add_jac ec R t).

Definition _double_mult (u : Z) (HJ : JacPoint) (v : Z) (QJ : JacPoint)
  (ec : CurveGroup) : result JacPoint :=
  if u <? 0 then Raise (ValueError "negative first coefficient: ")
  else if v <? 0 then Raise (ValueError "negative second coefficient: ")
  else
    let T := [INFJ; HJ; QJ; _add_jac ec HJ QJ] in
    let ui := py_bin u in
    let vi := zfill (py_bin v) (length ui) in
    let ui := zfill ui (length vi) in
    let digits := map (fun jk => fst jk + 2 * snd jk) (combine ui vi) in
    d0 <- py_index digits 0 ;;
    R <- py_index T d0 ;;
    foldM (double_mult_step ec T) (tl digits) R.

(** *** Bos-Coster multi scalar multiplication *)

(** Python's ordering of the heap entries [(-n, PJ)]: tuples compare
    lexicographically. *)
Definition entry_ltb (e1 e2 : Z * JacPoint) : bool :=
  let '(n1, (X1, Y1, Z1)) := e1 in
  let '(n2, (X2, Y2, Z2)) := e2 in
  (n1 <? n2) || ((n1 =? n2) &&
    ((X1 <? X2) || ((X1 =? X2) &&
      ((Y1 <? Y2) || ((Y1 =? Y2) && (Z1 <? Z2)))))).

(** [heapq] is Python's library: the heap is modelled by its contract.
    It holds a multiset of entries ([heapify] and [heappush] add to it)
    and [heappop] removes and returns the least entry; equal entries are
    the same value, so the pop is determined. *)
Definition heapify (x : list (Z * JacPoint)) : list (Z * JacPoint) := x.

Definition heappush (x : list (Z * JacPoint)) (e : Z * JacPoint)
  : list (Z * JacPoint) := e :: x.

Fixpoint heap_min (e : Z * JacPoint) (x : list (Z * JacPoint))
  : Z * JacPoint :=
  match x with
  | [] => e
  | e' :: x' => heap_min (if entry_ltb e' e then e' else e) x'
  end.

Definition entry_eqb (e1 e2 : Z * JacPoint) : bool :=
  negb (entry_ltb e1 e2) && negb (entry_ltb e2 e1).

Fixpoint heap_remove (e : Z * JacPoint) (x : list (Z * JacPoint))
  : list (Z * JacPoint) :=
  match x with
  | [] => []
  | e' :: x' => if entry_eqb e e' then x' else e' :: heap_remove e x'
  end.

Definition heappop (x : list (Z * JacPoint))
  : result ((Z * JacPoint) * list (Z * JacPoint)) :=
  match x with
  | [] => Raise IndexError
  | e :: x' => let m := heap_min e x' in Ret (m, heap_remove m x)
  end.

(** The first loop of [_multi_mult]: zero scalars are skipped, a
    negative one raises. *)
Fixpoint multi_mult_filter (l : list (Z * JacPoint)) (x : list (Z * JacPoint))
  : result (list (Z * JacPoint)) :=
  match l with
  | [] => Ret x
  | (n, PJ) :: l' =>
    if n =? 0 then multi_mult_filter l' x
    else if n <? 0 then Raise (ValueError "negative coefficient: ")
    else multi_mult_filter l' (x ++ [(- n, PJ)])
  end.

(** The [while len(x) > 1] loop.  Each turn lowers the sum of the
    scalars in the heap, which bounds the fuel. *)
Fixpoint multi_mult_loop (fuel : nat) (ec : CurveGroup)
  (x : list (Z * JacPoint)) : result (list (Z * JacPoint)) :=
  if 1 <? Z.of_nat (length x) then
    match fuel with
    | O => Raise Diverges
    | S fuel' =>
      '(np1, x) <- heappop x ;;
      '(np2, x) <- heappop x ;;
      let n1 := - fst np1 in
      let p1 := snd np1 in
      let n2 := - fst np2 in
      let p2 := snd np2 in
      let p2 := _add_jac ec p1 p2 in
      let n1 := n1 - n2 in
      let x := if 0 <? n1 then heappush x (- n1, p1) else x in
      let x := heappush x (- n2, p2) in
      multi_mult_loop fuel' ec x
    end
  else Ret x.

Definition _multi_mult (scalars : list Z) (JPoints : list JacPoint)
  (ec : CurveGroup) : result JacPoint :=
  if negb (Nat.eqb (length scalars) (length JPoints)) then
    Raise (ValueError "mismatch between number of scalars and points: ")
  else
    x <- multi_mult_filter (combine scalars JPoints) [] ;;
    match x with
    | [] => Ret INFJ
    | _ =>
      let x := heapify x in
      let fuel := Z.to_nat (fold_right Z.add 0 (map (fun e => - fst e) x)) in
      x <- multi_mult_loop fuel ec x ;;
      '(np1, x) <- heappop x ;;
      let n1 := - fst np1 in
      let p1 := snd np1 in
      _mult n1 p1 ec
    end.

End ScalarMult.

(** ** The curves of the tests (tests/test_curve.py) *)

(** [low_card_curves]: the group parameters of the test curves, as
    [CurveGroup.__init__] builds them. *)
Definition ec13_11 : CurveGroup :=
  {| p := 13; _a := 7; _b := 6; psize := 1; pIsThreeModFour := false |}.
Definition ec13_19 : CurveGroup :=
  {| p := 13; _a := 0; _b := 2; psize := 1; pIsThreeModFour := false |}.
Definition ec17_13 : CurveGroup :=
  {| p := 17; _a := 6; _b := 8; psize := 1; pIsThreeModFour := false |}.
Definition ec17_23 : CurveGroup :=
  {| p := 17; _a := 3; _b := 5; psize := 1; pIsThreeModFour := false |}.
Definition ec19_13 : CurveGroup :=
  {| p := 19; _a := 0; _b := 2; psize := 1; pIsThreeModFour := true |}.
Definition ec19_23 : CurveGroup :=
  {| p := 19; _a := 2; _b := 9; psize := 1; pIsThreeModFour := true |}.
Definition ec23_19 : CurveGroup :=
  {| p := 23; _a := 9; _b := 7; psize := 1; pIsThreeModFour := true |}.
Definition ec23_31 : CurveGroup :=
  {| p := 23; _a := 5; _b := 1; psize := 1; pIsThreeModFour := true |}.

(** A Jacobian infinity that lies on the Jacobian curve equation
    Y^2 = X^3 + a X Z^4 + b Z^6, used where a concrete [Alias] is needed
    whose Jacobian infinity is not the zero triple. *)
Definition alias_on_curve : Alias := {| INF := (0, 0); INFJ := (1, 1, 0) |}.

(** Primality by trial division, to discharge [Z.prime] on the test
    curves. *)
Definition is_prime_b (n : Z) : bool :=
  (2 <=? n) && forallb (fun d => negb (n mod d =? 0)) (py_range 2 n 1).

(** * Properties *)

(** ** Base decomposition *)

(** The value of a big-endian digit list. *)
Definition digits_value (base : Z) (digits : list Z) : Z :=
  fold_left (fun acc d => acc * base + d) digits 0.

Lemma digits_value_snoc base ds d :
  digits_value base (ds ++ [d]) = digits_value base ds * base + d.
Proof. unfold digits_value. now rewrite fold_left_app. Qed.

Lemma convert_loop_done fuel base d acc :
  convert_loop fuel 0 base (acc ++ [d]) = Ret (d :: rev acc).
Proof.
  destruct fuel; simpl; destruct acc; simpl;
    now rewrite ?rev_app_distr.
Qed.

Lemma convert_loop_pos base (Hb : 2 <= base) fuel :
  forall i acc, 0 < i < 2 ^ Z.of_nat fuel ->
  exists D, convert_loop fuel i base acc = Ret (D ++ rev acc)
    /\ D <> [] /\ Forall (fun d => 0 <= d < base) D
    /\ digits_value base D = i /\ hd 0 D <> 0.
Proof.
  induction fuel as [|fuel IH]; intros i acc Hi.
  - simpl in Hi. lia.
  - cbn [convert_loop].
    replace (i =? 0) with false by (symmetry; apply Z.eqb_neq; lia).
    replace (base =? 0) with false by (symmetry; apply Z.eqb_neq; lia).
    cbn [negb orb].
    assert (Hmod : 0 <= i mod base < base) by (apply Z.mod_pos_bound; lia).
    assert (Hdiv : 0 <= i / base) by (apply Z.div_pos; lia).
    assert (Hdm : i = base * (i / base) + i mod base)
      by (apply Z.div_mod; lia).
    destruct (Z.eq_dec (i / base) 0) as [H0|H0].
    + rewrite H0, convert_loop_done.
      exists [i mod base]. repeat split; auto.
      * discriminate.
      * unfold digits_value; simpl. lia.
      * simpl. lia.
    + assert (Hlt : i / base < 2 ^ Z.of_nat fuel).
      { apply Z.div_lt_upper_bound; [lia|].
        rewrite Nat2Z.inj_succ, Z.pow_succ_r in Hi by lia. nia. }
      destruct (IH (i / base) (acc ++ [i mod base]) ltac:(lia))
        as (D & HD & Hne & Hall & Hval & Hhd).
      exists (D ++ [i mod base]). repeat split.
      * rewrite HD, rev_app_distr, <- app_assoc. reflexivity.
      * destruct D; discriminate.
      * apply Forall_app; split; auto.
      * rewrite digits_value_snoc, Hval. lia.
      * destruct D; [congruence | exact Hhd].
Qed.

(** The digits of [convert_number_to_base], as the scalar
    multiplications use them. *)
Lemma convert_number_to_base_ok (i base : Z) :
  0 <= i -> 2 <= base ->
  exists digits, convert_number_to_base i base = Ret digits
    /\ digits <> []
    /\ Forall (fun d => 0 <= d < base) digits
    /\ digits_value base digits = i
    /\ (0 < i -> hd 0 digits <> 0)
    /\ (i = 0 -> digits = [0]).
Proof.
  intros Hi Hb. unfold convert_number_to_base.
  destruct (Z.eq_dec i 0) as [->|Hnz].
  - exists [0]. cbn -[convert_loop].
    change (convert_loop 1 0 base []) with
      (if base =? 0 then Raise ZeroDivisionError
       else convert_loop 0 (0 / base) base ([] ++ [0 mod base])).
    replace (base =? 0) with false by (symmetry; apply Z.eqb_neq; lia).
    rewrite Z.div_0_l, Z.mod_0_l by lia. simpl.
    repeat split; auto; try discriminate; try lia.
    constructor; [lia | constructor].
  - assert (Hpos : 0 < i) by lia.
    destruct (convert_loop_pos base Hb
                (S (Z.to_nat (bit_length (Z.abs i)))) i [])
      as (D & HD & Hne & Hall & Hval & Hhd).
    + split; [lia|]. rewrite Z.abs_eq by lia. unfold bit_length.
      replace (i =? 0) with false by (symmetry; apply Z.eqb_neq; lia).
      pose proof (Z.log2_nonneg i).
      rewrite Nat2Z.inj_succ, Z2Nat.id by lia.
      destruct (Z.log2_spec i Hpos) as [_ H2].
      rewrite <- Z.add_1_r. 
      eapply Z.lt_le_trans; [exact H2|].
      apply Z.pow_le_mono_r; lia.
    + exists D. rewrite HD, app_nil_r. repeat split; auto. lia.
Qed.

(** C9. For every i >= 0 and base >= 2, [convert_number_to_base]
    returns (its loop ends within the fuel) a non-empty big-endian digit
    list: the digits are in [0, base), they evaluate back to i, the
    leading digit is nonzero when i > 0, and i = 0 gives [0]. *)
Theorem convert_number_to_base_spec (i base : Z) :
  0 <= i -> 2 <= base ->
  exists digits, convert_number_to_base i base = Ret digits
    /\ digits <> []
    /\ Forall (fun d => 0 <= d < base) digits
    /\ digits_value base digits = i
    /\ (0 < i -> hd 0 digits <> 0)
    /\ (i = 0 -> digits = [0]).
Proof. exact (convert_number_to_base_ok i base). Qed.

Lemma convert_number_to_base_witness :
  exists digits, convert_number_to_base 255 16 = Ret digits
    /\ digits <> []
    /\ Forall (fun d => 0 <= d < 16) digits
    /\ digits_value 16 digits = 255
    /\ (0 < 255 -> hd 0 digits <> 0)
    /\ (255 = 0 -> digits = [0]).
Proof. apply (convert_number_to_base_spec 255 16); lia. Defined.

(** ** Indexing *)

Lemma py_index_nth {A : Type} (l : list A) (i : Z) (x : A) :
  0 <= i -> nth_error l (Z.to_nat i) = Some x -> py_index l i = Ret x.
Proof.
  intros Hi Hn. unfold py_index.
  assert (Hlen : (Z.to_nat i < length l)%nat)
    by (apply nth_error_Some; congruence).
  replace (i <? 0) with false by (symmetry; apply Z.ltb_ge; lia).
  replace (i <? 0) with false by (symmetry; apply Z.ltb_ge; lia).
  replace (Z.of_nat (length l) <=? i) with false
    by (symmetry; apply Z.leb_gt; lia).
  simpl. now rewrite Hn.
Qed.

Lemma py_index_last {A : Type} (l : list A) (x : A) :
  py_index (l ++ [x]) (-1) = Ret x.
Proof.
  unfold py_index. rewrite length_app, Nat2Z.inj_add. cbn [length Z.ltb Z.compare].
  replace (-1 + (Z.of_nat (length l) + Z.of_nat 1) <? 0) with false
    by (symmetry; apply Z.ltb_ge; lia).
  replace (Z.of_nat (length l) + Z.of_nat 1 <=?
           -1 + (Z.of_nat (length l) + Z.of_nat 1)) with false
    by (symmetry; apply Z.leb_gt; lia).
  simpl orb. cbv iota.
  replace (Z.to_nat (-1 + (Z.of_nat (length l) + Z.of_nat 1)))
    with (length l) by lia.
  rewrite nth_error_app2, Nat.sub_diag by lia. reflexivity.
Qed.

Lemma py_index_out {A : Type} (l : list A) (i : Z) :
  Z.of_nat (length l) <= i -> py_index l i = Raise IndexError.
Proof.
  intros Hi. unfold py_index.
  replace (i <? 0) with false by (symmetry; apply Z.ltb_ge; lia).
  replace (i <? 0) with false by (symmetry; apply Z.ltb_ge; lia).
  replace (Z.of_nat (length l) <=? i) with true
    by (symmetry; apply Z.leb_le; lia).
  reflexivity.
Qed.

Lemma py_index_in {A : Type} (l : list A) (i : Z) :
  0 <= i < Z.of_nat (length l) ->
  exists x, py_index l i = Ret x /\ nth_error l (Z.to_nat i) = Some x.
Proof.
  intros Hi.
  destruct (nth_error l (Z.to_nat i)) as [x|] eqn:E.
  - exists x. split; [apply py_index_nth; [lia | exact E] | reflexivity].
  - apply nth_error_None in E. lia.
Qed.

Lemma range_from_length n start step : length (range_from n start step) = n.
Proof. revert start; induction n; simpl; intros; [reflexivity | now rewrite IHn]. Qed.

Lemma py_range_length_1 (start stop : Z) :
  length (py_range start stop 1) = Z.to_nat (stop - start).
Proof.
  unfold py_range. rewrite range_from_length. f_equal.
  rewrite Z.div_1_r. lia.
Qed.

(** ** The tables of multiples: shape *)

Section Tables.

Context {al : Alias}.
Variable ec : CurveGroup.
Variable Q : JacPoint.

(** What the table loops maintain, with the recurrence as the code has
    it: entry 2k is the double of entry k, entry 2k+1 is entry 2k plus
    Q. *)
Definition table_ok (T : list JacPoint) : Prop :=
  nth_error T 0 = Some INFJ /\ nth_error T 1 = Some Q /\
  forall k : nat, (1 <= k)%nat ->
    (forall d, nth_error T (2 * k) = Some d ->
       exists h, nth_error T k = Some h /\ d = _double_jac ec h) /\
    (forall s, nth_error T (2 * k + 1) = Some s ->
       exists d, nth_error T (2 * k) = Some d /\ s = _add_jac ec d Q).

Lemma table_ok_init : table_ok [INFJ; Q].
Proof.
  repeat split; intros.
  - destruct k as [|[|k]]; try lia; simpl in H0;
      try discriminate; destruct k; discriminate.
  - destruct k as [|[|k]]; try lia; simpl in H0;
      try discriminate; destruct k; discriminate.
Qed.

Lemma table_ok_double (T : list JacPoint) (j : nat) (h : JacPoint) :
  table_ok T -> length T = (2 * j)%nat -> (1 <= j)%nat ->
  nth_error T j = Some h ->
  table_ok (T ++ [_double_jac ec h]).
Proof.
  intros (H0 & H1 & Hrec) Hlen Hj Hh.
  assert (Hl2 : (2 <= length T)%nat) by lia.
  split; [|split].
  - rewrite nth_error_app1 by lia. exact H0.
  - rewrite nth_error_app1 by lia. exact H1.
  - intros k Hk. split.
    + intros d Hd.
      destruct (Nat.lt_ge_cases (2 * k) (length T)) as [Hlt|Hge].
      * rewrite nth_error_app1 in Hd by lia.
        destruct (proj1 (Hrec k Hk) d Hd) as (h' & Hh' & ->).
        exists h'. split; [|reflexivity].
        rewrite nth_error_app1; [exact Hh'|]. lia.
      * assert (k = j).
        { assert ((2 * k < length (T ++ [_double_jac ec h]))%nat)
            by (apply nth_error_Some; congruence).
          rewrite length_app in H; simpl in H. lia. }
        subst k. rewrite nth_error_app2 in Hd by lia.
        replace (2 * j - length T)%nat with 0%nat in Hd by lia.
        simpl in Hd. injection Hd as <-.
        exists h. split; [|reflexivity].
        rewrite nth_error_app1 by lia. exact Hh.
    + intros s Hs.
      assert (Hlt : (2 * k + 1 < length (T ++ [_double_jac ec h]))%nat)
        by (apply nth_error_Some; congruence).
      rewrite length_app in Hlt; simpl in Hlt.
      rewrite nth_error_app1 in Hs by lia.
      destruct (proj2 (Hrec k Hk) s Hs) as (d & Hd & ->).
      exists d. split; [|reflexivity].
      rewrite nth_error_app1; [exact Hd|]. lia.
Qed.

Lemma table_ok_add (T : list JacPoint) (j : nat) (d : JacPoint) :
  table_ok T -> length T = (2 * j + 1)%nat -> (1 <= j)%nat ->
  nth_error T (2 * j) = Some d ->
  table_ok (T ++ [_add_jac ec d Q]).
Proof.
  intros (H0 & H1 & Hrec) Hlen Hj Hd.
  split; [|split].
  - rewrite nth_error_app1 by lia. exact H0.
  - rewrite nth_error_app1 by lia. exact H1.
  - intros k Hk. split.
    + intros d' Hd'.
      assert (Hlt : (2 * k < length (T ++ [_add_jac ec d Q]))%nat)
        by (apply nth_error_Some; congruence).
      rewrite length_app in Hlt; simpl in Hlt.
      rewrite nth_error_app1 in Hd' by lia.
      destruct (proj1 (Hrec k Hk) d' Hd') as (h' & Hh' & ->).
      exists h'. split; [|reflexivity].
      rewrite nth_error_app1; [exact Hh'|]. lia.
    + intros s Hs.
      destruct (Nat.lt_ge_cases (2 * k + 1) (length T)) as [Hlt|Hge].
      * rewrite nth_error_app1 in Hs by lia.
        destruct (proj2 (Hrec k Hk) s Hs) as (d' & Hd' & ->).
        exists d'. split; [|reflexivity].
        rewrite nth_error_app1; [exact Hd'|]. lia.
      * assert (k = j).
        { assert ((2 * k + 1 < length (T ++ [_add_jac ec d Q]))%nat)
            by (apply nth_error_Some; congruence).
          rewrite length_app in H; simpl in H. lia. }
        subst k. rewrite nth_error_app2 in Hs by lia.
        replace (2 * j + 1 - length T)%nat with 0%nat in Hs by lia.
        simpl in Hs. injection Hs as <-.
        exists d. split; [|reflexivity].
        rewrite nth_error_app1 by lia. exact Hd.
Qed.

(** One turn of the loop, entered with 2j entries and i = 2j + 1. *)
Lemma multiples_step_ok (T : list JacPoint) (j : nat) :
  table_ok T -> length T = (2 * j)%nat -> (1 <= j)%nat ->
  exists T', multiples_step Q ec T (2 * Z.of_nat j + 1) = Ret T'
    /\ table_ok T' /\ length T' = (2 * (j + 1))%nat.
Proof.
  intros HT Hlen Hj. unfold multiples_step.
  replace ((2 * Z.of_nat j + 1 - 1) / 2) with (Z.of_nat j)
    by (rewrite Z.add_simpl_r, Z.mul_comm, Z.div_mul; lia).
  destruct (py_index_in T (Z.of_nat j) ltac:(lia)) as (h & Hpy & Hh).
  rewrite Nat2Z.id in Hh. rewrite Hpy. cbn [bind].
  rewrite py_index_last. cbn [bind].
  eexists; split; [reflexivity|].
  pose proof (table_ok_double T j h HT Hlen Hj Hh) as HT1.
  split.
  - apply (table_ok_add _ j); auto.
    + rewrite length_app; simpl; lia.
    + rewrite nth_error_app2 by lia.
      replace (2 * j - length T)%nat with 0%nat by lia. reflexivity.
  - rewrite !length_app; simpl; lia.
Qed.

Lemma multiples_loop_ok (n : nat) :
  forall (T : list JacPoint) (j : nat),
  table_ok T -> length T = (2 * j)%nat -> (1 <= j)%nat ->
  exists T', foldM (multiples_step Q ec)
                   (range_from n (2 * Z.of_nat j + 1) 2) T = Ret T'
    /\ table_ok T' /\ length T' = (2 * (j + n))%nat.
Proof.
  induction n as [|n IH]; intros T j HT Hlen Hj.
  - exists T. simpl. split; [reflexivity | split; [exact HT | lia]].
  - cbn [range_from foldM].
    destruct (multiples_step_ok T j HT Hlen Hj) as (T1 & E1 & HT1 & Hlen1).
    rewrite E1. cbn [bind].
    destruct (IH T1 (j + 1)%nat HT1 Hlen1 ltac:(lia)) as (T' & E' & HT' & Hlen').
    replace (2 * Z.of_nat (j + 1) + 1) with (2 * Z.of_nat j + 1 + 2) in E' by lia.
    exists T'. split; [exact E' | split; [exact HT' | lia]].
Qed.

(** The shape of [multiples]: for size >= 2 it returns exactly [size]
    entries that satisfy the recurrence; for size < 2 it raises. *)
Lemma multiples_shape (size : Z) :
  2 <= size ->
  exists T, multiples Q size ec = Ret T
    /\ table_ok T /\ Z.of_nat (length T) = size.
Proof.
  intros Hs. unfold multiples.
  replace (size <? 2) with false by (symmetry; apply Z.ltb_ge; lia).
  assert (Hk : 1 <= size / 2) by (apply Z.div_le_lower_bound; lia).
  assert (Hdm : size = 2 * (size / 2) + size mod 2) by (apply Z.div_mod; lia).
  assert (Hm : 0 <= size mod 2 < 2) by (apply Z.mod_pos_bound; lia).
  unfold py_range.
  replace ((size / 2 * 2 - 3 + 2 - 1) / 2) with (size / 2 - 1)
    by (replace (size / 2 * 2 - 3 + 2 - 1) with ((size / 2 - 1) * 2) by lia;
        now rewrite Z.div_mul by lia).
  destruct (multiples_loop_ok (Z.to_nat (size / 2 - 1)) [INFJ; Q] 1
              table_ok_init eq_refl ltac:(lia)) as (T & E & HT & Hlen).
  change (2 * Z.of_nat 1 + 1) with 3 in E. rewrite E. cbn [bind].
  destruct (Z.eq_dec (size mod 2) 0) as [H0|H1].
  - rewrite H0. simpl. exists T. split; [reflexivity | split; [exact HT | lia]].
  - replace (size mod 2 =? 0) with false by (symmetry; apply Z.eqb_neq; lia).
    cbn [negb].
    assert (Hh : (size - 1) / 2 = size / 2).
    { replace (size - 1) with (size / 2 * 2) by lia.
      now rewrite Z.div_mul by lia. }
    rewrite Hh.
    destruct (py_index_in T (size / 2) ltac:(lia)) as (h & Hpy & Hnth).
    rewrite Hpy. cbn [bind].
    eexists; split; [reflexivity|]. split.
    + apply (table_ok_double T (Z.to_nat (size / 2))); auto; lia.
    + rewrite length_app; simpl. lia.
Qed.

Lemma multiples_too_low (size : Z) :
  size < 2 -> multiples Q size ec = Raise (ValueError "size too low: ").
Proof.
  intros Hs. unfold multiples.
  now replace (size <? 2) with true by (symmetry; apply Z.ltb_lt; lia).
Qed.

End Tables.

(** ** Multi scalar multiplication: errors and zero scalars *)

Section MultiMultErrors.

Context {al : Alias}.
Variable ec : CurveGroup.

Lemma mult_zero (Q : JacPoint) : _mult 0 Q ec = Ret INFJ.
Proof.
  unfold _mult, _mult_fixed_window.
  change (0 <? 0) with false. change (4 <=? 0) with false. cbv iota.
  destruct (multiples_shape ec Q (2 ^ 4) ltac:(simpl; lia))
    as (T & E & (H0 & _) & _).
  rewrite E. cbn [bind].
  change (convert_number_to_base 0 (2 ^ 4)) with (Ret [0]).
  cbn [bind]. change (py_index [0] 0) with (Ret 0). cbn [bind].
  rewrite (py_index_nth T 0 INFJ) by (simpl; auto; lia).
  reflexivity.
Qed.







End MultiMultErrors.

(** ** The cached fixed-window tables: shape and bounds *)

Lemma digits_value_lower (base : Z) (D : list Z) :
  2 <= base -> Forall (fun d => 0 <= d < base) D -> D <> [] ->
  hd 0 D <> 0 ->
  base ^ (Z.of_nat (length D) - 1) <= digits_value base D.
Proof.
  intros Hb. induction D as [|d D' IH] using rev_ind; intros Hall Hne Hhd.
  - congruence.
  - apply Forall_app in Hall. destruct Hall as [Hall Hd].
    inversion Hd as [|? ? Hdr _]; subst.
    rewrite digits_value_snoc, length_app, Nat2Z.inj_add. simpl Z.of_nat.
    destruct D' as [|d' D''].
    + simpl in *. unfold digits_value; simpl. lia.
    + assert (H1 : base ^ (Z.of_nat (length (d' :: D'')) - 1)
                   <= digits_value base (d' :: D''))
        by (apply IH; [assumption | discriminate | exact Hhd]).
      replace (Z.of_nat (length (d' :: D'')) + 1 - 1)
        with (Z.succ (Z.of_nat (length (d' :: D'')) - 1)) by lia.
      rewrite Z.pow_succ_r by (simpl length; lia). nia.
Qed.

Lemma digits_value_upper (base : Z) (D : list Z) :
  2 <= base -> Forall (fun d => 0 <= d < base) D ->
  0 <= digits_value base D < base ^ Z.of_nat (length D).
Proof.
  intros Hb. induction D as [|d D' IH] using rev_ind; intros Hall.
  - unfold digits_value; simpl. lia.
  - apply Forall_app in Hall. destruct Hall as [Hall Hd].
    inversion Hd as [|? ? Hdr _]; subst.
    specialize (IH Hall).
    rewrite digits_value_snoc, length_app, Nat2Z.inj_add. simpl Z.of_nat.
    rewrite Z.add_1_r, Z.pow_succ_r by lia. nia.
Qed.

Section FixedWindowCached.

Context {al : Alias}.
Variable ec : CurveGroup.

Lemma window_sublist (K : JacPoint) (w : Z) :
  1 <= w ->
  exists s, foldM (multiples_step K ec) (py_range 3 (2 ^ w) 2) [INFJ; K]
            = Ret s
    /\ table_ok ec K s /\ Z.of_nat (length s) = 2 ^ w.
Proof.
  intros Hw. unfold py_range.
  assert (Hpow : 2 ^ w = 2 * 2 ^ (w - 1)).
  { replace w with (Z.succ (w - 1)) at 1 by lia.
    rewrite Z.pow_succ_r by lia. reflexivity. }
  assert (Hpos : 0 < 2 ^ (w - 1)) by (apply Z.pow_pos_nonneg; lia).
  replace ((2 ^ w - 3 + 2 - 1) / 2) with (2 ^ (w - 1) - 1)
    by (rewrite Hpow;
        replace (2 * 2 ^ (w - 1) - 3 + 2 - 1) with ((2 ^ (w - 1) - 1) * 2) by lia;
        now rewrite Z.div_mul by lia).
  destruct (multiples_loop_ok ec K (Z.to_nat (2 ^ (w - 1) - 1)) [INFJ; K] 1
              (table_ok_init ec K) eq_refl ltac:(lia)) as (s & E & Hs & Hlen).
  change (2 * Z.of_nat 1 + 1) with 3 in E.
  exists s. split; [exact E | split; [exact Hs | lia]].
Qed.

Lemma fixwind_step_ok (w : Z) (T : list (list JacPoint)) (K : JacPoint) (i : Z) :
  1 <= w ->
  exists s K', fixwind_step ec w (T, K) i = Ret (T ++ [s], K')
    /\ Z.of_nat (length s) = 2 ^ w.
Proof.
  intros Hw. unfold fixwind_step.
  destruct (window_sublist K w Hw) as (s & E & _ & Hlen).
  rewrite E. cbn [bind].
  assert (Hpos : 0 < 2 ^ (w - 1)) by (apply Z.pow_pos_nonneg; lia).
  assert (Hlt : 2 ^ (w - 1) < 2 ^ w) by (apply Z.pow_lt_mono_r; lia).
  destruct (py_index_in s (2 ^ (w - 1)) ltac:(lia)) as (h & Hpy & _).
  rewrite Hpy. cbn [bind]. eexists _, _. split; [reflexivity | exact Hlen].
Qed.

Lemma fixwind_loop_ok (w : Z) (Hw : 1 <= w) (l : list Z) :
  forall (T : list (list JacPoint)) (K : JacPoint),
  Forall (fun s => Z.of_nat (length s) = 2 ^ w) T ->
  exists T' K', foldM (fixwind_step ec w) l (T, K) = Ret (T', K')
    /\ Forall (fun s => Z.of_nat (length s) = 2 ^ w) T'
    /\ length T' = (length T + length l)%nat.
Proof.
  induction l as [|i l IH]; intros T K HT.
  - exists T, K. simpl. split; [reflexivity | split; [exact HT | lia]].
  - cbn [foldM].
    destruct (fixwind_step_ok w T K i Hw) as (s & K' & E & Hs).
    rewrite E. cbn [bind].
    destruct (IH (T ++ [s]) K') as (T' & K'' & E' & HT' & Hlen').
    { apply Forall_app; split; [exact HT | constructor; [exact Hs | constructor]]. }
    exists T', K''. split; [exact E' | split; [exact HT'|]].
    rewrite Hlen', length_app. simpl. lia.
Qed.

(** The table has (psize*8)//w + 1 sublists of 2^w entries each. *)
Lemma cached_multiples_fixwind_shape (Q : JacPoint) (w : Z) :
  1 <= w -> 0 <= ec.(psize) ->
  exists T, cached_multiples_fixwind Q ec w = Ret T
    /\ Z.of_nat (length T) = ec.(psize) * 8 / w + 1
    /\ Forall (fun s => Z.of_nat (length s) = 2 ^ w) T.
Proof.
  intros Hw Hps. unfold cached_multiples_fixwind.
  replace (w =? 0) with false by (symmetry; apply Z.eqb_neq; lia).
  destruct (fixwind_loop_ok w Hw (py_range 0 (ec.(psize) * 8 / w + 1) 1) [] Q
              (Forall_nil _)) as (T & K & E & HT & Hlen).
  rewrite E. cbn [bind fst]. exists T. split; [reflexivity|]. split; [|exact HT].
  rewrite Hlen, py_range_length_1. simpl length.
  assert (0 <= ec.(psize) * 8 / w) by (apply Z.div_pos; lia). lia.
Qed.

Lemma lookup_digit (w : Z) (digits : list Z) (i : Z) :
  Forall (fun d => 0 <= d < 2 ^ w) digits ->
  0 <= i < Z.of_nat (length digits) ->
  exists d, py_index digits i = Ret d /\ 0 <= d < 2 ^ w.
Proof.
  intros Hall Hi.
  destruct (py_index_in digits i Hi) as (d & Hpy & Hnth).
  exists d. split; [exact Hpy|].
  apply nth_error_In in Hnth.
  exact (proj1 (Forall_forall _ _) Hall d Hnth).
Qed.

Lemma lookup_window (w : Z) (T : list (list JacPoint)) (k d : Z) :
  Forall (fun s => Z.of_nat (length s) = 2 ^ w) T ->
  0 <= k < Z.of_nat (length T) -> 0 <= d < 2 ^ w ->
  exists Tk t, py_index T k = Ret Tk /\ py_index Tk d = Ret t.
Proof.
  intros HT Hk Hd.
  destruct (py_index_in T k Hk) as (Tk & Hpy & Hnth).
  apply nth_error_In in Hnth.
  pose proof (proj1 (Forall_forall _ _) HT Tk Hnth) as Hlen. cbv beta in Hlen.
  destruct (py_index_in Tk d ltac:(lia)) as (t & Hpt & _).
  exists Tk, t. split; assumption.
Qed.

Lemma fixed_window_cached_loop_ok (w : Z) (T : list (list JacPoint))
  (digits : list Z) (n : nat) :
  Forall (fun s => Z.of_nat (length s) = 2 ^ w) T ->
  Forall (fun d => 0 <= d < 2 ^ w) digits ->
  forall (i k : Z) (R : JacPoint),
  0 <= i -> i + Z.of_nat n <= Z.of_nat (length digits) ->
  Z.of_nat n <= k <= Z.of_nat (length T) ->
  exists st, foldM (fixed_window_cached_step ec T digits)
                   (range_from n i 1) (k, R) = Ret st.
Proof.
  intros HT HD. induction n as [|n IH]; intros i k R Hi Hin Hk.
  - eexists. reflexivity.
  - cbn [range_from foldM]. unfold fixed_window_cached_step at 1.
    destruct (lookup_digit w digits i HD ltac:(lia)) as (d & Hd & Hdr).
    destruct (lookup_window w T (k - 1) d HT ltac:(lia) Hdr)
      as (Tk & t & HTk & Ht).
    rewrite HTk. cbn [bind]. rewrite Hd. cbn [bind]. rewrite Ht. cbn [bind].
    apply IH; lia.
Qed.

(** C10. The table of [cached_multiples_fixwind] has exactly
    (psize*8)//w + 1 sublists of 2^w entries each.  For m >= 0 and
    w >= 1, [_mult_fixed_window_cached] returns a point when the number
    of base-2^w digits of m is at most (psize*8)//w + 1, which holds for
    every m < p, and fails with IndexError when m has more digits. *)
Theorem mult_fixed_window_cached_bounds
  (P a b : Z) (Q : JacPoint) (m w : Z) :
  CurveGroup_init P a b = Ret ec -> 0 <= m -> 1 <= w ->
  (exists T, cached_multiples_fixwind Q ec w = Ret T
     /\ Z.of_nat (length T) = ec.(psize) * 8 / w + 1
     /\ Forall (fun s => Z.of_nat (length s) = 2 ^ w) T)
  /\ exists digits, convert_number_to_base m (2 ^ w) = Ret digits
     /\ (Z.of_nat (length digits) <= ec.(psize) * 8 / w + 1 ->
         returns (_mult_fixed_window_cached m Q ec w))
     /\ (ec.(psize) * 8 / w + 1 < Z.of_nat (length digits) ->
         _mult_fixed_window_cached m Q ec w = Raise IndexError)
     /\ (m < ec.(p) ->
         Z.of_nat (length digits) <= ec.(psize) * 8 / w + 1).
Proof.
  intros Hinit Hm Hw.
  (* what the constructor guarantees *)
  assert (Hec : 2 <= ec.(p) /\ ec.(psize) = (bit_length ec.(p) + 7) / 8).
  { unfold CurveGroup_init in Hinit.
    destruct (P <? 2) eqn:E2; [discriminate|]. apply Z.ltb_ge in E2.
    destruct ((false || (P mod 2 =? 0)) || negb (2 ^ (P - 1) mod P =? 1));
      [discriminate|].
    destruct (a <? 0); [discriminate|]. destruct (P <=? a); [discriminate|].
    destruct (b <? 0); [discriminate|]. destruct (P <=? b); [discriminate|].
    destruct (_ =? 0); [discriminate|].
    injection Hinit as <-. simpl. split; [lia | reflexivity]. }
  destruct Hec as [Hp2 Hpsize].
  assert (Hbl : 0 < bit_length ec.(p) /\ ec.(p) < 2 ^ bit_length ec.(p)).
  { unfold bit_length.
    replace (ec.(p) =? 0) with false by (symmetry; apply Z.eqb_neq; lia).
    pose proof (Z.log2_nonneg ec.(p)).
    destruct (Z.log2_spec ec.(p) ltac:(lia)) as [_ H2].
    rewrite <- Z.add_1_r in H2. split; [lia | exact H2]. }
  assert (Hps : 0 <= ec.(psize))
    by (rewrite Hpsize; apply Z.div_pos; lia).
  assert (Hps8 : bit_length ec.(p) <= ec.(psize) * 8).
  { rewrite Hpsize.
    pose proof (Z.div_mod (bit_length ec.(p) + 7) 8 ltac:(lia)).
    pose proof (Z.mod_pos_bound (bit_length ec.(p) + 7) 8 ltac:(lia)). lia. }
  assert (Hb : 2 <= 2 ^ w).
  { change 2 with (2 ^ 1) at 1. apply Z.pow_le_mono_r; lia. }
  destruct (cached_multiples_fixwind_shape Q w Hw Hps) as (T & ET & HlenT & HT).
  split; [exists T; auto|].
  destruct (convert_number_to_base_ok m (2 ^ w) Hm Hb)
    as (digits & ED & Hne & Hall & Hval & Hhd & Hzero).
  exists digits. split; [exact ED|].
  assert (Hlen1 : 1 <= Z.of_nat (length digits))
    by (destruct digits; [congruence | simpl length; lia]).
  unfold _mult_fixed_window_cached.
  replace (m <? 0) with false by (symmetry; apply Z.ltb_ge; lia).
  replace (w <=? 0) with false by (symmetry; apply Z.leb_gt; lia).
  rewrite ET, ED. cbn [bind].
  repeat apply conj.
  - intros Hle.
    destruct (lookup_digit w digits 0 Hall ltac:(lia)) as (d0 & Hd0 & Hd0r).
    destruct (lookup_window w T (Z.of_nat (length digits) - 1) d0 HT
                ltac:(lia) Hd0r) as (Tk & R & HTk & HR).
    rewrite HTk. cbn [bind]. rewrite Hd0. cbn [bind]. rewrite HR. cbn [bind].
    unfold py_range.
    destruct (fixed_window_cached_loop_ok w T digits
                (Z.to_nat ((Z.of_nat (length digits) - 1 + 1 - 1) / 1))
                HT Hall 1 (Z.of_nat (length digits) - 1) R) as (st & Est).
    + lia.
    + rewrite Z.div_1_r. lia.
    + rewrite Z.div_1_r. lia.
    + rewrite Est. cbn [bind]. eexists. reflexivity.
  - intros Hgt. rewrite py_index_out by lia. reflexivity.
  - intros Hmp.
    destruct (Z.eq_dec m 0) as [->|Hnz].
    + rewrite (Hzero eq_refl). simpl length.
      assert (0 <= ec.(psize) * 8 / w) by (apply Z.div_pos; lia). lia.
    + pose proof (digits_value_lower (2 ^ w) digits Hb Hall Hne
                    (Hhd ltac:(lia))) as Hlow.
      rewrite Hval, <- Z.pow_mul_r in Hlow by lia.
      assert (Hexp : w * (Z.of_nat (length digits) - 1) < ec.(psize) * 8).
      { apply (Z.pow_lt_mono_r_iff 2); [lia | lia |].
        assert (2 ^ bit_length ec.(p) <= 2 ^ (ec.(psize) * 8))
          by (apply Z.pow_le_mono_r; lia).
        lia. }
      assert (Z.of_nat (length digits) - 1 <= ec.(psize) * 8 / w).
      { apply Z.div_le_lower_bound; lia. }
      lia.
Qed.

End FixedWindowCached.

Lemma mult_fixed_window_cached_bounds_witness :
  (exists T, @cached_multiples_fixwind alias_on_curve (1, 9, 1) ec13_19 4 = Ret T
     /\ Z.of_nat (length T) = ec13_19.(psize) * 8 / 4 + 1
     /\ Forall (fun s => Z.of_nat (length s) = 2 ^ 4) T)
  /\ exists digits, convert_number_to_base 4096 (2 ^ 4) = Ret digits
     /\ (Z.of_nat (length digits) <= ec13_19.(psize) * 8 / 4 + 1 ->
         returns (@_mult_fixed_window_cached alias_on_curve 4096 (1, 9, 1) ec13_19 4))
     /\ (ec13_19.(psize) * 8 / 4 + 1 < Z.of_nat (length digits) ->
         @_mult_fixed_window_cached alias_on_curve 4096 (1, 9, 1) ec13_19 4
         = Raise IndexError)
     /\ (4096 < ec13_19.(p) ->
         Z.of_nat (length digits) <= ec13_19.(psize) * 8 / 4 + 1).
Proof.
  apply (@mult_fixed_window_cached_bounds alias_on_curve ec13_19 13 0 2
           (1, 9, 1) 4096 4); [reflexivity | lia | lia].
Defined.

(** ** What the constructor guarantees *)

Lemma CurveGroup_init_inv (P a b : Z) (ec : CurveGroup) :
  CurveGroup_init P a b = Ret ec ->
  ec.(p) = P /\ ec.(_a) = a /\ ec.(_b) = b
  /\ 3 <= P /\ P mod 2 = 1 /\ 0 <= a < P /\ 0 <= b < P
  /\ (4 * a * a * a + 27 * b * b) mod P <> 0
  /\ ec.(psize) = (bit_length P + 7) / 8
  /\ ec.(pIsThreeModFour) = (P mod 4 =? 3).
Proof.
  unfold CurveGroup_init. intros H.
  destruct (P <? 2) eqn:E2; [discriminate|]. apply Z.ltb_ge in E2.
  destruct (P mod 2 =? 0) eqn:Em; [discriminate|]. apply Z.eqb_neq in Em.
  destruct (negb (2 ^ (P - 1) mod P =? 1)); [discriminate|]. cbn [orb] in H.
  destruct (a <? 0) eqn:Ea; [discriminate|]. apply Z.ltb_ge in Ea.
  destruct (P <=? a) eqn:Ea'; [discriminate|]. apply Z.leb_gt in Ea'.
  destruct (b <? 0) eqn:Eb; [discriminate|]. apply Z.ltb_ge in Eb.
  destruct (P <=? b) eqn:Eb'; [discriminate|]. apply Z.leb_gt in Eb'.
  destruct (_ =? 0) eqn:Ed; [discriminate|]. apply Z.eqb_neq in Ed.
  injection H as <-. cbn.
  pose proof (Z.mod_pos_bound P 2 ltac:(lia)).
  assert (P <> 2) by (intros ->; apply Em; reflexivity).
  repeat split; auto; lia.
Qed.

Ltac zbool :=
  repeat match goal with
  | |- context [?x =? ?y] =>
      first [ replace (x =? y) with true by (symmetry; apply Z.eqb_eq; lia)
            | replace (x =? y) with false by (symmetry; apply Z.eqb_neq; lia) ]
  | |- context [?x <? ?y] =>
      first [ replace (x <? y) with true by (symmetry; apply Z.ltb_lt; lia)
            | replace (x <? y) with false by (symmetry; apply Z.ltb_ge; lia) ]
  | |- context [?x <=? ?y] =>
      first [ replace (x <=? y) with true by (symmetry; apply Z.leb_le; lia)
            | replace (x <=? y) with false by (symmetry; apply Z.leb_gt; lia) ]
  end.

(** ** Affine identities *)

Section AffineIdentities.

Context {al : Alias}.
Variable ec : CurveGroup.

Lemma is_on_curve_inv (Q : Point) :
  is_on_curve ec Q = Ret true ->
  snd Q = 0 \/ (0 < snd Q < ec.(p)
                /\ _y2 ec (fst Q) = snd Q * snd Q mod ec.(p)).
Proof.
  destruct Q as [x y]. unfold is_on_curve. cbn [fst snd].
  destruct (Z.eqb_spec y 0) as [->|Hy]; [now left|].
  destruct (Z.ltb_spec 0 y); cbn [andb negb]; [|discriminate].
  destruct (Z.ltb_spec y ec.(p)); cbn [negb]; [|discriminate].
  intros Heq. injection Heq as Heq. apply Z.eqb_eq in Heq. right. lia.
Qed.

Lemma mod_inv_one (m : Z) : 2 <= m -> mod_inv 1 m = Ret 1.
Proof.
  intros Hm. unfold mod_inv. rewrite Z.mod_1_l by lia.
  change (1 =? 0) with false. cbv iota.
  rewrite Z.invmod_1_l, Z.mod_1_l by lia. reflexivity.
Qed.

(** C4, as the code has it.  For a curve built by the constructor and an
    affine infinity with y = 0, every point accepted by [is_on_curve]
    satisfies [negate (negate P) = P] and [add P INF = P].  For a finite
    point (y <> 0) and for [INF] itself, [add P (negate P) = INF], and
    the round trip through Jacobian coordinates gives P back when P is
    INF or a finite point with x in [0, p).  For any point with y = 0
    (an encoding of infinity), [add P (negate P)] is P itself and the
    round trip gives INF. *)
Theorem affine_identities (P a b : Z) (Q : Point) :
  CurveGroup_init P a b = Ret ec -> snd INF = 0 ->
  is_on_curve ec Q = Ret true ->
  negate ec (negate ec Q) = Q
  /\ add ec Q INF = Ret Q
  /\ (snd Q <> 0 \/ Q = INF -> add ec Q (negate ec Q) = Ret INF)
  /\ ((snd Q <> 0 /\ 0 <= fst Q < ec.(p)) \/ Q = INF ->
      _aff_from_jac ec (_jac_from_aff Q) = Ret Q)
  /\ (snd Q = 0 ->
      add ec Q (negate ec Q) = Ret Q
      /\ _aff_from_jac ec (_jac_from_aff Q) = Ret INF).
Proof.
  intros Hinit HINF Hon.
  destruct (CurveGroup_init_inv _ _ _ _ Hinit)
    as (Hp & _ & _ & Hp3 & Hodd & _).
  rewrite <- Hp in Hp3, Hodd. clear Hp.
  pose proof (is_on_curve_inv Q Hon) as Hcases.
  assert (HonINF : is_on_curve ec INF = Ret true).
  { destruct INF as [ix iy]. cbn in HINF. subst iy. reflexivity. }
  destruct Q as [x y]. cbn [fst snd] in *.
  assert (Hneg2 : negate ec (negate ec (x, y)) = (x, y)).
  { unfold negate. f_equal.
    destruct Hcases as [->|[Hy _]].
    - rewrite Z.sub_0_r, Z.mod_same, Z.sub_0_r, Z.mod_same by lia. reflexivity.
    - rewrite (Z.mod_small (ec.(p) - y)) by lia.
      replace (ec.(p) - (ec.(p) - y)) with y by lia.
      apply Z.mod_small; lia. }
  assert (Hzero : y = 0 ->
            add ec (x, y) (negate ec (x, y)) = Ret (x, y)
            /\ _aff_from_jac ec (_jac_from_aff (x, y)) = Ret INF).
  { intros ->. split.
    - unfold add, require_on_curve, negate, is_on_curve, _add_aff.
      rewrite Z.sub_0_r, Z.mod_same by lia. reflexivity.
    - reflexivity. }
  split; [exact Hneg2|]. split.
  { unfold add, require_on_curve. rewrite Hon, HonINF. cbn [bind negb].
    unfold _add_aff. destruct INF as [ix iy]. cbn in HINF. subst iy.
    reflexivity. }
  split.
  { intros [Hy|HQ].
    - destruct Hcases as [?|[Hyr Heq]]; [contradiction|].
      unfold add, require_on_curve. rewrite Hon. cbn [bind negb].
      unfold negate. rewrite (Z.mod_small (ec.(p) - y)) by lia.
      unfold is_on_curve. zbool. cbn [andb negb].
      replace ((ec.(p) - y) * (ec.(p) - y))
        with (y * y + (ec.(p) - 2 * y) * ec.(p)) by ring.
      rewrite Z.mod_add by lia. rewrite Heq, Z.eqb_refl. cbn [bind negb].
      pose proof (Z.div_mod ec.(p) 2 ltac:(lia)) as Hdm.
      unfold _add_aff. zbool. reflexivity.
    - assert (Hy0 : y = 0) by (now rewrite <- HINF, <- HQ).
      rewrite (proj1 (Hzero Hy0)). now rewrite HQ. }
  split.
  { intros [[Hy Hx]|HQ].
    - unfold _jac_from_aff, _aff_from_jac. zbool.
      change (1 * 1) with 1. rewrite mod_inv_one by lia. cbn [bind].
      rewrite mod_inv_one by lia. cbn [bind].
      destruct Hcases as [?|[Hyr _]]; [contradiction|].
      rewrite !Z.mul_1_r, (Z.mod_small x), (Z.mod_small y) by lia.
      reflexivity.
    - assert (Hy0 : y = 0) by (now rewrite <- HINF, <- HQ).
      rewrite (proj2 (Hzero Hy0)). now rewrite HQ. }
  exact Hzero.
Qed.

End AffineIdentities.

Lemma affine_identities_witness :
  let Q := (1, 9) in
  negate ec13_19 (negate ec13_19 Q) = Q
  /\ @add alias_spec ec13_19 Q (@INF alias_spec) = Ret Q
  /\ (snd Q <> 0 \/ Q = @INF alias_spec ->
      @add alias_spec ec13_19 Q (negate ec13_19 Q) = Ret (@INF alias_spec))
  /\ ((snd Q <> 0 /\ 0 <= fst Q < ec13_19.(p)) \/ Q = @INF alias_spec ->
      @_aff_from_jac alias_spec ec13_19 (_jac_from_aff Q) = Ret Q)
  /\ (snd Q = 0 ->
      @add alias_spec ec13_19 Q (negate ec13_19 Q) = Ret Q
      /\ @_aff_from_jac alias_spec ec13_19 (_jac_from_aff Q)
         = Ret (@INF alias_spec)).
Proof.
  apply (@affine_identities alias_spec ec13_19 13 0 2 (1, 9));
    reflexivity.
Defined.

(** C4 fails as stated: a point (x, 0) is accepted by [is_on_curve] for
    every x, and the round trip through Jacobian coordinates sends all
    of them to the one constant INF, whatever that constant is. *)
Lemma affine_identities_counterexample :
  ~ (exists al : Alias, forall Q : Point,
       @is_on_curve ec13_19 Q = Ret true ->
       @add al ec13_19 Q (negate ec13_19 Q) = Ret (@INF al)
       /\ @_aff_from_jac al ec13_19 (_jac_from_aff Q) = Ret Q).
Proof.
  intros (al & H).
  destruct (H (5, 0) eq_refl) as [_ H5].
  destruct (H (6, 0) eq_refl) as [_ H6].
  cbn in H5, H6. congruence.
Qed.

(** ** [is_on_curve] and the range of x *)

(** [_y2] reduces its argument: two x-coordinates that differ by a
    multiple of p give the same value. *)
Lemma y2_shift (ec : CurveGroup) (x k : Z) :
  _y2 ec (x + k * ec.(p)) = _y2 ec x.
Proof.
  unfold _y2.
  replace ((((x + k * ec.(p)) ^ 2 + ec.(_a)) * (x + k * ec.(p)) + ec.(_b)))
    with (((x ^ 2 + ec.(_a)) * x + ec.(_b))
          + (k * (3 * x ^ 2 + ec.(_a) + 3 * x * k * ec.(p)
                  + k ^ 2 * ec.(p) ^ 2)) * ec.(p)) by ring.
  destruct (Z.eq_dec ec.(p) 0) as [E|E].
  - rewrite E, !Z.mul_0_r, Z.add_0_r. reflexivity.
  - apply Z.mod_add. exact E.
Qed.

(** [is_on_curve] never looks at the range of x: it answers for x + k*p
    what it answers for x. *)
Lemma is_on_curve_shift (ec : CurveGroup) (x y k : Z) :
  is_on_curve ec (x + k * ec.(p), y) = is_on_curve ec (x, y).
Proof. unfold is_on_curve. now rewrite y2_shift. Qed.

(** C7, the code at the failing input.  On the test curve p = 13,
    a = 0, b = 2 the points (14, 9) and (-12, 9) have a finite y and an
    x outside [0, p); [is_on_curve] evaluates the curve equation and
    answers True, while [y] rejects the same x.  [add] accepts (14, 9)
    and then fails on the sum with its opposite (1, 4), where the
    modular inverse of 1 - 14 does not exist. *)
Theorem is_on_curve_x_out_of_range (al : Alias) (nt : Numbertheory) :
  is_on_curve ec13_19 (14, 9) = Ret true
  /\ is_on_curve ec13_19 (-12, 9) = Ret true
  /\ @y nt ec13_19 14 = Raise (ValueError "x-coordinate not in 0..p-1: ")
  /\ @add al ec13_19 (14, 9) (1, 4) = Raise (ValueError "no inverse")
  /\ @add al ec13_19 (1, 9) (1, 4) = Ret (@INF al).
Proof. repeat split. Qed.

(** * The group of points of a curve over a prime field *)

Module Fp.

Import Ring_polynom InitialRing Ring_theory Field_theory Ring Field.
Import Stdlib.Zmod.ZmodDef.

Section Field.

Variable q : Z.
Hypothesis Hq : Z.prime q.

Local Notation F := (Zmod q) (only parsing).
Definition toF (z : Z) : F := Zmod.of_Z q z.

Lemma toF_morph :
  ring_morph (R:=F) Zmod.zero Zmod.one Zmod.add Zmod.mul Zmod.sub Zmod.opp eq
             0 1 Z.add Z.mul Z.sub Z.opp Z.eqb toF.
Proof.
  constructor; unfold toF; intros.
  - apply ZmodBase.Zmod.of_Z_0.
  - apply ZmodBase.Zmod.of_Z_1.
  - apply ZmodBase.Zmod.of_Z_add.
  - apply ZmodBase.Zmod.of_Z_sub.
  - apply ZmodBase.Zmod.of_Z_mul.
  - apply ZmodBase.Zmod.of_Z_opp.
  - apply Z.eqb_eq in H. now subst.
Qed.

Ltac toF_cst t :=
  match t with
  | toF ?z => match isZcst z with true => z | _ => constr:(NotConstant) end
  | Zmod.of_Z _ ?z => match isZcst z with true => z | _ => constr:(NotConstant) end
  | _ => constr:(NotConstant)
  end.

Add Field Ffield : (ZmodInv.Zmod.field_theory q Hq)
  (morphism toF_morph, constants [toF_cst]).

Declare Scope F_scope.
Local Notation "0" := (Zmod.zero (m:=q)) : F_scope.
Local Notation "1" := (Zmod.one (m:=q)) : F_scope.
Local Infix "+" := Zmod.add : F_scope.
Local Infix "*" := Zmod.mul : F_scope.
Local Infix "-" := Zmod.sub : F_scope.
Local Notation "- x" := (Zmod.opp x) : F_scope.
Local Infix "/" := Zmod.mdiv : F_scope.
Delimit Scope F_scope with F.

(** Ring operations, to write a formula once and read it in F and in a
    ring of polynomials. *)
Record ops (T : Type) : Type := {
  oc : Z -> T;
  oadd : T -> T -> T;
  osub : T -> T -> T;
  omul : T -> T -> T
}.
Arguments oc {T}. Arguments oadd {T}. Arguments osub {T}. Arguments omul {T}.

Definition opsF : ops F :=
  {| oc := toF; oadd := Zmod.add; osub := Zmod.sub; omul := Zmod.mul |}.

(** A computable ring with an evaluation into F. *)
Record rep : Type := {
  car : Type;
  rops : ops car;
  rz : car -> bool;
  ev : car -> F;
  ev_c : forall z, ev (oc rops z) = toF z;
  ev_add : forall u v, ev (oadd rops u v) = (ev u + ev v)%F;
  ev_sub : forall u v, ev (osub rops u v) = (ev u - ev v)%F;
  ev_mul : forall u v, ev (omul rops u v) = (ev u * ev v)%F;
  ev_z : forall u, rz u = true -> ev u = Zmod.zero
}.

(** Polynomials with integer coefficients, evaluated at a list of field
    elements. *)
Definition polops : ops (Pol Z) :=
  {| oc := fun z => Pc z;
     oadd := Padd 0 Z.add Z.eqb;
     osub := Psub 0 Z.add Z.sub Z.opp Z.eqb;
     omul := Pmul 0 1 Z.add Z.mul Z.eqb |}.

Definition polev (l : list F) (P : Pol Z) : F :=
  Pphi Zmod.zero Zmod.add Zmod.mul toF l P.

Definition polz (P : Pol Z) : bool := Peq Z.eqb P (Pc 0).

Lemma F_ARth :
  almost_ring_theory (R:=F) Zmod.zero Zmod.one Zmod.add Zmod.mul Zmod.sub
                     Zmod.opp eq.
Proof.
  apply Rth_ARth.
  - apply Eqsth.
  - apply Eq_ext.
  - apply ZmodBase.Zmod.ring_theory.
Qed.

Definition polrep (l : list F) : rep.
Proof.
  refine {| car := Pol Z; rops := polops; rz := polz; ev := polev l |}.
  - reflexivity.
  - intros u v. unfold polev. cbn [polops oadd].
    apply (Padd_ok (Eqsth F) (Eq_ext _ _ _) F_ARth toF_morph).
  - intros u v. unfold polev. cbn [polops osub].
    apply (Psub_ok (Eqsth F) (Eq_ext _ _ _) F_ARth toF_morph).
  - intros u v. unfold polev. cbn [polops omul].
    apply (Pmul_ok (Eqsth F) (Eq_ext _ _ _) F_ARth toF_morph).
  - intros u Hu. unfold polz in Hu.
    pose proof (Peq_ok (Eqsth F) (Eq_ext _ _ _) toF_morph u (Pc 0) Hu l) as E.
    unfold polev. rewrite E. cbn. apply ZmodBase.Zmod.of_Z_0.
Defined.

Definition polvar (i : positive) : Pol Z := mk_X 0 1 i.

Lemma polev_var (l : list F) (i : positive) :
  polev l (polvar i) = BinList.nth Zmod.zero i l.
Proof.
  symmetry. apply (mkX_ok (Eqsth F) (Eq_ext _ _ _) F_ARth toF_morph).
Qed.

(** The quadratic extension R[y]/(y^2 - f). *)
Section Ext.

Variable R : rep.
Variable f : car R.
Variable y : F.
Hypothesis Hy : (y * y)%F = ev R f.

Definition extops : ops (car R * car R) :=
  let o := rops R in
  {| oc := fun z => (oc o z, oc o 0);
     oadd := fun u v => (oadd o (fst u) (fst v), oadd o (snd u) (snd v));
     osub := fun u v => (osub o (fst u) (fst v), osub o (snd u) (snd v));
     omul := fun u v =>
       (oadd o (omul o (fst u) (fst v)) (omul o f (omul o (snd u) (snd v))),
        oadd o (omul o (fst u) (snd v)) (omul o (snd u) (fst v))) |}.

Definition extev (u : car R * car R) : F :=
  (ev R (fst u) + ev R (snd u) * y)%F.

Definition extz (u : car R * car R) : bool := rz R (fst u) && rz R (snd u).

Definition ext : rep.
Proof.
  refine {| car := (car R * car R)%type; rops := extops; rz := extz;
            ev := extev |}.
  - intros z. unfold extev. cbn [extops oc fst snd].
    rewrite !ev_c. change (toF 0) with (Zmod.of_Z q 0).
    rewrite ZmodBase.Zmod.of_Z_0. ring.
  - intros u v. unfold extev. cbn [extops oadd fst snd].
    rewrite !ev_add. ring.
  - intros u v. unfold extev. cbn [extops osub fst snd].
    rewrite !ev_sub. ring.
  - intros u v. unfold extev. cbn [extops omul fst snd].
    rewrite !ev_add, !ev_mul, <- Hy. ring.
  - intros u Hu. unfold extz in Hu. apply andb_prop in Hu.
    destruct Hu as [H0 H1]. unfold extev.
    rewrite (ev_z R _ H0), (ev_z R _ H1). ring.
Defined.

Definition lift (u : car R) : car R * car R := (u, oc (rops R) 0).
Definition gen : car R * car R := (oc (rops R) 0, oc (rops R) 1).

Lemma ev_lift (u : car R) : ev ext (lift u) = ev R u.
Proof.
  change (ev ext (lift u)) with (extev (lift u)).
  unfold extev, lift. cbn [fst snd]. rewrite ev_c.
  change (toF 0) with (Zmod.of_Z q 0). rewrite ZmodBase.Zmod.of_Z_0. ring.
Qed.

Lemma ev_gen : ev ext gen = y.
Proof.
  change (ev ext gen) with (extev gen).
  unfold extev, gen. cbn [fst snd]. rewrite !ev_c.
  change (toF 0) with (Zmod.of_Z q 0). change (toF 1) with (Zmod.of_Z q 1).
  rewrite ZmodBase.Zmod.of_Z_0, ZmodBase.Zmod.of_Z_1. ring.
Qed.

End Ext.

(** Formulas, over any [ops]. *)
Section Formulas.

Context {T : Type} (o : ops T).
Local Notation "x + y" := (oadd o x y).
Local Notation "x - y" := (osub o x y).
Local Notation "x * y" := (omul o x y).

Definition rhs (a b x : T) : T := (x * x * x + a * x) + b.

Definition jadd (P Q : T * T * T) : T * T * T :=
  let '(X1, Y1, Z1) := P in
  let '(X2, Y2, Z2) := Q in
  let RZ2 := Z2 * Z2 in
  let RZ3 := RZ2 * Z2 in
  let QZ2 := Z1 * Z1 in
  let QZ3 := QZ2 * Z1 in
  let M := X1 * RZ2 in
  let N := X2 * QZ2 in
  let T := Y1 * RZ3 in
  let U := Y2 * QZ3 in
  let W := U - T in
  let V := N - M in
  let V2 := V * V in
  let V3 := V2 * V in
  let MV2 := M * V2 in
  let X := W * W - V3 - oc o 2 * MV2 in
  let Y := W * (MV2 - X) - T * V3 in
  let Z := V * Z1 * Z2 in
  (X, Y, Z).

Definition jdbl (a : T) (P : T * T * T) : T * T * T :=
  let '(X1, Y1, Z1) := P in
  let QZ2 := Z1 * Z1 in
  let QY2 := Y1 * Y1 in
  let W := oc o 3 * X1 * X1 + a * QZ2 * QZ2 in
  let V := oc o 4 * X1 * QY2 in
  let X := W * W - oc o 2 * V in
  let Y := W * (V - X) - oc o 8 * QY2 * QY2 in
  let Z := oc o 2 * Y1 * Z1 in
  (X, Y, Z).

(** Two Jacobian triples name the same point: the cross products. *)
Definition jeqX (P Q : T * T * T) : T :=
  let '(X1, Y1, Z1) := P in
  let '(X2, Y2, Z2) := Q in
  X1 * (Z2 * Z2) - X2 * (Z1 * Z1).

Definition jeqY (P Q : T * T * T) : T :=
  let '(X1, Y1, Z1) := P in
  let '(X2, Y2, Z2) := Q in
  Y1 * (Z2 * Z2 * Z2) - Y2 * (Z1 * Z1 * Z1).

Definition jneg (P : T * T * T) : T * T * T :=
  let '(X1, Y1, Z1) := P in (X1, oc o 0 - Y1, Z1).

(** The Jacobian curve equation, as a residual. *)
Definition jcurve (a b : T) (P : T * T * T) : T :=
  let '(X1, Y1, Z1) := P in
  let Z2 := Z1 * Z1 in
  let Z4 := Z2 * Z2 in
  Y1 * Y1 - (X1 * X1 * X1 + a * X1 * Z4 + b * (Z4 * Z2)).

(** Residual of the tangency lemma: for S = chord(P, Q) with
    x(S) = x(Q), the chord is the tangent at Q. *)
Definition tangency (a : T) (P Q : T * T) : T :=
  let '(x1, y1) := P in
  let '(x2, y2) := Q in
  let d := x2 - x1 in
  (oc o 2 * y2 * (y2 - y1) - (oc o 3 * x2 * x2 + a) * d)
  - ((y2 - y1) * (y2 - y1) - (x1 + oc o 2 * x2) * (d * d)).

End Formulas.

Definition ev3 (R : rep) (P : car R * car R * car R) : F * F * F :=
  let '(X, Y, Z) := P in (ev R X, ev R Y, ev R Z).

Ltac ev_push R :=
  cbn [fst snd]; rewrite ?(ev_add R), ?(ev_sub R), ?(ev_mul R), ?(ev_c R).

Lemma ev_jadd (R : rep) (P Q : car R * car R * car R) :
  ev3 R (jadd (rops R) P Q) = jadd opsF (ev3 R P) (ev3 R Q).
Proof.
  destruct P as [[X1 Y1] Z1], Q as [[X2 Y2] Z2].
  cbv [jadd ev3 opsF oc oadd osub omul].
  repeat rewrite ?(ev_add R), ?(ev_sub R), ?(ev_mul R), ?(ev_c R).
  reflexivity.
Qed.

Lemma ev_jdbl (R : rep) (a : car R) (P : car R * car R * car R) :
  ev3 R (jdbl (rops R) a P) = jdbl opsF (ev R a) (ev3 R P).
Proof.
  destruct P as [[X1 Y1] Z1].
  cbv [jdbl ev3 opsF oc oadd osub omul].
  repeat rewrite ?(ev_add R), ?(ev_sub R), ?(ev_mul R), ?(ev_c R).
  reflexivity.
Qed.

Lemma ev_jeqX (R : rep) (P Q : car R * car R * car R) :
  ev R (jeqX (rops R) P Q) = jeqX opsF (ev3 R P) (ev3 R Q).
Proof.
  destruct P as [[X1 Y1] Z1], Q as [[X2 Y2] Z2].
  cbv [jeqX ev3 opsF oc oadd osub omul].
  repeat rewrite ?(ev_add R), ?(ev_sub R), ?(ev_mul R), ?(ev_c R).
  reflexivity.
Qed.

Lemma ev_jeqY (R : rep) (P Q : car R * car R * car R) :
  ev R (jeqY (rops R) P Q) = jeqY opsF (ev3 R P) (ev3 R Q).
Proof.
  destruct P as [[X1 Y1] Z1], Q as [[X2 Y2] Z2].
  cbv [jeqY ev3 opsF oc oadd osub omul].
  repeat rewrite ?(ev_add R), ?(ev_sub R), ?(ev_mul R), ?(ev_c R).
  reflexivity.
Qed.

Lemma ev_jneg (R : rep) (P : car R * car R * car R) :
  ev3 R (jneg (rops R) P) = jneg opsF (ev3 R P).
Proof.
  destruct P as [[X1 Y1] Z1].
  cbv [jneg ev3 opsF oc oadd osub omul].
  repeat rewrite ?(ev_add R), ?(ev_sub R), ?(ev_mul R), ?(ev_c R).
  reflexivity.
Qed.

Lemma ev_jcurve (R : rep) (a b : car R) (P : car R * car R * car R) :
  ev R (jcurve (rops R) a b P) = jcurve opsF (ev R a) (ev R b) (ev3 R P).
Proof.
  destruct P as [[X1 Y1] Z1].
  cbv [jcurve ev3 opsF oc oadd osub omul].
  repeat rewrite ?(ev_add R), ?(ev_sub R), ?(ev_mul R), ?(ev_c R).
  reflexivity.
Qed.

Lemma ev_tangency (R : rep) (a : car R) (P Q : car R * car R) :
  ev R (tangency (rops R) a P Q)
  = tangency opsF (ev R a) (ev R (fst P), ev R (snd P))
                           (ev R (fst Q), ev R (snd Q)).
Proof.
  destruct P as [x1 y1], Q as [x2 y2].
  cbv [tangency fst snd opsF oc oadd osub omul].
  repeat rewrite ?(ev_add R), ?(ev_sub R), ?(ev_mul R), ?(ev_c R).
  reflexivity.
Qed.

Lemma ev_rhs (R : rep) (a b x : car R) :
  ev R (rhs (rops R) a b x) = rhs opsF (ev R a) (ev R b) (ev R x).
Proof.
  cbv [rhs opsF oc oadd osub omul].
  repeat rewrite ?(ev_add R), ?(ev_sub R), ?(ev_mul R), ?(ev_c R).
  reflexivity.
Qed.

(** The tower for three points on the curve. *)
Section Three.

Variables a b x1 y1 x2 y2 x3 y3 : F.
Hypothesis C1 : (y1 * y1)%F = rhs opsF a b x1.
Hypothesis C2 : (y2 * y2)%F = rhs opsF a b x2.
Hypothesis C3 : (y3 * y3)%F = rhs opsF a b x3.

Definition R0 : rep := polrep [x1; x2; x3; a; b].
Definition vx1 : car R0 := polvar 1.
Definition vx2 : car R0 := polvar 2.
Definition vx3 : car R0 := polvar 3.
Definition va : car R0 := polvar 4.
Definition vb : car R0 := polvar 5.

Lemma ev_var (i : positive) :
  ev R0 (polvar i) = BinList.nth Zmod.zero i [x1; x2; x3; a; b].
Proof. exact (polev_var _ i). Qed.

Lemma ev_vx1 : ev R0 vx1 = x1.
Proof. exact (ev_var 1). Qed.
Lemma ev_vx2 : ev R0 vx2 = x2.
Proof. exact (ev_var 2). Qed.
Lemma ev_vx3 : ev R0 vx3 = x3.
Proof. exact (ev_var 3). Qed.
Lemma ev_va : ev R0 va = a.
Proof. exact (ev_var 4). Qed.
Lemma ev_vb : ev R0 vb = b.
Proof. exact (ev_var 5). Qed.

Lemma curve_eq1 : (y1 * y1)%F = ev R0 (rhs (rops R0) va vb vx1).
Proof. now rewrite ev_rhs, ev_va, ev_vb, ev_vx1. Qed.

Definition R1 : rep := ext R0 (rhs (rops R0) va vb vx1) y1 curve_eq1.

Lemma curve_eq2 : (y2 * y2)%F = ev R1 (lift R0 (rhs (rops R0) va vb vx2)).
Proof.
  unfold R1. now rewrite ev_lift, ev_rhs, ev_va, ev_vb, ev_vx2.
Qed.

Definition R2 : rep := ext R1 (lift R0 (rhs (rops R0) va vb vx2)) y2 curve_eq2.

Lemma curve_eq3 : (y3 * y3)%F
           = ev R2 (lift R1 (lift R0 (rhs (rops R0) va vb vx3))).
Proof.
  unfold R2, R1. now rewrite !ev_lift, ev_rhs, ev_va, ev_vb, ev_vx3.
Qed.

Definition R3 : rep :=
  ext R2 (lift R1 (lift R0 (rhs (rops R0) va vb vx3))) y3 curve_eq3.

Definition up (u : car R0) : car R3 := lift R2 (lift R1 (lift R0 u)).
Definition g1 : car R3 := lift R2 (lift R1 (gen R0)).
Definition g2 : car R3 := lift R2 (gen R1).
Definition g3 : car R3 := gen R2.

Lemma ev_up (u : car R0) : ev R3 (up u) = ev R0 u.
Proof. unfold up, R3, R2, R1. now rewrite !ev_lift. Qed.

Lemma ev_g1 : ev R3 g1 = y1.
Proof. unfold g1, R3, R2, R1. now rewrite !ev_lift, ev_gen. Qed.
Lemma ev_g2 : ev R3 g2 = y2.
Proof. unfold g2, R3, R2. now rewrite !ev_lift, ev_gen. Qed.
Lemma ev_g3 : ev R3 g3 = y3.
Proof. unfold g3, R3. now rewrite ev_gen. Qed.

Definition rP1 : car R3 * car R3 * car R3 := (up vx1, g1, oc (rops R3) 1).
Definition rP2 : car R3 * car R3 * car R3 := (up vx2, g2, oc (rops R3) 1).
Definition rP3 : car R3 * car R3 * car R3 := (up vx3, g3, oc (rops R3) 1).

Lemma ev_rP1 : ev3 R3 rP1 = (x1, y1, toF 1).
Proof. unfold rP1, ev3. now rewrite ev_up, ev_g1, ev_c, ev_vx1. Qed.
Lemma ev_rP2 : ev3 R3 rP2 = (x2, y2, toF 1).
Proof. unfold rP2, ev3. now rewrite ev_up, ev_g2, ev_c, ev_vx2. Qed.
Lemma ev_rP3 : ev3 R3 rP3 = (x3, y3, toF 1).
Proof. unfold rP3, ev3. now rewrite ev_up, ev_g3, ev_c, ev_vx3. Qed.

Lemma ev_ua : ev R3 (up va) = a.
Proof. now rewrite ev_up, ev_va. Qed.
Lemma ev_ub : ev R3 (up vb) = b.
Proof. now rewrite ev_up, ev_vb. Qed.

Local Notation P1 := (x1, y1, toF 1) (only parsing).
Local Notation P2 := (x2, y2, toF 1) (only parsing).
Local Notation P3 := (x3, y3, toF 1) (only parsing).

(** [jsame L R]: both cross products of the two triples vanish. *)
Definition jsame (L R : F * F * F) : Prop :=
  jeqX opsF L R = Zmod.zero /\ jeqY opsF L R = Zmod.zero.

Ltac reflect :=
  rewrite <- ?ev_ua, <- ?ev_ub, <- ?ev_rP1, <- ?ev_rP2, <- ?ev_rP3;
  rewrite <- ?ev_jneg, <- ?ev_jdbl, <- ?ev_jadd;
  rewrite <- ?ev_jneg, <- ?ev_jdbl, <- ?ev_jadd;
  rewrite <- ?ev_jneg, <- ?ev_jdbl, <- ?ev_jadd;
  rewrite <- ?ev_jeqX, <- ?ev_jeqY, <- ?ev_jcurve;
  apply ev_z; vm_compute; reflexivity.

Lemma id_dbl_add :
  jsame (jadd opsF (jdbl opsF a P1) P2) (jadd opsF P1 (jadd opsF P1 P2)).
Proof. split; reflect. Qed.

Lemma id_dbl_dbl :
  jsame (jdbl opsF a (jdbl opsF a P1))
        (jadd opsF P1 (jadd opsF P1 (jdbl opsF a P1))).
Proof. split; reflect. Qed.

Lemma id_dbl_neg :
  jsame (jadd opsF (jdbl opsF a P1) (jneg opsF P1)) P1.
Proof. split; reflect. Qed.

Lemma id_add_neg :
  jsame (jadd opsF (jadd opsF P1 P2) (jneg opsF P2)) P1.
Proof. split; reflect. Qed.

Lemma id_curve_add : jcurve opsF a b (jadd opsF P1 P2) = Zmod.zero.
Proof. reflect. Qed.

Lemma id_curve_dbl : jcurve opsF a b (jdbl opsF a P1) = Zmod.zero.
Proof. reflect. Qed.

Lemma id_tangency : tangency opsF a (x1, y1) (x2, y2) = Zmod.zero.
Proof.
  replace (tangency opsF a (x1, y1) (x2, y2))
    with (ev R3 (tangency (rops R3) (up va) (up vx1, g1) (up vx2, g2))).
  - apply ev_z. vm_compute. reflexivity.
  - rewrite ev_tangency. cbn [fst snd].
    now rewrite ev_ua, !ev_up, ev_vx1, ev_vx2, ev_g1, ev_g2.
Qed.

Lemma assoc_generic_X :
  jeqX opsF
    (jadd opsF (jadd opsF (x1, y1, toF 1) (x2, y2, toF 1)) (x3, y3, toF 1))
    (jadd opsF (x1, y1, toF 1) (jadd opsF (x2, y2, toF 1) (x3, y3, toF 1)))
  = Zmod.zero.
Proof.
  rewrite <- ev_rP1, <- ev_rP2, <- ev_rP3, <- !ev_jadd, <- ev_jeqX.
  apply ev_z.
  vm_compute. reflexivity.
Qed.

Lemma assoc_generic_Y :
  jeqY opsF
    (jadd opsF (jadd opsF (x1, y1, toF 1) (x2, y2, toF 1)) (x3, y3, toF 1))
    (jadd opsF (x1, y1, toF 1) (jadd opsF (x2, y2, toF 1) (x3, y3, toF 1)))
  = Zmod.zero.
Proof.
  rewrite <- ev_rP1, <- ev_rP2, <- ev_rP3, <- !ev_jadd, <- ev_jeqY.
  apply ev_z.
  vm_compute. reflexivity.
Qed.

End Three.

(** ** The group of points *)

Section Group.

Hypothesis Hq3 : 3 < q.
Variables a b : F.

Definition pt : Type := option (F * F).

Definition oncurve (P : pt) : Prop :=
  match P with
  | None => True
  | Some (x, y) => (y * y)%F = rhs opsF a b x
  end.

Definition chord (x1 y1 x2 y2 : F) : F * F :=
  let lam := ((y2 - y1) / (x2 - x1))%F in
  let x3 := (lam * lam - x1 - x2)%F in
  (x3, (lam * (x1 - x3) - y1)%F).

Definition tangent (x1 y1 : F) : F * F :=
  let lam := ((toF 3 * x1 * x1 + a) / (toF 2 * y1))%F in
  let x3 := (lam * lam - x1 - x1)%F in
  (x3, (lam * (x1 - x3) - y1)%F).

Definition padd (P Q : pt) : pt :=
  match P, Q with
  | None, _ => Q
  | _, None => P
  | Some (x1, y1), Some (x2, y2) =>
    if Zmod.eqb x1 x2 then
      if Zmod.eqb y1 y2 then
        if Zmod.eqb y1 Zmod.zero then None else Some (tangent x1 y1)
      else None
    else Some (chord x1 y1 x2 y2)
  end.

Definition pneg (P : pt) : pt :=
  match P with
  | None => None
  | Some (x, y) => Some (x, (- y)%F)
  end.

(** No point of the curve has y = 0. *)
Hypothesis no_y0 : forall x : F, rhs opsF a b x <> Zmod.zero.

Lemma two_nz : toF 2 <> Zmod.zero.
Proof. apply ZmodBase.Zmod.of_Z_nz. rewrite Z.mod_small; lia. Qed.

Lemma three_nz : toF 3 <> Zmod.zero.
Proof. apply ZmodBase.Zmod.of_Z_nz. rewrite Z.mod_small; lia. Qed.

Lemma Fmul_nz (x y : F) : x <> Zmod.zero -> y <> Zmod.zero -> (x * y)%F <> Zmod.zero.
Proof.
  intros Hx Hy H. apply (ZmodInv.Zmod.mul_0_iff_prime Hq) in H. tauto.
Qed.

Lemma Fsub_nz (x y : F) : x <> y -> (x - y)%F <> Zmod.zero.
Proof.
  intros H E. apply H. rewrite <- (ZmodBase.Zmod.sub_eq_0_iff x y). exact E.
Qed.

Lemma Fsub_0 (x y : F) : (x - y)%F = Zmod.zero -> x = y.
Proof. apply ZmodBase.Zmod.sub_eq_0_iff. Qed.

Lemma neg_nz (y : F) : y <> Zmod.zero -> (- y)%F <> Zmod.zero.
Proof.
  intros Hy E. apply Hy. transitivity (- - y)%F; [ring | rewrite E; ring].
Qed.

Ltac fnz :=
  repeat first
    [ assumption
    | split
    | apply Fmul_nz
    | apply neg_nz
    | apply Fsub_nz
    | apply two_nz
    | apply three_nz
    | congruence ].

Lemma oncurve_y_nz (x y : F) : oncurve (Some (x, y)) -> y <> Zmod.zero.
Proof.
  unfold oncurve. intros H Hy. apply (no_y0 x). rewrite <- H, Hy. ring.
Qed.

Lemma Fsquare_eq (u v : F) : (u * u)%F = (v * v)%F -> u = v \/ u = (- v)%F.
Proof.
  intros H.
  assert (E : ((u - v) * (u + v))%F = Zmod.zero)
    by (transitivity (u * u - v * v)%F; [ring | rewrite H; ring]).
  apply (ZmodInv.Zmod.mul_0_iff_prime Hq) in E. destruct E as [E|E].
  - left. now apply ZmodBase.Zmod.sub_eq_0_iff.
  - right. transitivity (u + v - v)%F; [ring | rewrite E; ring].
Qed.

Lemma same_x (x y1 y2 : F) :
  oncurve (Some (x, y1)) -> oncurve (Some (x, y2)) ->
  y2 = y1 \/ y2 = (- y1)%F.
Proof. unfold oncurve. intros H1 H2. apply Fsquare_eq. congruence. Qed.

Lemma neg_ne (y : F) : y <> Zmod.zero -> y <> (- y)%F.
Proof.
  intros Hy E. apply (Fmul_nz _ _ two_nz Hy).
  transitivity (y + y)%F; [ring|]. rewrite E at 1. ring.
Qed.

Lemma padd_chord (x1 y1 x2 y2 : F) :
  x1 <> x2 ->
  padd (Some (x1, y1)) (Some (x2, y2)) = Some (chord x1 y1 x2 y2).
Proof.
  intros H. cbn. destruct (ZmodBase.Zmod.eqb_spec x1 x2); [contradiction|].
  reflexivity.
Qed.

Lemma padd_tangent (x1 y1 : F) :
  y1 <> Zmod.zero ->
  padd (Some (x1, y1)) (Some (x1, y1)) = Some (tangent x1 y1).
Proof.
  intros H. cbn. rewrite !ZmodBase.Zmod.eqb_refl.
  destruct (ZmodBase.Zmod.eqb_spec y1 Zmod.zero); [contradiction|].
  reflexivity.
Qed.

Lemma padd_opp (x1 y1 : F) :
  y1 <> Zmod.zero ->
  padd (Some (x1, y1)) (Some (x1, (- y1)%F)) = None.
Proof.
  intros H. cbn. rewrite ZmodBase.Zmod.eqb_refl.
  destruct (ZmodBase.Zmod.eqb_spec y1 (- y1)%F) as [E|]; [|reflexivity].
  exfalso. exact (neg_ne y1 H E).
Qed.

(** The three ways two finite points of the curve can add. *)
Lemma padd_cases (x1 y1 x2 y2 : F) :
  oncurve (Some (x1, y1)) -> oncurve (Some (x2, y2)) ->
  (x2 = x1 /\ y2 = (- y1)%F
     /\ padd (Some (x1, y1)) (Some (x2, y2)) = None)
  \/ (x2 = x1 /\ y2 = y1
     /\ padd (Some (x1, y1)) (Some (x2, y2)) = Some (tangent x1 y1))
  \/ (x1 <> x2
     /\ padd (Some (x1, y1)) (Some (x2, y2)) = Some (chord x1 y1 x2 y2)).
Proof.
  intros H1 H2.
  pose proof (oncurve_y_nz _ _ H1) as Hy1.
  destruct (ZmodBase.Zmod.eqb_spec x1 x2) as [<-|Hx].
  - destruct (same_x _ _ _ H1 H2) as [->| ->].
    + right; left. auto using padd_tangent.
    + left. auto using padd_opp.
  - right; right. auto using padd_chord.
Qed.

Lemma padd_None_l (P : pt) : padd None P = P.
Proof. reflexivity. Qed.

Lemma padd_None_r (P : pt) : padd P None = P.
Proof. destruct P as [[x y]|]; reflexivity. Qed.

Lemma pneg_pneg (P : pt) : pneg (pneg P) = P.
Proof.
  destruct P as [[x y]|]; [|reflexivity]. cbn [pneg].
  now replace (- - y)%F with y by ring.
Qed.

Lemma oncurve_pneg (P : pt) : oncurve P -> oncurve (pneg P).
Proof.
  destruct P as [[x y]|]; [|trivial]. unfold pneg, oncurve. intros <-. ring.
Qed.

Lemma padd_pneg (P : pt) : oncurve P -> padd P (pneg P) = None.
Proof.
  destruct P as [[x y]|]; [|reflexivity]. intros H.
  apply padd_opp. exact (oncurve_y_nz _ _ H).
Qed.

Lemma chord_comm (x1 y1 x2 y2 : F) :
  x1 <> x2 -> chord x1 y1 x2 y2 = chord x2 y2 x1 y1.
Proof.
  intros H. unfold chord. cbv zeta.
  assert (H12 : (x1 - x2)%F <> Zmod.zero) by now apply Fsub_nz.
  assert (H21 : (x2 - x1)%F <> Zmod.zero) by (apply Fsub_nz; congruence).
  f_equal; field; auto.
Qed.

Lemma padd_comm (P Q : pt) : oncurve P -> oncurve Q -> padd P Q = padd Q P.
Proof.
  destruct P as [[x1 y1]|], Q as [[x2 y2]|]; try reflexivity.
  intros H1 H2.
  destruct (padd_cases _ _ _ _ H1 H2) as [(-> & -> & E)|[(-> & -> & E)|(Hx & E)]].
  - rewrite E. symmetry.
    replace y1 with (- - y1)%F at 2 by ring.
    apply padd_opp. intros E0. apply (oncurve_y_nz _ _ H1).
    transitivity (- - y1)%F; [ring | rewrite E0; ring].
  - reflexivity.
  - rewrite E, padd_chord by congruence. f_equal. now apply chord_comm.
Qed.

(** *** Jacobian triples over F *)

Definition frep (J : F * F * F) (Q : F * F) : Prop :=
  let '(X, Y, Z) := J in
  let '(x, y) := Q in
  Z <> Zmod.zero /\ X = (x * (Z * Z))%F /\ Y = (y * (Z * Z * Z))%F.

Definition aff (Q : F * F) : F * F * F := (fst Q, snd Q, toF 1).

Lemma toF_1 : toF 1 = Zmod.one.
Proof. apply ZmodBase.Zmod.of_Z_1. Qed.

Lemma one_nz : (Zmod.one : F) <> Zmod.zero.
Proof. apply ZmodBase.Zmod.one_neq_zero. lia. Qed.

Lemma frep_aff (Q : F * F) : frep (aff Q) Q.
Proof.
  destruct Q as [x y]. unfold frep, aff. cbn [fst snd]. rewrite toF_1.
  split; [exact one_nz | split; ring].
Qed.

Lemma frep_jadd (J1 J2 : F * F * F) (x1 y1 x2 y2 : F) :
  frep J1 (x1, y1) -> frep J2 (x2, y2) -> x1 <> x2 ->
  frep (jadd opsF J1 J2) (chord x1 y1 x2 y2).
Proof.
  destruct J1 as [[X1 Y1] Z1], J2 as [[X2 Y2] Z2].
  intros (HZ1 & -> & ->) (HZ2 & -> & ->) Hx.
  assert (Hd : (x2 - x1)%F <> Zmod.zero) by (apply Fsub_nz; congruence).
  cbv [frep jadd chord opsF oc oadd osub omul]. split; [|split].
  - replace (((x2 * (Z2 * Z2))%F * (Z1 * Z1) - x1 * (Z1 * Z1) * (Z2 * Z2))
             * Z1 * Z2)%F
      with ((x2 - x1) * (Z1 * Z1 * Z1) * (Z2 * Z2 * Z2))%F by ring.
    auto using Fmul_nz.
  - field. exact Hd.
  - field. exact Hd.
Qed.

Lemma frep_jdbl (J : F * F * F) (x y : F) :
  frep J (x, y) -> y <> Zmod.zero ->
  frep (jdbl opsF a J) (tangent x y).
Proof.
  destruct J as [[X1 Y1] Z1]. intros (HZ1 & -> & ->) Hy.
  pose proof two_nz.
  cbv [frep jdbl tangent opsF oc oadd osub omul]. split; [|split].
  - replace (toF 2 * (y * (Z1 * Z1 * Z1)) * Z1)%F
      with (toF 2 * y * (Z1 * Z1) * (Z1 * Z1))%F by ring.
    auto using Fmul_nz.
  - field. auto.
  - field. auto.
Qed.

Lemma frep_jneg (J : F * F * F) (x y : F) :
  frep J (x, y) -> frep (jneg opsF J) (x, (- y)%F).
Proof.
  destruct J as [[X1 Y1] Z1]. intros (HZ1 & -> & ->).
  cbv [frep jneg opsF oc oadd osub omul]. split; [exact HZ1|].
  split; [reflexivity|]. change (toF 0) with (Zmod.of_Z q 0).
  rewrite ZmodBase.Zmod.of_Z_0. ring.
Qed.

Lemma Fmul_cancel_r (u v w : F) :
  w <> Zmod.zero -> (u * w)%F = (v * w)%F -> u = v.
Proof.
  intros Hw E. apply (ZmodInv.Zmod.mul_cancel_r_prime w u v Hq Hw E).
Qed.

Lemma frep_inj (L R : F * F * F) (A B : F * F) :
  frep L A -> frep R B -> jsame L R -> A = B.
Proof.
  destruct L as [[X1 Y1] Z1], R as [[X2 Y2] Z2], A as [x1 y1], B as [x2 y2].
  intros (HZ1 & -> & ->) (HZ2 & -> & ->) [HX HY].
  cbv [jeqX jeqY opsF oc oadd osub omul] in HX, HY.
  apply Fsub_0 in HX, HY.
  f_equal.
  - apply (Fmul_cancel_r _ _ ((Z1 * Z1) * (Z2 * Z2))%F);
      [auto using Fmul_nz|].
    transitivity (x1 * (Z1 * Z1) * (Z2 * Z2))%F; [ring|].
    rewrite HX. ring.
  - apply (Fmul_cancel_r _ _ ((Z1 * Z1 * Z1) * (Z2 * Z2 * Z2))%F);
      [auto using Fmul_nz|].
    transitivity (y1 * (Z1 * Z1 * Z1) * (Z2 * Z2 * Z2))%F; [ring|].
    rewrite HY. ring.
Qed.

Lemma frep_oncurve (J : F * F * F) (Q : F * F) :
  frep J Q -> jcurve opsF a b J = Zmod.zero -> oncurve (Some Q).
Proof.
  destruct J as [[X1 Y1] Z1], Q as [x y]. intros (HZ1 & -> & ->) H.
  cbv [jcurve opsF oc oadd osub omul] in H.
  apply Fsub_0 in H.
  unfold oncurve. cbv [rhs opsF oc oadd osub omul].
  set (Z6 := ((Z1 * Z1) * (Z1 * Z1) * (Z1 * Z1))%F).
  apply (Fmul_cancel_r _ _ Z6); [unfold Z6; auto using Fmul_nz|].
  transitivity (y * (Z1 * Z1 * Z1) * (y * (Z1 * Z1 * Z1)))%F;
    [unfold Z6; ring|].
  rewrite H. unfold Z6. ring.
Qed.

(** *** Closure *)

Lemma oncurve_rhs (x y : F) : oncurve (Some (x, y)) -> (y * y)%F = rhs opsF a b x.
Proof. trivial. Qed.

Lemma oncurve_chord (x1 y1 x2 y2 : F) :
  oncurve (Some (x1, y1)) -> oncurve (Some (x2, y2)) -> x1 <> x2 ->
  oncurve (Some (chord x1 y1 x2 y2)).
Proof.
  intros H1 H2 Hx.
  apply (frep_oncurve (jadd opsF (aff (x1, y1)) (aff (x2, y2)))).
  - apply frep_jadd; auto using frep_aff.
  - exact (id_curve_add a b x1 y1 x2 y2 x1 y1 H1 H2 H1).
Qed.

Lemma oncurve_tangent (x1 y1 : F) :
  oncurve (Some (x1, y1)) -> oncurve (Some (tangent x1 y1)).
Proof.
  intros H1.
  apply (frep_oncurve (jdbl opsF a (aff (x1, y1)))).
  - apply frep_jdbl; [apply frep_aff | exact (oncurve_y_nz _ _ H1)].
  - exact (id_curve_dbl a b x1 y1 x1 y1 x1 y1 H1 H1 H1).
Qed.

Lemma oncurve_padd (P Q : pt) :
  oncurve P -> oncurve Q -> oncurve (padd P Q).
Proof.
  destruct P as [[x1 y1]|], Q as [[x2 y2]|]; auto.
  intros H1 H2.
  destruct (padd_cases _ _ _ _ H1 H2)
    as [(-> & -> & E)|[(-> & -> & E)|(Hx & E)]]; rewrite E.
  - exact I.
  - now apply oncurve_tangent.
  - now apply oncurve_chord.
Qed.

(** *** Opposites *)

Lemma tangent_neg (x y : F) :
  y <> Zmod.zero ->
  tangent x (- y)%F = (fst (tangent x y), (- snd (tangent x y))%F).
Proof.
  intros Hy. pose proof two_nz. unfold tangent. cbn [fst snd].
  f_equal; field; fnz.
Qed.

Lemma chord_neg (x1 y1 x2 y2 : F) :
  x1 <> x2 ->
  chord x1 (- y1)%F x2 (- y2)%F
  = (fst (chord x1 y1 x2 y2), (- snd (chord x1 y1 x2 y2))%F).
Proof.
  intros Hx.
  assert (Hd : (x2 - x1)%F <> Zmod.zero) by (apply Fsub_nz; congruence).
  unfold chord. cbn [fst snd]. f_equal; field; fnz.
Qed.

Lemma chord_same_x (x1 y1 x2 y2 : F) :
  x1 <> x2 -> fst (chord x1 y1 x2 y2) = x2 ->
  snd (chord x1 y1 x2 y2) = (- y2)%F.
Proof.
  intros Hx.
  assert (Hd : (x2 - x1)%F <> Zmod.zero) by (apply Fsub_nz; congruence).
  unfold chord. cbn [fst snd]. intros ->. field. fnz.
Qed.

Lemma tangent_same_x (x y : F) :
  y <> Zmod.zero -> fst (tangent x y) = x -> snd (tangent x y) = (- y)%F.
Proof.
  intros Hy. pose proof two_nz.
  unfold tangent. cbn [fst snd]. intros ->. field. fnz.
Qed.

Lemma pneg_padd (P Q : pt) :
  oncurve P -> oncurve Q -> pneg (padd P Q) = padd (pneg P) (pneg Q).
Proof.
  destruct P as [[x1 y1]|], Q as [[x2 y2]|]; try reflexivity.
  intros H1 H2. pose proof (oncurve_y_nz _ _ H1) as Hy1.
  destruct (padd_cases _ _ _ _ H1 H2)
    as [(-> & -> & E)|[(-> & -> & E)|(Hx & E)]]; rewrite E; unfold pneg.
  - symmetry. apply padd_opp. now apply neg_nz.
  - rewrite padd_tangent by now apply neg_nz.
    rewrite tangent_neg by assumption. now destruct (tangent x1 y1).
  - rewrite padd_chord by assumption.
    rewrite chord_neg by assumption. now destruct (chord x1 y1 x2 y2).
Qed.

(** *** Cancellation *)

(** When the chord through P and Q meets the curve again at Q, it is
    the tangent at Q. *)
Lemma chord_is_tangent (x1 y1 x2 y2 : F) :
  oncurve (Some (x1, y1)) -> oncurve (Some (x2, y2)) -> x1 <> x2 ->
  fst (chord x1 y1 x2 y2) = x2 ->
  tangent x2 (- y2)%F = (x1, y1).
Proof.
  intros H1 H2 Hx Hfst.
  assert (Hd : (x2 - x1)%F <> Zmod.zero) by (apply Fsub_nz; congruence).
  pose proof (oncurve_y_nz _ _ H2) as Hy2. pose proof two_nz as H2nz.
  pose proof (id_tangency a b x1 y1 x2 y2 x1 y1 H1 H2 H1) as Ht.
  cbv [tangency opsF oc oadd osub omul] in Ht. apply Fsub_0 in Ht.
  unfold chord in Hfst. cbn [fst] in Hfst.
  set (lam := ((y2 - y1) / (x2 - x1))%F) in *.
  assert (Hlam : (lam * (x2 - x1))%F = (y2 - y1)%F)
    by (unfold lam; field; fnz).
  assert (Hsq : (lam * lam)%F = (x1 + toF 2 * x2)%F).
  { transitivity ((lam * lam - x1 - x2) + x1 + x2)%F; [ring|].
    rewrite Hfst. ring. }
  assert (Hz : ((y2 - y1) * (y2 - y1)
                - (x1 + toF 2 * x2) * ((x2 - x1) * (x2 - x1)))%F = Zmod.zero).
  { rewrite <- Hlam, <- Hsq. ring. }
  rewrite Hz in Ht. apply Fsub_0 in Ht.
  assert (Hnum : (toF 3 * x2 * x2 + a)%F = (toF 2 * y2 * lam)%F).
  { apply (Fmul_cancel_r _ _ (x2 - x1)%F Hd).
    rewrite <- Ht. rewrite <- Hlam. ring. }
  unfold tangent. rewrite Hnum. cbv zeta.
  assert (E : (toF 2 * y2 * lam / (toF 2 * - y2))%F = (- lam)%F)
    by (field; fnz).
  rewrite E. f_equal.
  - transitivity (lam * lam - toF 2 * x2)%F; [ring|]. rewrite Hsq. ring.
  - transitivity (lam * (lam * lam) - toF 3 * x2 * lam + y2)%F; [ring|].
    rewrite Hsq.
    transitivity (y2 - lam * (x2 - x1))%F; [ring|].
    rewrite Hlam. ring.
Qed.

Lemma padd_pneg_cancel (P Q : pt) :
  oncurve P -> oncurve Q -> padd (padd P Q) (pneg Q) = P.
Proof.
  destruct P as [[x1 y1]|], Q as [[x2 y2]|]; intros H1 H2.
  - pose proof (oncurve_y_nz _ _ H1) as Hy1.
    pose proof (oncurve_y_nz _ _ H2) as Hy2.
    destruct (padd_cases _ _ _ _ H1 H2)
      as [(-> & -> & E)|[(-> & -> & E)|(Hx & E)]]; rewrite E.
    + cbn [padd pneg]. now replace (- - y1)%F with y1 by ring.
    + pose proof (oncurve_tangent _ _ H1) as HS.
      pose proof (tangent_same_x x1 y1 Hy1) as Hsame.
      pose proof (tangent_neg x1 y1 Hy1) as Hneg.
      pose proof (frep_jdbl _ _ _ (frep_aff (x1, y1)) Hy1) as Hrep.
      destruct (tangent x1 y1) as [xs ys]. cbn [fst snd] in *.
      pose proof (oncurve_pneg _ H1) as HnP. cbn [pneg] in HnP.
      unfold pneg.
      destruct (padd_cases _ _ _ _ HS HnP)
        as [(Ex & Ey & E')|[(Ex & Ey & E')|(Hx' & E')]]; rewrite E'.
      * exfalso. apply (neg_ne y1 Hy1).
        rewrite <- (Hsame (eq_sym Ex)) at 1.
        transitivity (- - y1)%F; [ring | rewrite Ey; ring].
      * subst xs ys. rewrite Hneg. now replace (- - y1)%F with y1 by ring.
      * f_equal.
        apply (frep_inj (jadd opsF (jdbl opsF a (aff (x1, y1)))
                                   (jneg opsF (aff (x1, y1))))
                        (aff (x1, y1))).
        -- apply frep_jadd; [exact Hrep | | exact Hx'].
           apply frep_jneg. apply frep_aff.
        -- apply frep_aff.
        -- exact (id_dbl_neg a b x1 y1 x1 y1 x1 y1 H1 H1 H1).
    + pose proof (oncurve_chord _ _ _ _ H1 H2 Hx) as HS.
      pose proof (chord_same_x x1 y1 x2 y2 Hx) as Hsame.
      pose proof (chord_is_tangent x1 y1 x2 y2 H1 H2 Hx) as Htan.
      pose proof (frep_jadd _ _ _ _ _ _ (frep_aff (x1, y1))
                    (frep_aff (x2, y2)) Hx) as Hrep.
      destruct (chord x1 y1 x2 y2) as [xs ys]. cbn [fst snd] in *.
      pose proof (oncurve_pneg _ H2) as HnQ. cbn [pneg] in HnQ.
      unfold pneg.
      destruct (padd_cases _ _ _ _ HS HnQ)
        as [(Ex & Ey & E')|[(Ex & Ey & E')|(Hx' & E')]]; rewrite E'.
      * exfalso. apply (neg_ne y2 Hy2).
        rewrite <- (Hsame (eq_sym Ex)) at 1.
        transitivity (- - y2)%F; [ring | rewrite Ey; ring].
      * subst xs ys. f_equal. apply Htan. reflexivity.
      * f_equal.
        apply (frep_inj (jadd opsF (jadd opsF (aff (x1, y1)) (aff (x2, y2)))
                                   (jneg opsF (aff (x2, y2))))
                        (aff (x1, y1))).
        -- apply frep_jadd; [exact Hrep | | exact Hx'].
           apply frep_jneg. apply frep_aff.
        -- apply frep_aff.
        -- exact (id_add_neg a b x1 y1 x2 y2 x1 y1 H1 H2 H1).
  - apply padd_None_r.
  - rewrite padd_None_l. now apply padd_pneg.
  - reflexivity.
Qed.

Lemma padd_cancel_r (P P' Q : pt) :
  oncurve P -> oncurve P' -> oncurve Q ->
  padd P Q = padd P' Q -> P = P'.
Proof.
  intros HP HP' HQ E.
  rewrite <- (padd_pneg_cancel P Q), <- (padd_pneg_cancel P' Q) by assumption.
  now rewrite E.
Qed.

Lemma padd_cancel_l (P Q Q' : pt) :
  oncurve P -> oncurve Q -> oncurve Q' ->
  padd P Q = padd P Q' -> Q = Q'.
Proof.
  intros HP HQ HQ' E. apply (padd_cancel_r Q Q' P); auto.
  now rewrite (padd_comm Q P), (padd_comm Q' P).
Qed.

Lemma padd_fixed_r (P Q : pt) :
  oncurve P -> oncurve Q -> padd P Q = Q -> P = None.
Proof.
  intros HP HQ E. apply (padd_cancel_r P None Q); auto. exact I.
Qed.

Lemma padd_fixed_l (P Q : pt) :
  oncurve P -> oncurve Q -> padd P Q = P -> Q = None.
Proof.
  intros HP HQ E. apply (padd_fixed_r Q P); auto.
  now rewrite padd_comm.
Qed.

Lemma padd_None_inv (P Q : pt) :
  oncurve P -> oncurve Q -> padd P Q = None -> Q = pneg P.
Proof.
  intros HP HQ E. pose proof (padd_pneg_cancel P Q HP HQ) as K.
  rewrite E, padd_None_l in K. rewrite <- K. symmetry. apply pneg_pneg.
Qed.

Lemma pneg_ne (x y : F) : oncurve (Some (x, y)) -> pneg (Some (x, y)) <> Some (x, y).
Proof.
  intros H E. cbn [pneg] in E. injection E as E.
  apply (neg_ne y (oncurve_y_nz _ _ H)). now symmetry.
Qed.

(** *** Associativity *)

(** The case where Q + R and P + (Q + R) are chords; the other two sums
    are chords or tangents. *)
Lemma padd_assoc_aux (x1 y1 x2 y2 x3 y3 : F) :
  oncurve (Some (x1, y1)) -> oncurve (Some (x2, y2)) ->
  oncurve (Some (x3, y3)) ->
  x2 <> x3 -> fst (chord x2 y2 x3 y3) <> x1 ->
  padd (Some (x1, y1)) (Some (x2, y2)) <> None ->
  padd (padd (Some (x1, y1)) (Some (x2, y2))) (Some (x3, y3)) <> None ->
  (x1 <> x2 -> padd (Some (x1, y1)) (Some (x2, y2)) <> Some (x3, y3)) ->
  padd (padd (Some (x1, y1)) (Some (x2, y2))) (Some (x3, y3))
  = padd (Some (x1, y1)) (padd (Some (x2, y2)) (Some (x3, y3))).
Proof.
  intros H1 H2 H3 H23 H1T HS HL Hbad.
  pose proof (oncurve_y_nz _ _ H1) as Hy1.
  rewrite (padd_chord x2 y2 x3 y3 H23).
  (* the right-hand side, for any Jacobian form J3 of R *)
  assert (HM : forall J3, frep J3 (x3, y3) ->
            exists m, padd (Some (x1, y1)) (Some (chord x2 y2 x3 y3)) = Some m
              /\ frep (jadd opsF (aff (x1, y1)) (jadd opsF (aff (x2, y2)) J3)) m).
  { intros J3 HJ3.
    pose proof (frep_jadd _ _ _ _ _ _ (frep_aff (x2, y2)) HJ3 H23) as HT.
    destruct (chord x2 y2 x3 y3) as [xt yt]. cbn [fst] in H1T.
    exists (chord x1 y1 xt yt). split.
    - apply padd_chord. congruence.
    - apply frep_jadd; [apply frep_aff | exact HT | congruence]. }
  destruct (padd_cases _ _ _ _ H1 H2)
    as [(-> & -> & E)|[(-> & -> & E)|(Hx & E)]]; [congruence| |].
  - (* Q = P *)
    rewrite E in HL |- *.
    pose proof (oncurve_tangent _ _ H1) as HSc.
    pose proof (frep_jdbl _ _ _ (frep_aff (x1, y1)) Hy1) as HSr.
    destruct (tangent x1 y1) as [xs ys].
    destruct (padd_cases _ _ _ _ HSc H3)
      as [(-> & -> & E')|[(-> & -> & E')|(Hx' & E')]]; [congruence| |].
    + (* R = S *)
      rewrite E'.
      destruct (HM _ HSr) as (m & Em & Hm). rewrite Em. f_equal.
      apply (frep_inj _ _ _ _
               (frep_jdbl _ _ _ HSr (oncurve_y_nz _ _ HSc)) Hm).
      exact (id_dbl_dbl a b x1 y1 x1 y1 x1 y1 H1 H1 H1).
    + rewrite E'.
      destruct (HM _ (frep_aff (x3, y3))) as (m & Em & Hm). rewrite Em. f_equal.
      apply (frep_inj _ _ _ _
               (frep_jadd _ _ _ _ _ _ HSr (frep_aff (x3, y3)) Hx') Hm).
      exact (id_dbl_add a b x1 y1 x3 y3 x1 y1 H1 H3 H1).
  - rewrite E in HL |- *.
    pose proof (oncurve_chord _ _ _ _ H1 H2 Hx) as HSc.
    pose proof (frep_jadd _ _ _ _ _ _ (frep_aff (x1, y1))
                  (frep_aff (x2, y2)) Hx) as HSr.
    destruct (chord x1 y1 x2 y2) as [xs ys].
    destruct (padd_cases _ _ _ _ HSc H3)
      as [(-> & -> & E')|[(-> & -> & E')|(Hx' & E')]]; [congruence| |].
    + exfalso. exact (Hbad Hx E).
    + rewrite E'.
      destruct (HM _ (frep_aff (x3, y3))) as (m & Em & Hm). rewrite Em. f_equal.
      apply (frep_inj _ _ _ _
               (frep_jadd _ _ _ _ _ _ HSr (frep_aff (x3, y3)) Hx') Hm).
      split.
      * exact (assoc_generic_X a b x1 y1 x2 y2 x3 y3 H1 H2 H3).
      * exact (assoc_generic_Y a b x1 y1 x2 y2 x3 y3 H1 H2 H3).
Qed.

(** The remaining case, R = P + Q, follows from the doubling case and
    cancellation. *)
Lemma padd_assoc_sum (P Q R : pt) (x1 y1 x2 y2 x3 y3 : F) :
  P = Some (x1, y1) -> Q = Some (x2, y2) -> R = Some (x3, y3) ->
  oncurve P -> oncurve Q -> oncurve R ->
  x2 <> x3 -> padd P Q = R -> padd R R <> None ->
  padd R R = padd P (padd Q R).
Proof.
  intros EP EQ ER H1 H2 H3 H23 ES HL.
  assert (A1 : padd R (pneg P) = Q).
  { rewrite <- ES, (padd_comm P Q) by auto. now apply padd_pneg_cancel. }
  assert (HnP : oncurve (pneg P)) by now apply oncurve_pneg.
  assert (H1' : oncurve (Some (x1, y1))) by now rewrite <- EP.
  assert (H3' : oncurve (Some (x3, y3))) by now rewrite <- ER.
  assert (Hback : forall U, oncurve U -> padd P (padd U (pneg P)) = U).
  { intros U HU. rewrite (padd_comm P) by auto using oncurve_padd.
    transitivity (padd (padd U (pneg P)) (pneg (pneg P)));
      [now rewrite pneg_pneg | now apply padd_pneg_cancel]. }
  destruct (ZmodBase.Zmod.eqb_spec x3 x1) as [E31|H31].
  - subst x3.
    destruct (same_x _ _ _ H1' H3') as [Ey|Ey]; subst y3.
    + exfalso. assert (ERP : R = P) by congruence.
      rewrite ERP in ES. apply padd_fixed_l in ES; auto. congruence.
    + assert (ERn : R = pneg P) by (now rewrite ER, EP).
      rewrite ERn in A1 |- *. rewrite A1. symmetry. now apply Hback.
  - assert (A2 : padd (padd R R) (pneg P) = padd R (padd R (pneg P))).
    { assert (EnP : pneg P = Some (x1, (- y1)%F)) by now rewrite EP.
      rewrite EnP in *. rewrite ER in *.
      apply padd_assoc_aux; auto.
      - rewrite padd_chord in A1 by assumption.
        rewrite EQ in A1.
        assert (A1' : chord x3 y3 x1 (- y1)%F = (x2, y2)) by congruence.
        rewrite A1'. cbn [fst]. congruence.
      - intros E0.
        apply padd_None_inv in E0; auto using oncurve_padd.
        rewrite <- ER, <- EnP in *.
        assert (E1 : padd R R = P).
        { rewrite <- (pneg_pneg (padd R R)), <- E0. apply pneg_pneg. }
        assert (E2 : R = pneg Q).
        { pose proof (padd_pneg_cancel R R H3 H3) as K.
          rewrite E1 in K. rewrite <- K.
          rewrite <- ES at 1. rewrite pneg_padd by assumption.
          rewrite (padd_comm (pneg P)) by auto using oncurve_pneg.
          apply Hback. auto using oncurve_pneg. }
        rewrite ER, EQ in E2. cbn [pneg] in E2. congruence. }
    rewrite A1 in A2.
    transitivity (padd (padd (padd R R) (pneg P)) (pneg (pneg P)));
      [symmetry; apply padd_pneg_cancel; auto using oncurve_padd|].
    rewrite A2, pneg_pneg.
    rewrite (padd_comm R Q), (padd_comm (padd Q R) P);
      auto using oncurve_padd.
Qed.

Lemma padd_assoc_main (x1 y1 x2 y2 x3 y3 : F) :
  oncurve (Some (x1, y1)) -> oncurve (Some (x2, y2)) ->
  oncurve (Some (x3, y3)) ->
  x2 <> x3 -> fst (chord x2 y2 x3 y3) <> x1 ->
  padd (Some (x1, y1)) (Some (x2, y2)) <> None ->
  padd (padd (Some (x1, y1)) (Some (x2, y2))) (Some (x3, y3)) <> None ->
  padd (padd (Some (x1, y1)) (Some (x2, y2))) (Some (x3, y3))
  = padd (Some (x1, y1)) (padd (Some (x2, y2)) (Some (x3, y3))).
Proof.
  intros H1 H2 H3 H23 H1T HS HL.
  destruct (padd (Some (x1, y1)) (Some (x2, y2))) as [[xs ys]|] eqn:ES;
    [|congruence].
  destruct (ZmodBase.Zmod.eqb_spec xs x3) as [Ex|Hx];
    [destruct (ZmodBase.Zmod.eqb_spec ys y3) as [Ey|Hy]|].
  - subst xs ys.
    apply (padd_assoc_sum _ _ _ x1 y1 x2 y2 x3 y3); auto.
  - rewrite <- ES. apply padd_assoc_aux; auto; rewrite ES; congruence.
  - rewrite <- ES. apply padd_assoc_aux; auto; rewrite ES; congruence.
Qed.

Lemma padd_assoc_fin (x1 y1 x2 y2 x3 y3 : F) :
  let P := Some (x1, y1) in
  let Q := Some (x2, y2) in
  let R := Some (x3, y3) in
  oncurve P -> oncurve Q -> oncurve R ->
  padd P Q <> None -> padd Q R <> None ->
  padd (padd P Q) R <> None -> padd P (padd Q R) <> None ->
  padd (padd P Q) R = padd P (padd Q R).
Proof.
  intros P Q R H1 H2 H3 HS HT HL HM.
  pose proof (oncurve_padd P Q H1 H2) as HSc.
  pose proof (oncurve_padd Q R H2 H3) as HTc.
  destruct (padd_cases _ _ _ _ H2 H3)
    as [(Ex & Ey & E)|[(Ex & Ey & E)|(H23 & E)]].
  - contradiction.
  - (* R = Q *)
    subst x3 y3. change R with Q in *. clear R.
    destruct (padd_cases _ _ _ _ H1 H2)
      as [(Ex & Ey & E')|[(Ex & Ey & E')|(H12 & E')]].
    + contradiction.
    + subst x2 y2. apply padd_comm; assumption.
    + (* (Q + Q) + P = Q + (Q + P) *)
      assert (Hmain : padd (padd Q Q) P = padd Q (padd Q P)).
      { apply padd_assoc_main; auto.
        - intros Efst.
          assert (ES : padd P Q = Q \/ padd P Q = pneg Q).
          { rewrite (padd_comm P Q) by auto. unfold P, Q.
            rewrite (padd_chord x2 y2 x1 y1) by auto.
            pose proof (oncurve_chord _ _ _ _ H2 H1 ltac:(congruence)) as Hc.
            destruct (chord x2 y2 x1 y1) as [xs ys]. cbn [fst] in Efst.
            subst xs. destruct (same_x _ _ _ H2 Hc) as [->| ->]; auto. }
          destruct ES as [ES|ES].
          + apply padd_fixed_r in ES; auto. discriminate.
          + apply HL. fold Q. rewrite ES, (padd_comm (pneg Q) Q);
              auto using padd_pneg, oncurve_pneg.
        - fold P Q. rewrite (padd_comm (padd Q Q) P); auto. }
      rewrite (padd_comm (padd P Q) Q), (padd_comm P Q) by auto.
      rewrite <- Hmain. apply padd_comm; auto.
  - (* Q + R is a chord *)
    destruct (ZmodBase.Zmod.eqb_spec (fst (chord x2 y2 x3 y3)) x1) as [Efst|Hne].
    + (* P = Q + R *)
      assert (ET : padd Q R = P).
      { unfold P, Q, R in *. rewrite E. rewrite E in HTc, HM.
        destruct (chord x2 y2 x3 y3) as [xt yt]. cbn [fst] in Efst. subst xt.
        destruct (same_x _ _ _ H1 HTc) as [->| ->]; [reflexivity|].
        exfalso. apply HM. apply padd_opp. exact (oncurve_y_nz _ _ H1). }
      assert (H21 : x2 <> x1).
      { intros ->. destruct (same_x _ _ _ H1 H2) as [->| ->].
        - fold P in ET. replace Q with P in ET by reflexivity.
          apply padd_fixed_l in ET; auto. discriminate.
        - apply HS. apply padd_opp. exact (oncurve_y_nz _ _ H1). }
      assert (Hmain : padd (padd R Q) P = padd R (padd Q P)).
      { apply padd_assoc_main; auto.
        - intros Efst'.
          assert (ES : padd P Q = R \/ padd P Q = pneg R).
          { rewrite (padd_comm P Q) by auto. unfold P, Q.
            rewrite (padd_chord x2 y2 x1 y1) by auto.
            pose proof (oncurve_chord _ _ _ _ H2 H1 H21) as Hc.
            destruct (chord x2 y2 x1 y1) as [xs ys]. cbn [fst] in Efst'.
            subst xs. destruct (same_x _ _ _ H3 Hc) as [->| ->]; auto. }
          destruct ES as [ES|ES].
          + (* S = R and P = Q + R *)
            apply (pneg_ne x2 y2 H2). fold Q.
            apply (padd_cancel_l (padd R Q) (pneg Q) Q);
              auto using oncurve_padd, oncurve_pneg.
            rewrite padd_pneg_cancel by auto.
            rewrite (padd_comm R Q), ET by auto. symmetry. exact ES.
          + apply HL. rewrite ES, (padd_comm (pneg R) R);
              auto using padd_pneg, oncurve_pneg.
        - fold P Q R. rewrite (padd_comm R Q); auto.
        - fold P Q R. rewrite (padd_comm R Q), (padd_comm (padd Q R) P); auto. }
      rewrite (padd_comm (padd P Q) R), (padd_comm P Q) by auto.
      rewrite <- Hmain.
      rewrite (padd_comm R Q) by auto. apply padd_comm; auto.
    + apply padd_assoc_main; auto.
Qed.

Theorem padd_assoc (P Q R : pt) :
  oncurve P -> oncurve Q -> oncurve R ->
  padd (padd P Q) R = padd P (padd Q R).
Proof.
  intros H1 H2 H3.
  destruct P as [[x1 y1]|]; [|reflexivity].
  destruct Q as [[x2 y2]|]; [|now rewrite padd_None_r, padd_None_l].
  destruct R as [[x3 y3]|]; [|now rewrite !padd_None_r].
  set (P := Some (x1, y1)) in *. set (Q := Some (x2, y2)) in *.
  set (R := Some (x3, y3)) in *.
  pose proof (oncurve_padd P Q H1 H2) as HSc.
  pose proof (oncurve_padd Q R H2 H3) as HTc.
  destruct (padd P Q) as [s|] eqn:ES.
  2:{ (* Q = -P *)
    apply padd_None_inv in ES; auto. rewrite ES, padd_None_l.
    rewrite (padd_comm (pneg P) R), (padd_comm P) by
      auto using oncurve_pneg, oncurve_padd.
    rewrite <- (pneg_pneg P) at 2.
    symmetry. apply padd_pneg_cancel; auto using oncurve_pneg. }
  destruct (padd Q R) as [t|] eqn:ET.
  2:{ apply padd_None_inv in ET; auto. rewrite ET, padd_None_r, <- ES.
    apply padd_pneg_cancel; auto. }
  destruct (padd (Some s) R) as [l|] eqn:EL.
  2:{ apply padd_None_inv in EL; auto.
    rewrite <- ES, pneg_padd in EL by auto.
    assert (E : Some t = pneg P).
    { rewrite <- ET, EL.
      rewrite (padd_comm Q) by auto using oncurve_pneg, oncurve_padd.
      rewrite <- (pneg_pneg Q) at 2.
      apply padd_pneg_cancel; auto using oncurve_pneg. }
    rewrite E. symmetry. apply padd_pneg; auto. }
  destruct (padd P (Some t)) as [m|] eqn:EM.
  2:{ apply padd_None_inv in EM; auto.
    assert (E : R = pneg (Some s)).
    { rewrite <- ES, pneg_padd by auto. rewrite <- EM, <- ET.
      rewrite (padd_comm Q R) by auto. symmetry.
      apply padd_pneg_cancel; auto. }
    rewrite <- EL, E. apply padd_pneg; auto. }
  rewrite <- EL, <- EM, <- ES, <- ET.
  apply padd_assoc_fin; auto; fold P Q R; congruence.
Qed.

(** *** Scalar multiples *)

Definition pmul (n : Z) (P : pt) : pt := Nat.iter (Z.to_nat n) (padd P) None.

Lemma pmul_0 (P : pt) : pmul 0 P = None.
Proof. reflexivity. Qed.

Lemma pmul_succ (n : Z) (P : pt) : 0 <= n -> pmul (n + 1) P = padd P (pmul n P).
Proof.
  intros Hn. unfold pmul. rewrite Z2Nat.inj_add by lia.
  rewrite Nat.add_comm. reflexivity.
Qed.

Lemma pmul_1 (P : pt) : pmul 1 P = P.
Proof. apply padd_None_r. Qed.

Lemma pmul_None (n : Z) : pmul n None = None.
Proof. unfold pmul. induction (Z.to_nat n); cbn; auto. Qed.

Lemma oncurve_pmul (n : Z) (P : pt) : oncurve P -> oncurve (pmul n P).
Proof.
  intros H. unfold pmul. induction (Z.to_nat n); cbn [Nat.iter].
  - exact I.
  - now apply oncurve_padd.
Qed.

Lemma pmul_add (n m : Z) (P : pt) :
  oncurve P -> 0 <= n -> 0 <= m ->
  pmul (n + m) P = padd (pmul n P) (pmul m P).
Proof.
  intros H Hn Hm. revert n Hn. apply natlike_ind.
  - now rewrite pmul_0, padd_None_l.
  - intros n Hn IH. replace (Z.succ n + m) with ((n + m) + 1) by lia.
    unfold Z.succ. rewrite !pmul_succ, IH by lia.
    symmetry. apply padd_assoc; auto using oncurve_pmul.
Qed.


Lemma pmul_mul (n m : Z) (P : pt) :
  oncurve P -> 0 <= n -> 0 <= m ->
  pmul (n * m) P = pmul n (pmul m P).
Proof.
  intros H Hn Hm. revert n Hn. apply natlike_ind.
  - reflexivity.
  - intros n Hn IH. replace (Z.succ n * m) with (m + n * m) by lia.
    unfold Z.succ. rewrite pmul_succ, pmul_add, IH by (auto; nia).
    reflexivity.
Qed.

Lemma padd_swap4 (A B C D : pt) :
  oncurve A -> oncurve B -> oncurve C -> oncurve D ->
  padd (padd A B) (padd C D) = padd (padd A C) (padd B D).
Proof.
  intros HA HB HC HD.
  rewrite (padd_assoc A B), (padd_assoc A C) by auto using oncurve_padd.
  f_equal.
  rewrite <- (padd_assoc B C), <- (padd_assoc C B) by auto.
  f_equal. now apply padd_comm.
Qed.

Lemma pmul_padd (n : Z) (P Q : pt) :
  oncurve P -> oncurve Q -> 0 <= n ->
  pmul n (padd P Q) = padd (pmul n P) (pmul n Q).
Proof.
  intros HP HQ Hn. revert n Hn. apply natlike_ind.
  - reflexivity.
  - intros n Hn IH. unfold Z.succ. rewrite !pmul_succ, IH by lia.
    apply padd_swap4; auto using oncurve_pmul.
Qed.

(** *** Jacobian triples, with the points at infinity *)

(** A triple with Z = 0 names the point at infinity; the operations of
    the code keep X and Y of such a triple from vanishing together. *)
Definition jrepF (J : F * F * F) (P : pt) : Prop :=
  match P with
  | None =>
    let '(X, Y, Z) := J in
    Z = Zmod.zero /\ (X <> Zmod.zero \/ Y <> Zmod.zero)
  | Some Q => frep J Q
  end.

Lemma frep_same (J1 J2 : F * F * F) (x1 y1 x2 y2 : F) :
  frep J1 (x1, y1) -> frep J2 (x2, y2) ->
  (jeqX opsF J1 J2 = Zmod.zero <-> x1 = x2)
  /\ (jeqY opsF J1 J2 = Zmod.zero <-> y1 = y2).
Proof.
  destruct J1 as [[X1 Y1] Z1], J2 as [[X2 Y2] Z2].
  intros (HZ1 & -> & ->) (HZ2 & -> & ->).
  cbv [jeqX jeqY opsF oc oadd osub omul]. split; split.
  - intros H. apply Fsub_0 in H.
    apply (Fmul_cancel_r _ _ ((Z1 * Z1) * (Z2 * Z2))%F);
      [auto using Fmul_nz|].
    transitivity (x1 * (Z1 * Z1) * (Z2 * Z2))%F; [ring|].
    rewrite H. ring.
  - intros ->. ring.
  - intros H. apply Fsub_0 in H.
    apply (Fmul_cancel_r _ _ ((Z1 * Z1 * Z1) * (Z2 * Z2 * Z2))%F);
      [auto using Fmul_nz|].
    transitivity (y1 * (Z1 * Z1 * Z1) * (Z2 * Z2 * Z2))%F; [ring|].
    rewrite H. ring.
  - intros ->. ring.
Qed.

Lemma jrepF_jdbl (J : F * F * F) (P : pt) :
  oncurve P -> jrepF J P -> jrepF (jdbl opsF a J) (padd P P).
Proof.
  destruct P as [[x y]|]; intros HP HJ.
  - pose proof (oncurve_y_nz _ _ HP) as Hy.
    rewrite padd_tangent by assumption. now apply frep_jdbl.
  - destruct J as [[X Y] Z]. destruct HJ as [-> HXY].
    pose proof two_nz. pose proof three_nz.
    cbn [padd jrepF]. cbv [jdbl opsF oc oadd osub omul].
    split; [ring|].
    set (W := (toF 3 * X * X + a * (Zmod.zero * Zmod.zero)
                               * (Zmod.zero * Zmod.zero))%F).
    set (V := (toF 4 * X * (Y * Y))%F).
    set (X' := (W * W - toF 2 * V)%F).
    set (Y' := (W * (V - X') - toF 8 * (Y * Y) * (Y * Y))%F).
    destruct (ZmodBase.Zmod.eqb_spec X Zmod.zero) as [EX|NX];
      destruct (ZmodBase.Zmod.eqb_spec Y Zmod.zero) as [EY|NY].
    + tauto.
    + right. replace Y' with (- (toF 2 * toF 2 * toF 2 * (Y * Y * (Y * Y))))%F
        by (subst Y' X' V W; rewrite EX; ring).
      fnz.
    + left. replace X' with (toF 3 * toF 3 * (X * X * (X * X)))%F
        by (subst X' V W; rewrite EY; ring).
      fnz.
    + destruct (ZmodBase.Zmod.eqb_spec X' Zmod.zero) as [EX'|NX'];
        [right|now left].
      intros EY'.
      assert (E : (toF 3 * (X * X * (X * X)) * (Y * Y))%F = Zmod.zero).
      { transitivity (X * Y' - X' * (Y * Y - toF 3 * X * X * X))%F;
          [subst Y' X' V W; ring | rewrite EX', EY'; ring]. }
      revert E. fnz.
Qed.

Lemma jrepF_jadd_opp (J1 J2 : F * F * F) (x y1 y2 : F) :
  frep J1 (x, y1) -> frep J2 (x, y2) -> y1 <> y2 ->
  jrepF (jadd opsF J1 J2) None.
Proof.
  destruct J1 as [[X1 Y1] Z1], J2 as [[X2 Y2] Z2].
  intros (HZ1 & -> & ->) (HZ2 & -> & ->) Hy.
  cbv [jrepF jadd opsF oc oadd osub omul]. split; [ring|left].
  match goal with |- ?t <> _ =>
    replace t with (((y2 - y1) * (Z1 * Z1 * Z1) * (Z2 * Z2 * Z2))
                    * ((y2 - y1) * (Z1 * Z1 * Z1) * (Z2 * Z2 * Z2)))%F by ring
  end.
  assert ((y2 - y1)%F <> Zmod.zero) by (apply Fsub_nz; congruence).
  fnz.
Qed.

Lemma jeq_inf_l (X1 Y1 X2 Y2 Z2 : F) :
  Z2 <> Zmod.zero -> X1 <> Zmod.zero \/ Y1 <> Zmod.zero ->
  ~ (jeqX opsF (X1, Y1, Zmod.zero) (X2, Y2, Z2) = Zmod.zero
     /\ jeqY opsF (X1, Y1, Zmod.zero) (X2, Y2, Z2) = Zmod.zero).
Proof.
  intros HZ HXY. cbv [jeqX jeqY opsF oc oadd osub omul]. intros [HX HY].
  destruct HXY as [H|H]; apply H.
  - apply (Fmul_cancel_r _ _ (Z2 * Z2)%F); [auto using Fmul_nz|].
    transitivity (X1 * (Z2 * Z2) - X2 * (Zmod.zero * Zmod.zero))%F;
      [ring | rewrite HX; ring].
  - apply (Fmul_cancel_r _ _ (Z2 * Z2 * Z2)%F); [auto using Fmul_nz|].
    transitivity (Y1 * (Z2 * Z2 * Z2)
                  - Y2 * (Zmod.zero * Zmod.zero * Zmod.zero))%F;
      [ring | rewrite HY; ring].
Qed.

Lemma jeq_inf_r (X1 Y1 Z1 X2 Y2 : F) :
  Z1 <> Zmod.zero -> X2 <> Zmod.zero \/ Y2 <> Zmod.zero ->
  ~ (jeqX opsF (X1, Y1, Z1) (X2, Y2, Zmod.zero) = Zmod.zero
     /\ jeqY opsF (X1, Y1, Z1) (X2, Y2, Zmod.zero) = Zmod.zero).
Proof.
  intros HZ HXY. cbv [jeqX jeqY opsF oc oadd osub omul]. intros [HX HY].
  destruct HXY as [H|H]; apply H.
  - apply (Fmul_cancel_r _ _ (Z1 * Z1)%F); [auto using Fmul_nz|].
    transitivity (- (X1 * (Zmod.zero * Zmod.zero) - X2 * (Z1 * Z1)))%F;
      [ring | rewrite HX; ring].
  - apply (Fmul_cancel_r _ _ (Z1 * Z1 * Z1)%F); [auto using Fmul_nz|].
    transitivity (- (Y1 * (Zmod.zero * Zmod.zero * Zmod.zero)
                     - Y2 * (Z1 * Z1 * Z1)))%F;
      [ring | rewrite HY; ring].
Qed.

Lemma jeq_inf_inf (X1 Y1 X2 Y2 : F) :
  jeqX opsF (X1, Y1, Zmod.zero) (X2, Y2, Zmod.zero) = Zmod.zero
  /\ jeqY opsF (X1, Y1, Zmod.zero) (X2, Y2, Zmod.zero) = Zmod.zero.
Proof. cbv [jeqX jeqY opsF oc oadd osub omul]. split; ring. Qed.

(** The affine image of a finite Jacobian triple. *)
Lemma frep_affine (X Y Z x y : F) :
  frep (X, Y, Z) (x, y) ->
  (X * Zmod.inv (Z * Z))%F = x /\ (Y * Zmod.inv (Z * Z * Z))%F = y.
Proof.
  intros (HZ & -> & ->).
  rewrite !ZmodBase.Zmod.mul_inv_r. split; field; exact HZ.
Qed.

End Group.

End Field.
End Fp.

(** * Recursive scalar multiplication *)

Section RecursiveMult.

Context {al : Alias}.





End RecursiveMult.

(** * The code computes in the group of the curve *)

Section Jacobian.

Import Field.
Import Stdlib.Zmod.ZmodDef.

Context {al : Alias}.
Variable ec : CurveGroup.
Hypothesis Hp : Z.prime ec.(p).
Hypothesis Hp3 : 3 < ec.(p).

Local Notation toF := (Fp.toF ec.(p)) (only parsing).
Local Notation a := (Fp.toF ec.(p) ec.(_a)) (only parsing).
Local Notation b := (Fp.toF ec.(p) ec.(_b)) (only parsing).
Local Notation pt := (Fp.pt ec.(p)) (only parsing).
Local Notation padd := (Fp.padd ec.(p) a) (only parsing).
Local Notation pmul := (Fp.pmul ec.(p) a) (only parsing).
Local Notation pneg := (Fp.pneg ec.(p)) (only parsing).
Local Notation oncurve := (Fp.oncurve ec.(p) a b) (only parsing).
Local Notation opsF := (Fp.opsF ec.(p)) (only parsing).

(** The curve has no point of order two: x^3 + a x + b has no root. *)
Hypothesis no_root : forall x : Z, 0 <= x < ec.(p) -> _y2 ec x <> 0.

Ltac toF_cst t :=
  match t with
  | Fp.toF _ ?z =>
    match isZcst z with true => z | _ => constr:(InitialRing.NotConstant) end
  | Zmod.of_Z _ ?z =>
    match isZcst z with true => z | _ => constr:(InitialRing.NotConstant) end
  | _ => constr:(InitialRing.NotConstant)
  end.

Add Field Fec : (ZmodInv.Zmod.field_theory ec.(p) Hp)
  (morphism (Fp.toF_morph ec.(p)), constants [toF_cst]).

Lemma toF_mod (z : Z) : toF (z mod ec.(p)) = toF z.
Proof. apply ZmodBase.Zmod.of_Z_mod. Qed.

Lemma toF_eq (x y : Z) : toF x = toF y <-> x mod ec.(p) = y mod ec.(p).
Proof. apply ZmodBase.Zmod.of_Z_inj. Qed.

Lemma toF_eqb (x y : Z) :
  (x mod ec.(p) =? y mod ec.(p)) = Zmod.eqb (toF x) (toF y).
Proof.
  destruct (ZmodBase.Zmod.eqb_spec (toF x) (toF y)) as [E|E].
  - apply Z.eqb_eq. now apply toF_eq.
  - apply Z.eqb_neq. intros H. apply E. now apply toF_eq.
Qed.

Lemma toF_0 : toF 0 = Zmod.zero.
Proof. apply ZmodBase.Zmod.of_Z_0. Qed.

Lemma toF_0_iff (z : Z) : toF z = Zmod.zero <-> z mod ec.(p) = 0.
Proof.
  rewrite <- toF_0, toF_eq, Z.mod_0_l; [tauto|].
  pose proof Hp3. lia.
Qed.

Lemma toF_nz (z : Z) : toF z <> Zmod.zero <-> z mod ec.(p) <> 0.
Proof.
  rewrite <- toF_0, toF_eq, Z.mod_0_l; [tauto|].
  pose proof Hp3. lia.
Qed.

Lemma toF_to_Z (x : Zmod ec.(p)) : toF (Zmod.to_Z x) = x.
Proof. apply ZmodBase.Zmod.of_Z_to_Z. Qed.

Lemma to_Z_toF (z : Z) : Zmod.to_Z (toF z) = z mod ec.(p).
Proof. apply ZmodBase.Zmod.to_Z_of_Z. Qed.

Lemma to_Z_range (x : Zmod ec.(p)) : 0 <= Zmod.to_Z x < ec.(p).
Proof.
  pose proof (to_Z_toF (Zmod.to_Z x)) as H. rewrite toF_to_Z in H.
  rewrite H. apply Z.mod_pos_bound. pose proof Hp3. lia.
Qed.

Lemma toF_invmod (z : Z) : toF (Z.invmod z ec.(p)) = Zmod.inv (toF z).
Proof.
  apply ZmodBase.Zmod.to_Z_inj.
  rewrite to_Z_toF, ZmodBase.Zmod.to_Z_inv, to_Z_toF.
  now rewrite Z.mod_invmod, Z.invmod_mod_l.
Qed.

Ltac toF_push :=
  unfold Fp.toF;
  rewrite ?ZmodBase.Zmod.of_Z_mod;
  repeat first
    [ rewrite ZmodBase.Zmod.of_Z_add
    | rewrite ZmodBase.Zmod.of_Z_sub
    | rewrite ZmodBase.Zmod.of_Z_mul
    | rewrite ZmodBase.Zmod.of_Z_mod ];
  fold (Fp.toF ec.(p)).

Lemma no_y0 (x : Zmod ec.(p)) : Fp.rhs opsF a b x <> Zmod.zero.
Proof.
  intros H. apply (no_root (Zmod.to_Z x) (to_Z_range x)). unfold _y2.
  apply toF_0_iff. rewrite <- H.
  toF_push. unfold Fp.toF. rewrite ZmodBase.Zmod.of_Z_pow by lia.
  rewrite ZmodBase.Zmod.pow_2_r, ZmodBase.Zmod.of_Z_to_Z.
  cbv [Fp.rhs Fp.opsF Fp.oadd Fp.omul]. ring.
Qed.

Definition jF (J : JacPoint) : Zmod ec.(p) * Zmod ec.(p) * Zmod ec.(p) :=
  let '(X, Y, Z) := J in (toF X, toF Y, toF Z).

(** [jrep J P]: the triple [J] of the code names the point [P]; the
    code tests Z = 0 on the integer. *)
Definition jrep (J : JacPoint) (P : pt) : Prop :=
  Fp.jrepF ec.(p) (jF J) P /\ (P = None -> snd J = 0).

Lemma jF_double (J : JacPoint) :
  jF (_double_jac ec J) = Fp.jdbl opsF a (jF J).
Proof.
  destruct J as [[X Y] Z]. cbn [_double_jac jF Fp.jdbl].
  cbv [Fp.opsF Fp.oc Fp.oadd Fp.osub Fp.omul].
  repeat f_equal; toF_push; reflexivity.
Qed.

(** The straight-line part of [_add_jac]: the incomplete addition
    formula. *)
Definition add_jac_general (Q R : JacPoint) : JacPoint :=
  let '(Q0, Q1, Q2) := Q in
  let '(R0, R1, R2) := R in
  let RZ2 := R2 * R2 in
  let RZ3 := RZ2 * R2 in
  let QZ2 := Q2 * Q2 in
  let QZ3 := QZ2 * Q2 in
  let M := Q0 * RZ2 in
  let N := R0 * QZ2 in
  let T := Q1 * RZ3 in
  let U := R1 * QZ3 in
  let W := U - T in
  let V := N - M in
  let V2 := V * V in
  let V3 := V2 * V in
  let MV2 := M * V2 in
  let X := (W * W - V3 - 2 * MV2) mod ec.(p) in
  let Y := (W * (MV2 - X) - T * V3) mod ec.(p) in
  let Z := (V * Q2 * R2) mod ec.(p) in
  (X, Y, Z).

Definition same_jac (Q R : JacPoint) : bool :=
  Zmod.eqb (Fp.jeqX opsF (jF Q) (jF R)) Zmod.zero
  && Zmod.eqb (Fp.jeqY opsF (jF Q) (jF R)) Zmod.zero.

Lemma sub_eqb (x y : Zmod ec.(p)) :
  Zmod.eqb x y = Zmod.eqb (Zmod.sub x y) Zmod.zero.
Proof.
  destruct (ZmodBase.Zmod.eqb_spec x y) as [E|E];
    destruct (ZmodBase.Zmod.eqb_spec (Zmod.sub x y) Zmod.zero) as [E'|E'];
    try reflexivity; exfalso.
  - apply E'. subst. ring.
  - apply E. now apply ZmodBase.Zmod.sub_eq_0_iff.
Qed.

Lemma mod_eqb_sub (x y : Z) :
  (x mod ec.(p) =? y mod ec.(p))
  = Zmod.eqb (Zmod.sub (toF x) (toF y)) Zmod.zero.
Proof. rewrite toF_eqb. apply sub_eqb. Qed.

Lemma add_jac_eq (Q R : JacPoint) :
  _add_jac ec Q R =
  if same_jac Q R then _double_jac ec Q
  else nth (Z.to_nat (Z.b2z (snd Q =? 0) + Z.b2z (snd R =? 0) * 2))
           [add_jac_general Q R; R; Q; INFJ] INFJ.
Proof.
  destruct Q as [[Q0 Q1] Q2], R as [[R0 R1] R2].
  unfold _add_jac, same_jac. rewrite !mod_eqb_sub.
  cbn [jF snd Fp.jeqX Fp.jeqY].
  cbv [Fp.opsF Fp.oc Fp.oadd Fp.osub Fp.omul].
  unfold Fp.toF. rewrite !ZmodBase.Zmod.of_Z_mul. fold (Fp.toF ec.(p)).
  reflexivity.
Qed.

Lemma jF_add_general (Q R : JacPoint) :
  jF (add_jac_general Q R) = Fp.jadd opsF (jF Q) (jF R).
Proof.
  destruct Q as [[Q0 Q1] Q2], R as [[R0 R1] R2].
  cbn [add_jac_general jF Fp.jadd].
  cbv [Fp.opsF Fp.oc Fp.oadd Fp.osub Fp.omul].
  repeat f_equal; toF_push; reflexivity.
Qed.

Lemma snd_add_general (Q R : JacPoint) :
  snd (add_jac_general Q R) mod ec.(p) = snd (add_jac_general Q R).
Proof.
  destruct Q as [[Q0 Q1] Q2], R as [[R0 R1] R2]. cbn [add_jac_general snd].
  apply Z.mod_mod. pose proof Hp3. lia.
Qed.

Lemma snd_double (Q : JacPoint) :
  snd (_double_jac ec Q) mod ec.(p) = snd (_double_jac ec Q).
Proof.
  destruct Q as [[Q0 Q1] Q2]. cbn [_double_jac snd].
  apply Z.mod_mod. pose proof Hp3. lia.
Qed.

Lemma jF_snd_0 (J : JacPoint) :
  snd J mod ec.(p) = snd J -> snd (jF J) = Zmod.zero -> snd J = 0.
Proof.
  destruct J as [[X Y] Z]. cbn [jF snd]. intros Hm H.
  apply toF_0_iff in H. congruence.
Qed.

Lemma jrep_finite (J : JacPoint) (A : Zmod ec.(p) * Zmod ec.(p)) :
  jrep J (Some A) -> (snd J =? 0) = false.
Proof.
  destruct J as [[X Y] Z], A as [x y]. intros [(HZ & _) _].
  cbn [snd]. apply Z.eqb_neq. intros ->. apply HZ. apply toF_0.
Qed.

Lemma jrep_infinite (J : JacPoint) : jrep J None -> (snd J =? 0) = true.
Proof. intros [_ H]. apply Z.eqb_eq. now apply H. Qed.

Lemma jrep_double (J : JacPoint) (P : pt) :
  oncurve P -> jrep J P -> jrep (_double_jac ec J) (padd P P).
Proof.
  intros HP [HJ HZ].
  assert (HR : Fp.jrepF ec.(p) (jF (_double_jac ec J)) (padd P P)).
  { rewrite jF_double. now apply (Fp.jrepF_jdbl _ Hp Hp3 a b no_y0). }
  split; [exact HR|].
  intros E. apply jF_snd_0; [apply snd_double|].
  rewrite E in HR. destruct (jF (_double_jac ec J)) as [[X Y] Z].
  exact (proj1 HR).
Qed.

Lemma jrep_add (J1 J2 : JacPoint) (P1 P2 : pt) :
  jrep INFJ None ->
  oncurve P1 -> oncurve P2 -> jrep J1 P1 -> jrep J2 P2 ->
  jrep (_add_jac ec J1 J2) (padd P1 P2).
Proof.
  intros HI HP1 HP2 H1 H2. rewrite add_jac_eq.
  destruct P1 as [[x1 y1]|], P2 as [[x2 y2]|].
  - rewrite (jrep_finite _ _ H1), (jrep_finite _ _ H2). cbn [Z.b2z nth Z.to_nat Z.add Z.mul].
    change (nth (Z.to_nat (0 + 0 * 2)) _ _) with (add_jac_general J1 J2).
    destruct H1 as [H1 _], H2 as [H2 _]. cbn [Fp.jrepF] in H1, H2.
    destruct (Fp.frep_same _ Hp _ _ _ _ _ _ H1 H2) as [HX HY].
    unfold same_jac.
    destruct (Fp.padd_cases _ Hp Hp3 a b no_y0 _ _ _ _ HP1 HP2)
      as [(Ex & Ey & E)|[(Ex & Ey & E)|(Hx & E)]]; rewrite E.
    + subst x2 y2.
      destruct (ZmodBase.Zmod.eqb_spec (Fp.jeqY opsF (jF J1) (jF J2)) Zmod.zero)
        as [E0|E0].
      * exfalso. apply HY in E0.
        apply (Fp.neg_ne _ Hp Hp3 y1); [|exact E0].
        exact (Fp.oncurve_y_nz _ Hp a b no_y0 _ _ HP1).
      * rewrite andb_false_r.
        assert (HR : Fp.jrepF ec.(p) (jF (add_jac_general J1 J2)) None).
        { rewrite jF_add_general.
          apply (Fp.jrepF_jadd_opp _ Hp _ _ x1 y1 (Zmod.opp y1)); auto.
          intros E1. apply E0, HY, E1. }
        split; [exact HR|]. intros _.
        apply jF_snd_0; [apply snd_add_general|].
        destruct (jF (add_jac_general J1 J2)) as [[X Y] Z]. exact (proj1 HR).
    + subst x2 y2.
      rewrite (proj2 (ZmodBase.Zmod.eqb_eq _ _) (proj2 HX eq_refl)).
      rewrite (proj2 (ZmodBase.Zmod.eqb_eq _ _) (proj2 HY eq_refl)).
      cbn [andb]. rewrite <- E.
      apply jrep_double; [exact HP1|]. split; [exact H1|discriminate].
    + destruct (ZmodBase.Zmod.eqb_spec (Fp.jeqX opsF (jF J1) (jF J2)) Zmod.zero)
        as [E0|E0]; [exfalso; apply Hx, HX, E0|].
      cbn [andb]. split; [|discriminate].
      rewrite jF_add_general. cbn [Fp.jrepF].
      now apply (Fp.frep_jadd _ Hp).
  - (* J2 is infinite *)
    rewrite (jrep_finite _ _ H1), (jrep_infinite _ H2).
    change (nth (Z.to_nat (Z.b2z false + Z.b2z true * 2)) _ _) with J1.
    replace (same_jac J1 J2) with false; [exact H1|].
    symmetry. unfold same_jac.
    destruct J1 as [[X1 Y1] Z1], J2 as [[X2 Y2] Z2].
    destruct H1 as [(HZ1 & _) _]. destruct H2 as [(HZ2 & HXY) _].
    cbn [jF] in *. rewrite HZ2.
    pose proof (Fp.jeq_inf_r _ Hp (toF X1) (toF Y1) (toF Z1) (toF X2) (toF Y2)
                  HZ1 HXY) as Hn.
    destruct (ZmodBase.Zmod.eqb_spec
                (Fp.jeqX opsF (toF X1, toF Y1, toF Z1)
                   (toF X2, toF Y2, Zmod.zero)) Zmod.zero); [|reflexivity].
    destruct (ZmodBase.Zmod.eqb_spec
                (Fp.jeqY opsF (toF X1, toF Y1, toF Z1)
                   (toF X2, toF Y2, Zmod.zero)) Zmod.zero); [|reflexivity].
    tauto.
  - (* J1 is infinite *)
    rewrite (jrep_infinite _ H1), (jrep_finite _ _ H2).
    change (nth (Z.to_nat (Z.b2z true + Z.b2z false * 2)) _ _) with J2.
    replace (same_jac J1 J2) with false; [exact H2|].
    symmetry. unfold same_jac.
    destruct J1 as [[X1 Y1] Z1], J2 as [[X2 Y2] Z2].
    destruct H2 as [(HZ2 & _) _]. destruct H1 as [(HZ1 & HXY) _].
    cbn [jF] in *. rewrite HZ1.
    pose proof (Fp.jeq_inf_l _ Hp (toF X1) (toF Y1) (toF X2) (toF Y2) (toF Z2)
                  HZ2 HXY) as Hn.
    destruct (ZmodBase.Zmod.eqb_spec
                (Fp.jeqX opsF (toF X1, toF Y1, Zmod.zero)
                   (toF X2, toF Y2, toF Z2)) Zmod.zero); [|reflexivity].
    destruct (ZmodBase.Zmod.eqb_spec
                (Fp.jeqY opsF (toF X1, toF Y1, Zmod.zero)
                   (toF X2, toF Y2, toF Z2)) Zmod.zero); [|reflexivity].
    tauto.
  - (* both infinite: the doubling branch *)
    replace (same_jac J1 J2) with true;
      [exact (jrep_double J1 None I H1)|].
    symmetry. unfold same_jac.
    destruct J1 as [[X1 Y1] Z1], J2 as [[X2 Y2] Z2].
    destruct H1 as [(HZ1 & _) _]. destruct H2 as [(HZ2 & _) _].
    cbn [jF] in *. rewrite HZ1, HZ2.
    destruct (Fp.jeq_inf_inf _ Hp (toF X1) (toF Y1) (toF X2) (toF Y2))
      as [EX EY].
    rewrite EX, EY. now rewrite ZmodBase.Zmod.eqb_refl.
Qed.

(** *** Affine points *)

Hypothesis INF_y : snd INF = 0.

(** The affine pair the code returns for a point of the group. *)
Definition acanon (P : pt) : Point :=
  match P with
  | None => INF
  | Some (x, y) => (Zmod.to_Z x, Zmod.to_Z y)
  end.

Lemma to_Z_nz (x : Zmod ec.(p)) : x <> Zmod.zero -> Zmod.to_Z x <> 0.
Proof.
  intros H E. apply H. rewrite <- (toF_to_Z x), E. apply toF_0.
Qed.

Lemma to_Z_inj (x y : Zmod ec.(p)) : Zmod.to_Z x = Zmod.to_Z y -> x = y.
Proof. apply ZmodBase.Zmod.to_Z_inj. Qed.

Lemma mod_inv_ok (z : Z) :
  toF z <> Zmod.zero -> mod_inv z ec.(p) = Ret (Z.invmod z ec.(p)).
Proof.
  intros H. unfold mod_inv. apply toF_nz in H.
  apply Z.eqb_neq in H. now rewrite H.
Qed.

Lemma mod_to_Z (z : Z) (x : Zmod ec.(p)) :
  toF z = x -> z mod ec.(p) = Zmod.to_Z x.
Proof. intros <-. symmetry. apply to_Z_toF. Qed.

Lemma aff_from_jac_rep (J : JacPoint) (P : pt) :
  jrep J P -> _aff_from_jac ec J = Ret (acanon P).
Proof.
  destruct J as [[X Y] Z], P as [[x y]|]; intros [HJ HZ].
  - cbn [Fp.jrepF jF] in HJ.
    destruct (Fp.frep_affine _ Hp _ _ _ _ _ HJ) as [Ex Ey].
    destruct HJ as (HZn & _).
    unfold _aff_from_jac.
    replace (Z =? 0) with false
      by (symmetry; apply Z.eqb_neq; intros ->; apply HZn, toF_0).
    rewrite !mod_inv_ok
      by (toF_push; repeat apply (Fp.Fmul_nz _ Hp); exact HZn).
    cbn [bind acanon]. apply f_equal, f_equal2; apply mod_to_Z; toF_push.
    + rewrite toF_invmod. toF_push. exact Ex.
    + rewrite toF_invmod. toF_push. exact Ey.
  - cbn [snd] in HZ. rewrite (HZ eq_refl). reflexivity.
Qed.

Lemma double_aff_rep (P : pt) :
  oncurve P -> _double_aff ec (acanon P) = Ret (acanon (padd P P)).
Proof.
  destruct P as [[x y]|]; intros HP.
  - pose proof (Fp.oncurve_y_nz _ Hp a b no_y0 _ _ HP) as Hy.
    rewrite (Fp.padd_tangent _ a) by exact Hy.
    cbn [acanon]. unfold _double_aff.
    replace (Zmod.to_Z y =? 0) with false
      by (symmetry; apply Z.eqb_neq; now apply to_Z_nz).
    rewrite mod_inv_ok.
    2:{ toF_push. rewrite toF_to_Z.
        apply (Fp.Fmul_nz _ Hp); [apply (Fp.two_nz _ Hp3)|exact Hy]. }
    cbn [bind]. unfold Fp.tangent.
    apply f_equal, f_equal2; apply mod_to_Z; toF_push;
      rewrite toF_invmod; toF_push; rewrite !toF_to_Z;
      rewrite !ZmodBase.Zmod.mul_inv_r; reflexivity.
  - cbn [acanon Fp.padd]. unfold _double_aff.
    destruct INF as [x0 y0]. cbn [snd] in INF_y. now rewrite INF_y.
Qed.

Lemma add_aff_rep (P Q : pt) :
  oncurve P -> oncurve Q ->
  _add_aff ec (acanon P) (acanon Q) = Ret (acanon (padd P Q)).
Proof.
  destruct P as [[x1 y1]|], Q as [[x2 y2]|]; intros HP HQ.
  - pose proof (Fp.oncurve_y_nz _ Hp a b no_y0 _ _ HP) as Hy1.
    pose proof (Fp.oncurve_y_nz _ Hp a b no_y0 _ _ HQ) as Hy2.
    pose proof (double_aff_rep (Some (x2, y2)) HQ) as HD.
    cbn [acanon] in HD |- *. unfold _add_aff.
    replace (Zmod.to_Z y1 =? 0) with false
      by (symmetry; apply Z.eqb_neq; now apply to_Z_nz).
    replace (Zmod.to_Z y2 =? 0) with false
      by (symmetry; apply Z.eqb_neq; now apply to_Z_nz).
    destruct (Fp.padd_cases _ Hp Hp3 a b no_y0 _ _ _ _ HP HQ)
      as [(Ex & Ey & E)|[(Ex & Ey & E)|(Hx & E)]]; rewrite E.
    + subst x2 y2. rewrite Z.eqb_refl.
      replace (Zmod.to_Z (Zmod.opp y1) =? Zmod.to_Z y1) with false;
        [reflexivity|].
      symmetry. apply Z.eqb_neq. intros H. apply to_Z_inj in H.
      apply (Fp.neg_ne _ Hp Hp3 y1 Hy1). now symmetry.
    + subst x2 y2. rewrite !Z.eqb_refl. rewrite HD, E. reflexivity.
    + replace (Zmod.to_Z x2 =? Zmod.to_Z x1) with false.
      2:{ symmetry. apply Z.eqb_neq. intros H. apply to_Z_inj in H.
          congruence. }
      rewrite mod_inv_ok.
      2:{ toF_push. rewrite !toF_to_Z. apply Fp.Fsub_nz. congruence. }
      cbn [bind acanon]. unfold Fp.chord.
      apply f_equal, f_equal2; apply mod_to_Z; toF_push;
        rewrite toF_invmod; toF_push; rewrite !toF_to_Z;
        rewrite !ZmodBase.Zmod.mul_inv_r; reflexivity.
  - cbn [acanon Fp.padd]. unfold _add_aff.
    destruct INF as [x0 y0]. cbn [snd] in INF_y. now rewrite INF_y.
  - pose proof (Fp.oncurve_y_nz _ Hp a b no_y0 _ _ HQ) as Hy2.
    cbn [acanon Fp.padd]. unfold _add_aff.
    destruct INF as [x0 y0]. cbn [snd] in INF_y. rewrite INF_y.
    replace (Zmod.to_Z y2 =? 0) with false
      by (symmetry; apply Z.eqb_neq; now apply to_Z_nz).
    reflexivity.
  - cbn [acanon Fp.padd]. unfold _add_aff.
    destruct INF as [x0 y0]. cbn [snd] in INF_y. now rewrite INF_y.
Qed.

Lemma is_on_curve_acanon (P : pt) :
  oncurve P -> is_on_curve ec (acanon P) = Ret true.
Proof.
  destruct P as [[x y]|]; intros HP.
  - pose proof (Fp.oncurve_y_nz _ Hp a b no_y0 _ _ HP) as Hy.
    pose proof (to_Z_nz y Hy). pose proof (to_Z_range y).
    cbn [acanon]. unfold is_on_curve.
    replace (Zmod.to_Z y =? 0) with false by (symmetry; now apply Z.eqb_neq).
    replace ((0 <? Zmod.to_Z y) && (Zmod.to_Z y <? ec.(p))) with true
      by (symmetry; apply andb_true_iff; split; apply Z.ltb_lt; lia).
    cbn [negb]. f_equal. apply Z.eqb_eq. unfold _y2.
    apply toF_eq. toF_push. unfold Fp.toF.
    rewrite ZmodBase.Zmod.of_Z_pow by lia.
    rewrite ZmodBase.Zmod.pow_2_r, !ZmodBase.Zmod.of_Z_to_Z.
    unfold Fp.oncurve in HP. rewrite HP.
    cbv [Fp.rhs Fp.opsF Fp.oadd Fp.omul Fp.toF]. ring.
  - cbn [acanon]. unfold is_on_curve.
    destruct INF as [x0 y0]. cbn [snd] in INF_y. now rewrite INF_y.
Qed.

Lemma add_rep (P Q : pt) :
  oncurve P -> oncurve Q ->
  add ec (acanon P) (acanon Q) = Ret (acanon (padd P Q)).
Proof.
  intros HP HQ. unfold add, require_on_curve.
  rewrite !is_on_curve_acanon by assumption. cbn [bind negb].
  now apply add_aff_rep.
Qed.

(** The point of the group named by an affine pair of the code. *)
Definition point_of (Q : Point) : pt :=
  if snd Q =? 0 then None else Some (toF (fst Q), toF (snd Q)).

Lemma is_on_curve_point (Q : Point) :
  is_on_curve ec Q = Ret true -> oncurve (point_of Q).
Proof.
  destruct Q as [x y]. unfold is_on_curve, point_of. cbn [fst snd].
  destruct (y =? 0); [intros _; exact I|].
  destruct (negb ((0 <? y) && (y <? ec.(p)))); [discriminate|].
  intros H. injection H as H. apply Z.eqb_eq in H.
  unfold Fp.oncurve. rewrite <- ZmodBase.Zmod.of_Z_mul.
  fold (Fp.toF ec.(p) (y * y)). rewrite <- (toF_mod (y * y)), <- H.
  unfold _y2. toF_push. unfold Fp.toF.
  rewrite ZmodBase.Zmod.of_Z_pow by lia.
  rewrite ZmodBase.Zmod.pow_2_r.
  cbv [Fp.rhs Fp.opsF Fp.oadd Fp.omul]. ring.
Qed.

Lemma acanon_point_of (Q : Point) :
  snd Q <> 0 -> 0 <= fst Q < ec.(p) -> is_on_curve ec Q = Ret true ->
  acanon (point_of Q) = Q.
Proof.
  destruct Q as [x y]. unfold is_on_curve, point_of. cbn [fst snd].
  intros Hy Hx. apply Z.eqb_neq in Hy. rewrite Hy.
  destruct ((0 <? y) && (y <? ec.(p))) eqn:Hr; [|discriminate].
  intros _. apply andb_true_iff in Hr. destruct Hr as [H0 H1].
  apply Z.ltb_lt in H0, H1.
  cbn [acanon]. rewrite !to_Z_toF, !Z.mod_small by lia. reflexivity.
Qed.

Lemma jrep_jac_from_aff (Q : Point) :
  snd Q <> 0 -> is_on_curve ec Q = Ret true ->
  jrep (_jac_from_aff Q) (point_of Q).
Proof.
  destruct Q as [x y]. unfold is_on_curve, point_of, _jac_from_aff.
  cbn [fst snd]. intros Hy. apply Z.eqb_neq in Hy. rewrite Hy.
  destruct ((0 <? y) && (y <? ec.(p))) eqn:Hr; [|discriminate].
  intros _. split; [|discriminate].
  exact (Fp.frep_aff _ Hp Hp3 (toF x, toF y)).
Qed.

(** *** Multiples of a point *)

(** The Jacobian infinity of the library has Z = 0 and X, Y that do not
    vanish together modulo p. *)
Hypothesis INFJ_z : snd INFJ = 0.
Hypothesis INFJ_xy :
  fst (fst INFJ) mod ec.(p) <> 0 \/ snd (fst INFJ) mod ec.(p) <> 0.

Lemma INFJ_ok : jrep INFJ None.
Proof.
  destruct INFJ as [[X Y] Z]. cbn [fst snd] in *. split; [|now intros _].
  cbn [jF Fp.jrepF]. split; [rewrite INFJ_z; apply toF_0|].
  destruct INFJ_xy as [H|H]; [left|right]; now apply toF_nz.
Qed.

Section Multiples.

Variable P : pt.
Hypothesis HP : oncurve P.

(** [jm J k]: the triple [J] names k P. *)
Definition jm (J : JacPoint) (k : Z) : Prop :=
  0 <= k /\ jrep J (pmul k P).

Lemma oncurve_mul (k : Z) : oncurve (pmul k P).
Proof. now apply (Fp.oncurve_pmul _ Hp Hp3 a b no_y0). Qed.

Lemma jm_INFJ : jm INFJ 0.
Proof. split; [lia | exact INFJ_ok]. Qed.

Lemma jm_1 (J : JacPoint) : jrep J P -> jm J 1.
Proof. intros H. split; [lia|]. now rewrite Fp.pmul_1. Qed.

Lemma jm_eq (J : JacPoint) (k k' : Z) : k = k' -> jm J k -> jm J k'.
Proof. now intros ->. Qed.

Lemma jm_double (J : JacPoint) (k : Z) :
  jm J k -> jm (_double_jac ec J) (2 * k).
Proof.
  intros [Hk HJ]. split; [lia|].
  replace (2 * k) with (k + k) by lia.
  rewrite (Fp.pmul_add _ Hp Hp3 a b no_y0) by (auto; lia).
  apply jrep_double; [apply oncurve_mul | exact HJ].
Qed.

Lemma jm_add (J1 J2 : JacPoint) (k1 k2 : Z) :
  jm J1 k1 -> jm J2 k2 -> jm (_add_jac ec J1 J2) (k1 + k2).
Proof.
  intros [Hk1 H1] [Hk2 H2]. split; [lia|].
  rewrite (Fp.pmul_add _ Hp Hp3 a b no_y0) by (auto; lia).
  apply jrep_add; auto using oncurve_mul, INFJ_ok.
Qed.

Lemma jm_iter_double (n : nat) (J : JacPoint) (k : Z) :
  jm J k -> jm (Nat.iter n (_double_jac ec) J) (2 ^ Z.of_nat n * k).
Proof.
  intros H. induction n as [|n IH].
  - cbn [Nat.iter]. eapply jm_eq; [|exact H]. change (2 ^ Z.of_nat 0) with 1. lia.
  - cbn [Nat.iter]. eapply jm_eq; [|apply jm_double, IH].
    rewrite Nat2Z.inj_succ, Z.pow_succ_r by lia. lia.
Qed.

Lemma jm_affine (J : JacPoint) (k : Z) :
  jm J k -> _aff_from_jac ec J = Ret (acanon (pmul k P)).
Proof. intros [_ H]. now apply aff_from_jac_rep. Qed.

End Multiples.

(** A [for] loop that keeps an invariant. *)
Lemma foldM_inv {S V : Type} (inv : S -> V -> Prop) (next : V -> Z -> V)
  (step : S -> Z -> result S) (ds : list Z) :
  (forall s v d, In d ds -> inv s v ->
     exists s', step s d = Ret s' /\ inv s' (next v d)) ->
  forall s v, inv s v ->
  exists s', foldM step ds s = Ret s' /\ inv s' (fold_left next ds v).
Proof.
  induction ds as [|d ds IH]; intros Hstep s v Hinv.
  - exists s. split; [reflexivity | exact Hinv].
  - destruct (Hstep s v d (or_introl eq_refl) Hinv) as (s' & E & Hinv').
    cbn [foldM fold_left]. rewrite E. cbn [bind].
    apply IH; [|exact Hinv'].
    intros s0 v0 d0 Hin. apply Hstep. now right.
Qed.

Lemma fold_left_inv {S V : Type} (inv : S -> V -> Prop) (next : V -> Z -> V)
  (step : S -> Z -> S) (ds : list Z) :
  (forall s v d, In d ds -> inv s v -> inv (step s d) (next v d)) ->
  forall s v, inv s v -> inv (fold_left step ds s) (fold_left next ds v).
Proof.
  induction ds as [|d ds IH]; intros Hstep s v Hinv.
  - exact Hinv.
  - cbn [fold_left]. apply IH.
    + intros s0 v0 d0 Hin. apply Hstep. now right.
    + apply Hstep; [now left | exact Hinv].
Qed.

(** *** The scalar multiplications compute m P *)

Lemma land_1 (m : Z) : Z.land m 1 = m mod 2.
Proof. exact (Z.land_ones m 1 ltac:(lia)). Qed.

Lemma shiftr_1 (m : Z) : Z.shiftr m 1 = m / 2.
Proof. exact (Z.shiftr_div_pow2 m 1 ltac:(lia)). Qed.

Lemma bit_length_bound (m : Z) :
  0 <= m -> m < 2 ^ Z.of_nat (Z.to_nat (bit_length m)).
Proof.
  intros Hm. unfold bit_length.
  destruct (Z.eqb_spec m 0) as [->|Hnz]; [reflexivity|].
  pose proof (Z.log2_nonneg m).
  rewrite Z2Nat.id by lia.
  destruct (Z.log2_spec m ltac:(lia)) as [_ H2]. now rewrite <- Z.add_1_r in H2.
Qed.

Lemma bin_pos_app (q : positive) (acc : list Z) :
  bin_pos q acc = bin_pos q [] ++ acc.
Proof.
  revert acc. induction q as [q IH|q IH|]; intros acc; cbn [bin_pos].
  - rewrite (IH (1 :: acc)), (IH [1]), <- app_assoc. reflexivity.
  - rewrite (IH (0 :: acc)), (IH [0]), <- app_assoc. reflexivity.
  - reflexivity.
Qed.

Lemma bin_pos_bits (q : positive) :
  Forall (fun d => d = 0 \/ d = 1) (bin_pos q [])
  /\ fold_left (fun v d => 2 * v + d) (bin_pos q []) 0 = Zpos q.
Proof.
  induction q as [q [IHb IHv]|q [IHb IHv]|]; cbn [bin_pos].
  - rewrite bin_pos_app. split.
    + apply Forall_app. split; [exact IHb|].
      constructor; [now right | constructor].
    + rewrite fold_left_app, IHv. cbn [fold_left]. lia.
  - rewrite bin_pos_app. split.
    + apply Forall_app. split; [exact IHb|].
      constructor; [now left | constructor].
    + rewrite fold_left_app, IHv. cbn [fold_left]. lia.
  - split; [constructor; [now right | constructor] | reflexivity].
Qed.

Lemma py_bin_bits (m : Z) :
  0 <= m ->
  Forall (fun d => d = 0 \/ d = 1) (py_bin m)
  /\ fold_left (fun v d => 2 * v + d) (py_bin m) 0 = m.
Proof.
  intros Hm. destruct m as [|q|q]; [|apply bin_pos_bits|lia].
  split; [constructor; [now left | constructor] | reflexivity].
Qed.

Section Algorithms.

Variable P : pt.
Hypothesis HP : oncurve P.
Variable Q : JacPoint.
Hypothesis HQ : jrep Q P.

Local Notation jm := (jm P) (only parsing).

Lemma table_rep (T : list JacPoint) :
  table_ok ec Q T ->
  forall k d, nth_error T k = Some d -> jm d (Z.of_nat k).
Proof.
  intros (H0 & H1 & Hrec) k.
  induction k as [k IH] using lt_wf_ind. intros d Hd.
  destruct k as [|[|k]].
  - rewrite H0 in Hd. injection Hd as <-. apply jm_INFJ.
  - rewrite H1 in Hd. injection Hd as <-. now apply jm_1.
  - destruct (Nat.Even_or_Odd (S (S k))) as [[j Hj]|[j Hj]].
    + destruct (Hrec j ltac:(lia)) as [He _]. rewrite Hj in Hd.
      destruct (He d Hd) as (h & Hh & ->).
      eapply jm_eq; [|apply (jm_double P HP), (IH j ltac:(lia) h Hh)]. lia.
    + destruct (Hrec j ltac:(lia)) as [_ Ho]. rewrite Hj in Hd.
      destruct (Ho d Hd) as (d' & Hd' & ->).
      eapply jm_eq;
        [|apply (jm_add P HP);
           [apply (IH (2 * j)%nat ltac:(lia) d' Hd') | now apply jm_1]].
      lia.
Qed.

Lemma table_lookup (T : list JacPoint) (n i : Z) :
  (forall k d, nth_error T k = Some d -> jm d (Z.of_nat k)) ->
  Z.of_nat (length T) = n -> 0 <= i < n ->
  exists t, py_index T i = Ret t /\ jm t i.
Proof.
  intros HT Hlen Hi.
  destruct (py_index_in T i ltac:(lia)) as (t & E & Hn).
  exists t. split; [exact E|].
  eapply jm_eq; [|exact (HT _ _ Hn)]. lia.
Qed.

Lemma mult_fixed_window_rep (m w : Z) :
  0 <= m -> 1 <= w ->
  exists R, _mult_fixed_window m Q ec w false = Ret R /\ jm R m.
Proof.
  intros Hm Hw. unfold _mult_fixed_window.
  replace (m <? 0) with false by (symmetry; apply Z.ltb_ge; lia).
  replace (w <=? 0) with false by (symmetry; apply Z.leb_gt; lia).
  assert (Hb : 2 <= 2 ^ w).
  { change 2 with (2 ^ 1) at 1. apply Z.pow_le_mono_r; lia. }
  destruct (multiples_shape ec Q (2 ^ w) Hb) as (T & ET & HT & Hlen).
  rewrite ET. cbn [bind].
  pose proof (table_rep T HT) as Hrep.
  destruct (convert_number_to_base_ok m (2 ^ w) Hm Hb)
    as (digits & ED & Hne & Hall & Hval & _).
  rewrite ED. cbn [bind].
  destruct digits as [|d0 rest]; [congruence|].
  rewrite (py_index_nth (d0 :: rest) 0 d0) by (try reflexivity; lia).
  cbn [bind tl].
  apply Forall_cons_iff in Hall. destruct Hall as [Hd0 Hrest].
  destruct (table_lookup T (2 ^ w) d0 Hrep Hlen Hd0) as (R0 & ER0 & HR0).
  rewrite ER0. cbn [bind].
  destruct (foldM_inv (fun R v => jm R v) (fun v d => v * 2 ^ w + d)
              (fixed_window_step ec w T) rest) with (s := R0) (v := d0)
    as (R & ER & HR).
  - intros s v d Hin Hs.
    rewrite Forall_forall in Hrest. specialize (Hrest d Hin).
    destruct (table_lookup T (2 ^ w) d Hrep Hlen Hrest) as (t & Et & Ht).
    unfold fixed_window_step. rewrite Et. cbn [bind].
    eexists. split; [reflexivity|].
    eapply jm_eq;
      [|apply (jm_add P HP);
         [apply (jm_iter_double P HP), Hs | exact Ht]].
    rewrite Z2Nat.id by lia. lia.
  - exact HR0.
  - exists R. split; [exact ER|].
    eapply jm_eq; [|exact HR].
    unfold digits_value in Hval. cbn [fold_left] in Hval.
    exact Hval.
Qed.

Lemma mult_base_3_rep (m : Z) :
  0 <= m -> exists R, _mult_base_3 m Q ec = Ret R /\ jm R m.
Proof.
  intros Hm. unfold _mult_base_3.
  replace (m <? 0) with false by (symmetry; apply Z.ltb_ge; lia).
  set (T := [INFJ; Q; _double_jac ec Q]).
  assert (Hrep : forall k d, nth_error T k = Some d -> jm d (Z.of_nat k)).
  { intros [|[|[|k]]] d Hd; cbn in Hd; try (injection Hd as <-).
    - apply jm_INFJ.
    - now apply jm_1.
    - apply (jm_double P HP Q 1). now apply jm_1.
    - destruct k; discriminate. }
  destruct (convert_number_to_base_ok m 3 Hm ltac:(lia))
    as (digits & ED & Hne & Hall & Hval & _).
  rewrite ED. cbn [bind].
  destruct digits as [|d0 rest]; [congruence|].
  rewrite (py_index_nth (d0 :: rest) 0 d0) by (try reflexivity; lia).
  cbn [bind tl].
  apply Forall_cons_iff in Hall. destruct Hall as [Hd0 Hrest].
  destruct (table_lookup T 3 d0 Hrep eq_refl Hd0) as (R0 & ER0 & HR0).
  rewrite ER0. cbn [bind].
  destruct (foldM_inv (fun R v => jm R v) (fun v d => v * 3 + d)
              (base_3_step ec T) rest) with (s := R0) (v := d0)
    as (R & ER & HR).
  - intros s v d Hin Hs.
    rewrite Forall_forall in Hrest. specialize (Hrest d Hin).
    destruct (table_lookup T 3 d Hrep eq_refl Hrest) as (t & Et & Ht).
    unfold base_3_step. rewrite Et. cbn [bind].
    eexists. split; [reflexivity|].
    eapply jm_eq;
      [|apply (jm_add P HP);
         [apply (jm_add P HP); [apply (jm_double P HP), Hs | exact Hs]
         | exact Ht]].
    lia.
  - exact HR0.
  - exists R. split; [exact ER|].
    eapply jm_eq; [|exact HR].
    unfold digits_value in Hval. cbn [fold_left] in Hval.
    exact Hval.
Qed.

Lemma mult_mont_ladder_rep (m : Z) :
  0 <= m -> exists R, _mult_mont_ladder m Q ec = Ret R /\ jm R m.
Proof.
  intros Hm. unfold _mult_mont_ladder.
  replace (m <? 0) with false by (symmetry; apply Z.ltb_ge; lia).
  destruct (py_bin_bits m Hm) as [Hbits Hval].
  eexists. split; [reflexivity|].
  rewrite <- Hval at 2.
  refine (proj1 (fold_left_inv
            (fun (R : JacPoint * JacPoint) v => jm (fst R) v /\ jm (snd R) (v + 1))
            (fun v d => 2 * v + d) (mont_step ec) (py_bin m) _
            (INFJ, Q) 0 _)).
  - intros [R0 R1] v d Hin [H0 H1]. cbn [fst snd] in H0, H1.
    rewrite Forall_forall in Hbits.
    destruct (Hbits d Hin) as [->| ->]; cbn [mont_step set2 get2 py_not
      Z.eqb fst snd]; split.
    + eapply jm_eq; [|apply (jm_double P HP), H0]. lia.
    + eapply jm_eq; [|apply (jm_add P HP); [exact H0 | exact H1]]. lia.
    + eapply jm_eq; [|apply (jm_add P HP); [exact H1 | exact H0]]. lia.
    + eapply jm_eq; [|apply (jm_double P HP), H1]. lia.
  - split; [apply jm_INFJ | now apply jm_1].
Qed.

Lemma mult_jac_loop_rep (fuel : nat) :
  forall (m : Z) (Qj : JacPoint) (R : JacPoint * JacPoint) (kq kr : Z),
  0 <= m < 2 ^ Z.of_nat fuel -> jm Qj kq -> jm (fst R) kr ->
  exists R', _mult_jac_loop fuel m Qj R ec = Ret R'
    /\ jm R' (kr + 2 * m * kq).
Proof.
  induction fuel as [|fuel IH]; intros m Qj R kq kr Hm Hq Hr.
  - assert (m = 0) by (change (2 ^ Z.of_nat 0) with 1 in Hm; lia). subst m.
    exists (fst R). split; [reflexivity|].
    eapply jm_eq; [|exact Hr]. lia.
  - cbn [_mult_jac_loop].
    destruct (Z.ltb_spec 0 m) as [Hpos|Hz].
    2:{ exists (fst R). split; [reflexivity|].
        assert (m = 0) by lia. subst m.
        eapply jm_eq; [|exact Hr]. lia. }
    rewrite land_1, shiftr_1.
    assert (Hdm : m = 2 * (m / 2) + m mod 2) by (apply Z.div_mod; lia).
    assert (Hmod : 0 <= m mod 2 < 2) by (apply Z.mod_pos_bound; lia).
    assert (Hdiv : 0 <= m / 2 < 2 ^ Z.of_nat fuel).
    { split; [apply Z.div_pos; lia|].
      apply Z.div_lt_upper_bound; [lia|].
      rewrite Nat2Z.inj_succ, Z.pow_succ_r in Hm by lia. lia. }
    pose proof (jm_double P HP Qj kq Hq) as Hq'.
    destruct R as [R0 R1]. cbn [fst] in Hr |- *.
    destruct (Z.eq_dec (m mod 2) 0) as [E0|E1].
    + rewrite E0. cbn [py_not Z.eqb set2 fst snd].
      destruct (IH (m / 2) (_double_jac ec Qj)
                  (R0, _add_jac ec R0 (_double_jac ec Qj)) (2 * kq) kr
                  Hdiv Hq' Hr) as (R' & E & HR').
      exists R'. split; [exact E|]. eapply jm_eq; [|exact HR']. lia.
    + assert (E : m mod 2 = 1) by lia. rewrite E.
      cbn [py_not Z.eqb set2 fst snd].
      destruct (IH (m / 2) (_double_jac ec Qj)
                  (_add_jac ec R0 (_double_jac ec Qj), R1) (2 * kq)
                  (kr + 2 * kq)
                  Hdiv Hq' (jm_add P HP _ _ _ _ Hr Hq')) as (R' & E' & HR').
      exists R'. split; [exact E'|]. eapply jm_eq; [|exact HR']. lia.
Qed.

Lemma mult_jac_rep (m : Z) :
  0 <= m -> exists R, _mult_jac m Q ec = Ret R /\ jm R m.
Proof.
  intros Hm. unfold _mult_jac.
  replace (m <? 0) with false by (symmetry; apply Z.ltb_ge; lia).
  rewrite land_1, shiftr_1.
  assert (Hdm : m = 2 * (m / 2) + m mod 2) by (apply Z.div_mod; lia).
  assert (Hmod : 0 <= m mod 2 < 2) by (apply Z.mod_pos_bound; lia).
  assert (Hdiv : 0 <= m / 2) by (apply Z.div_pos; lia).
  pose proof (bit_length_bound (m / 2) Hdiv) as Hfuel.
  pose proof (jm_1 P Q HQ) as HQ1.
  destruct (Z.eq_dec (m mod 2) 0) as [E0|E1].
  - rewrite E0. cbn [py_not Z.eqb set2 fst snd].
    destruct (mult_jac_loop_rep _ (m / 2) Q (INFJ, Q) 1 0
                (conj Hdiv Hfuel) HQ1 (jm_INFJ P)) as (R' & E & HR').
    exists R'. split; [exact E|]. eapply jm_eq; [|exact HR']. lia.
  - assert (E : m mod 2 = 1) by lia. rewrite E.
    cbn [py_not Z.eqb set2 fst snd].
    destruct (mult_jac_loop_rep _ (m / 2) Q (Q, Q) 1 1
                (conj Hdiv Hfuel) HQ1 HQ1) as (R' & E' & HR').
    exists R'. split; [exact E'|]. eapply jm_eq; [|exact HR']. lia.
Qed.

Lemma double_aff_mul (k : Z) :
  0 <= k ->
  _double_aff ec (acanon (pmul k P)) = Ret (acanon (pmul (2 * k) P)).
Proof.
  intros Hk. rewrite double_aff_rep by apply (oncurve_mul P HP).
  replace (2 * k) with (k + k) by lia.
  now rewrite (Fp.pmul_add _ Hp Hp3 a b no_y0) by (auto; lia).
Qed.

Lemma add_aff_mul (k1 k2 : Z) :
  0 <= k1 -> 0 <= k2 ->
  _add_aff ec (acanon (pmul k1 P)) (acanon (pmul k2 P))
  = Ret (acanon (pmul (k1 + k2) P)).
Proof.
  intros H1 H2. rewrite add_aff_rep by apply (oncurve_mul P HP).
  now rewrite (Fp.pmul_add _ Hp Hp3 a b no_y0) by (auto; lia).
Qed.

Lemma mult_aff_loop_rep (fuel : nat) :
  forall (m : Z) (Qa : Point) (R : Point * Point) (kq kr : Z),
  0 <= m < 2 ^ Z.of_nat fuel -> 0 <= kq -> 0 <= kr ->
  Qa = acanon (pmul kq P) -> fst R = acanon (pmul kr P) ->
  _mult_aff_loop fuel m Qa R ec = Ret (acanon (pmul (kr + 2 * m * kq) P)).
Proof.
  induction fuel as [|fuel IH]; intros m Qa R kq kr Hm Hkq Hkr Hq Hr.
  - assert (m = 0) by (change (2 ^ Z.of_nat 0) with 1 in Hm; lia). subst m.
    cbn. rewrite Hr. do 3 f_equal. lia.
  - cbn [_mult_aff_loop].
    destruct (Z.ltb_spec 0 m) as [Hpos|Hz].
    2:{ assert (m = 0) by lia. subst m. rewrite Hr. do 3 f_equal. lia. }
    rewrite land_1, shiftr_1.
    assert (Hdm : m = 2 * (m / 2) + m mod 2) by (apply Z.div_mod; lia).
    assert (Hmod : 0 <= m mod 2 < 2) by (apply Z.mod_pos_bound; lia).
    assert (Hdiv : 0 <= m / 2 < 2 ^ Z.of_nat fuel).
    { split; [apply Z.div_pos; lia|].
      apply Z.div_lt_upper_bound; [lia|].
      rewrite Nat2Z.inj_succ, Z.pow_succ_r in Hm by lia. lia. }
    rewrite Hq, double_aff_mul by lia. cbn [bind].
    rewrite Hr, add_aff_mul by lia. cbn [bind].
    destruct R as [R0 R1]. cbn [fst] in Hr.
    destruct (Z.eq_dec (m mod 2) 0) as [E0|E1].
    + rewrite E0. cbn [Z.eqb set2 get2 fst snd].
      rewrite (IH (m / 2) _ _ (2 * kq) kr) by (auto; lia).
      do 3 f_equal. lia.
    + assert (E : m mod 2 = 1) by lia. rewrite E.
      cbn [Z.eqb set2 get2 fst snd].
      rewrite (IH (m / 2) _ _ (2 * kq) (kr + 2 * kq)) by (auto; lia).
      do 3 f_equal. lia.
Qed.

Lemma mult_aff_rep (m : Z) (Qa : Point) :
  Qa = acanon P -> 0 <= m ->
  _mult_aff m Qa ec = Ret (acanon (pmul m P)).
Proof.
  intros HQa Hm. unfold _mult_aff.
  replace (m <? 0) with false by (symmetry; apply Z.ltb_ge; lia).
  rewrite land_1, shiftr_1.
  assert (Hdm : m = 2 * (m / 2) + m mod 2) by (apply Z.div_mod; lia).
  assert (Hmod : 0 <= m mod 2 < 2) by (apply Z.mod_pos_bound; lia).
  assert (Hdiv : 0 <= m / 2) by (apply Z.div_pos; lia).
  pose proof (bit_length_bound (m / 2) Hdiv) as Hfuel.
  assert (HQ1 : Qa = acanon (pmul 1 P)) by now rewrite Fp.pmul_1.
  destruct (Z.eq_dec (m mod 2) 0) as [E0|E1].
  - rewrite E0. cbn [Z.eqb set2 get2 fst snd].
    rewrite (mult_aff_loop_rep _ (m / 2) Qa _ 1 0) by (auto; lia).
    do 3 f_equal. lia.
  - assert (E : m mod 2 = 1) by lia. rewrite E.
    cbn [Z.eqb set2 get2 fst snd].
    rewrite (mult_aff_loop_rep _ (m / 2) Qa _ 1 1) by (auto; lia).
    do 3 f_equal. lia.
Qed.

End Algorithms.

(** *** The cached fixed windows *)

Lemma digits_value_from (base : Z) (ds : list Z) (v : Z) :
  fold_left (fun acc d => acc * base + d) ds v
  = v * base ^ Z.of_nat (length ds) + digits_value base ds.
Proof.
  unfold digits_value. revert v. induction ds as [|d ds IH]; intros v.
  - cbn. lia.
  - cbn [fold_left length]. rewrite (IH (v * base + d)), (IH (0 * base + d)).
    rewrite Nat2Z.inj_succ, Z.pow_succ_r by lia. ring.
Qed.

Lemma digits_value_cons (base d : Z) (ds : list Z) :
  digits_value base (d :: ds)
  = d * base ^ Z.of_nat (length ds) + digits_value base ds.
Proof.
  unfold digits_value at 1. cbn [fold_left].
  rewrite digits_value_from. lia.
Qed.

Lemma skipn_nth_error {A : Type} (l : list A) (i : nat) (x : A) :
  nth_error l i = Some x -> skipn i l = x :: skipn (S i) l.
Proof.
  revert l. induction i as [|i IH]; intros [|y l] H; try discriminate.
  - injection H as ->. reflexivity.
  - cbn [skipn]. now apply IH.
Qed.

Section Cached.

Variable P : pt.
Hypothesis HP : oncurve P.
Variable Q : JacPoint.
Hypothesis HQ : jrep Q P.

Lemma jm_scale (c : Z) (J : JacPoint) (k : Z) :
  0 <= c -> jm (pmul c P) J k -> jm P J (k * c).
Proof.
  intros Hc [Hk H]. split; [nia|].
  now rewrite (Fp.pmul_mul _ Hp Hp3 a b no_y0) by (auto; lia).
Qed.

(** Window j of the table holds the multiples d 2^(w j) P. *)
Definition wtables (w : Z) (T : list (list JacPoint)) : Prop :=
  forall j s, nth_error T j = Some s ->
    Z.of_nat (length s) = 2 ^ w
    /\ forall d t, nth_error s d = Some t ->
         jm P t (Z.of_nat d * 2 ^ (w * Z.of_nat j)).

Lemma fixwind_loop_rep (w : Z) (Hw : 1 <= w) (l : list Z) :
  forall (T : list (list JacPoint)) (K : JacPoint),
  wtables w T -> jm P K (2 ^ (w * Z.of_nat (length T))) ->
  exists T' K', foldM (fixwind_step ec w) l (T, K) = Ret (T', K')
    /\ wtables w T' /\ length T' = (length T + length l)%nat.
Proof.
  induction l as [|i l IH]; intros T K HT HK.
  - exists T, K. cbn [foldM length]. split; [reflexivity|]. split; [exact HT|lia].
  - cbn [foldM]. unfold fixwind_step at 1.
    destruct (window_sublist ec K w Hw) as (s & E & Hs & Hlen).
    rewrite E. cbn [bind].
    assert (Hpos : 0 < 2 ^ (w - 1)) by (apply Z.pow_pos_nonneg; lia).
    assert (Hlt : 2 ^ (w - 1) < 2 ^ w) by (apply Z.pow_lt_mono_r; lia).
    destruct (py_index_in s (2 ^ (w - 1)) ltac:(lia)) as (h & Hpy & Hh).
    rewrite Hpy. cbn [bind].
    set (c := 2 ^ (w * Z.of_nat (length T))) in *.
    assert (Hc : 0 <= c) by (apply Z.pow_nonneg; lia).
    pose proof (table_rep (pmul c P) (oncurve_mul P HP c) K (proj2 HK) s Hs)
      as Hrep.
    destruct (IH (T ++ [s]) (_double_jac ec h)) as (T' & K' & E' & HT' & Hlen').
    + intros j s' Hj.
      destruct (Nat.lt_ge_cases j (length T)) as [Hlt'|Hge].
      * rewrite nth_error_app1 in Hj by exact Hlt'. exact (HT j s' Hj).
      * rewrite nth_error_app2 in Hj by exact Hge.
        destruct (j - length T)%nat as [|n] eqn:En;
          [|destruct n; discriminate].
        injection Hj as <-. split; [exact Hlen|].
        intros d t Hd. replace j with (length T) by lia.
        apply jm_scale; [exact Hc|]. exact (Hrep d t Hd).
    + rewrite length_app. cbn [length].
      eapply jm_eq;
        [|apply jm_scale;
           [exact Hc
           |apply (jm_double (pmul c P) (oncurve_mul P HP c)),
              (Hrep _ _ Hh)]].
      rewrite Z2Nat.id by lia. unfold c.
      replace (w * Z.of_nat (length T + 1))
        with (w + w * Z.of_nat (length T)) by lia.
      rewrite Z.pow_add_r by lia.
      replace w with (Z.succ (w - 1)) at 3 by lia.
      rewrite Z.pow_succ_r by lia. ring.
    + exists T', K'. split; [exact E'|]. split; [exact HT'|].
      rewrite Hlen', length_app. cbn [length]. lia.
Qed.

Lemma cached_multiples_fixwind_rep (w : Z) :
  1 <= w -> 0 <= ec.(psize) ->
  exists T, cached_multiples_fixwind Q ec w = Ret T
    /\ wtables w T /\ Z.of_nat (length T) = ec.(psize) * 8 / w + 1.
Proof.
  intros Hw Hps. unfold cached_multiples_fixwind.
  replace (w =? 0) with false by (symmetry; apply Z.eqb_neq; lia).
  destruct (fixwind_loop_rep w Hw (py_range 0 (ec.(psize) * 8 / w + 1) 1) [] Q)
    as (T & K & E & HT & Hlen).
  - intros [|j] s Hj; discriminate.
  - cbn [length]. rewrite Z.mul_0_r. now apply jm_1.
  - rewrite E. cbn [bind fst]. exists T. split; [reflexivity|].
    split; [exact HT|].
    rewrite Hlen, py_range_length_1. cbn [length].
    assert (0 <= ec.(psize) * 8 / w) by (apply Z.div_pos; lia). lia.
Qed.

Lemma fixed_window_cached_loop_rep (w : Z) (T : list (list JacPoint))
  (digits : list Z) :
  1 <= w -> wtables w T -> Forall (fun d => 0 <= d < 2 ^ w) digits ->
  forall (n i : nat) (R : JacPoint) (v : Z),
  (i + n = length digits)%nat -> (n <= length T)%nat -> jm P R v ->
  exists st, foldM (fixed_window_cached_step ec T digits)
                   (range_from n (Z.of_nat i) 1) (Z.of_nat n, R) = Ret st
    /\ jm P (snd st) (v + digits_value (2 ^ w) (skipn i digits)).
Proof.
  intros Hw HT HD. induction n as [|n IH]; intros i R v Hi Hn HR.
  - eexists. split; [reflexivity|]. cbn [snd].
    rewrite skipn_all2 by lia. eapply jm_eq; [|exact HR].
    unfold digits_value. cbn. lia.
  - cbn [range_from foldM]. unfold fixed_window_cached_step at 1.
    replace (Z.of_nat (S n) - 1) with (Z.of_nat n) by lia.
    destruct (py_index_in T (Z.of_nat n) ltac:(lia)) as (Tk & ETk & HTk).
    rewrite ETk. cbn [bind]. rewrite Nat2Z.id in HTk.
    destruct (HT n Tk HTk) as [Hlen Hrep].
    destruct (py_index_in digits (Z.of_nat i) ltac:(lia)) as (d & Ed & Hd).
    rewrite Ed. cbn [bind]. rewrite Nat2Z.id in Hd.
    pose proof (proj1 (Forall_forall _ _) HD d (nth_error_In _ _ Hd)) as Hdr.
    cbv beta in Hdr.
    destruct (py_index_in Tk d ltac:(lia)) as (t & Et & Ht).
    rewrite Et. cbn [bind].
    replace (Z.of_nat i + 1) with (Z.of_nat (S i)) by lia.
    destruct (IH (S i) (_add_jac ec R t) (v + d * 2 ^ (w * Z.of_nat n)))
      as (st & Est & Hst); [lia | lia | |].
    + apply (jm_add P HP); [exact HR|].
      eapply jm_eq; [|exact (Hrep _ _ Ht)]. rewrite Z2Nat.id by lia. reflexivity.
    + exists st. split; [exact Est|].
      eapply jm_eq; [|exact Hst].
      rewrite (skipn_nth_error digits i d Hd), digits_value_cons.
      rewrite length_skipn.
      replace (length digits - S i)%nat with n by lia.
      rewrite <- Z.pow_mul_r by lia. lia.
Qed.

Lemma mult_fixed_window_cached_rep (m w : Z) :
  0 <= m -> 1 <= w -> 0 <= ec.(psize) ->
  (forall digits, convert_number_to_base m (2 ^ w) = Ret digits ->
     Z.of_nat (length digits) <= ec.(psize) * 8 / w + 1) ->
  exists R, _mult_fixed_window_cached m Q ec w = Ret R /\ jm P R m.
Proof.
  intros Hm Hw Hps Hfit. unfold _mult_fixed_window_cached.
  replace (m <? 0) with false by (symmetry; apply Z.ltb_ge; lia).
  replace (w <=? 0) with false by (symmetry; apply Z.leb_gt; lia).
  assert (Hb : 2 <= 2 ^ w).
  { change 2 with (2 ^ 1) at 1. apply Z.pow_le_mono_r; lia. }
  destruct (cached_multiples_fixwind_rep w Hw Hps) as (T & ET & HT & HlenT).
  rewrite ET. cbn [bind].
  destruct (convert_number_to_base_ok m (2 ^ w) Hm Hb)
    as (digits & ED & Hne & Hall & Hval & _).
  specialize (Hfit digits ED).
  rewrite ED. cbn [bind].
  destruct digits as [|d0 rest]; [congruence|].
  cbn [length] in *.
  replace (Z.of_nat (S (length rest)) - 1) with (Z.of_nat (length rest)) by lia.
  destruct (py_index_in T (Z.of_nat (length rest)) ltac:(lia))
    as (Tk & ETk & HTk).
  rewrite ETk. cbn [bind]. rewrite Nat2Z.id in HTk.
  destruct (HT _ Tk HTk) as [Hlen Hrep].
  rewrite (py_index_nth (d0 :: rest) 0 d0) by (try reflexivity; lia).
  cbn [bind].
  pose proof (proj1 (Forall_cons_iff _ _ _) Hall) as [Hd0 _].
  destruct (py_index_in Tk d0 ltac:(lia)) as (R0 & ER0 & HR0).
  rewrite ER0. cbn [bind].
  unfold py_range.
  replace (Z.to_nat ((Z.of_nat (S (length rest)) - 1 + 1 - 1) / 1))
    with (length rest) by (rewrite Z.div_1_r; lia).
  destruct (fixed_window_cached_loop_rep w T (d0 :: rest) Hw HT Hall
              (length rest) 1 R0 (d0 * 2 ^ (w * Z.of_nat (length rest))))
    as (st & Est & Hst); [cbn [length]; lia | lia | |].
  - eapply jm_eq; [|exact (Hrep _ _ HR0)]. rewrite Z2Nat.id by lia. reflexivity.
  - change (Z.of_nat 1) with 1 in Est. rewrite Est. cbn [bind].
    exists (snd st). split; [reflexivity|].
    eapply jm_eq; [|exact Hst].
    cbn [skipn]. rewrite <- Hval, digits_value_cons.
    rewrite <- Z.pow_mul_r by lia. lia.
Qed.

End Cached.

(** *** Two points: Shamir's trick *)

Definition bit (d : Z) : Prop := d = 0 \/ d = 1.

Lemma fold_bits_zeros (k : nat) :
  fold_left (fun v d => 2 * v + d) (repeat 0 k) 0 = 0.
Proof. induction k as [|k IH]; [reflexivity | exact IH]. Qed.

Lemma zfill_bits (s : list Z) (n : nat) :
  Forall bit s ->
  Forall bit (zfill s n)
  /\ fold_left (fun v d => 2 * v + d) (zfill s n) 0
     = fold_left (fun v d => 2 * v + d) s 0
  /\ length (zfill s n) = Nat.max n (length s).
Proof.
  intros Hs. unfold zfill. split; [|split].
  - apply Forall_app. split; [|exact Hs].
    apply Forall_forall. intros d Hd. apply repeat_spec in Hd. now left.
  - now rewrite fold_left_app, fold_bits_zeros.
  - rewrite length_app, repeat_length. lia.
Qed.

Lemma py_bin_length (m : Z) : (1 <= length (py_bin m))%nat.
Proof.
  assert (H : forall q, (1 <= length (bin_pos q []))%nat).
  { intros q. destruct q; cbn [bin_pos]; try rewrite bin_pos_app;
      try rewrite length_app; cbn [length]; lia. }
  destruct m; cbn [py_bin length]; auto.
Qed.

Definition shamir_next (xy : Z * Z) (d : Z) : Z * Z :=
  (2 * fst xy + d mod 2, 2 * snd xy + d / 2).

Lemma shamir_digits (ub : list Z) :
  forall (vb : list Z) (x y : Z),
  Forall bit ub -> Forall bit vb -> length ub = length vb ->
  Forall (fun d => 0 <= d < 4)
         (map (fun jk => fst jk + 2 * snd jk) (combine ub vb))
  /\ fold_left shamir_next
       (map (fun jk => fst jk + 2 * snd jk) (combine ub vb)) (x, y)
     = (fold_left (fun v d => 2 * v + d) ub x,
        fold_left (fun v d => 2 * v + d) vb y).
Proof.
  induction ub as [|j ub IH]; intros [|k vb] x y Hu Hv Hlen;
    try discriminate.
  - split; [constructor | reflexivity].
  - apply Forall_cons_iff in Hu, Hv. destruct Hu as [Hj Hu], Hv as [Hk Hv].
    cbn [combine map fold_left fst snd].
    destruct (IH vb (2 * x + j) (2 * y + k) Hu Hv ltac:(cbn in Hlen; lia))
      as [IH1 IH2].
    split.
    + constructor; [destruct Hj, Hk; subst; lia | exact IH1].
    + rewrite <- IH2. f_equal. unfold shamir_next. cbn [fst snd].
      destruct Hj, Hk; subst; reflexivity.
Qed.

Section TwoPoints.

Variables H Q : pt.
Hypothesis HH : oncurve H.
Hypothesis HQ : oncurve Q.
Variables HJ QJ : JacPoint.
Hypothesis HHJ : jrep HJ H.
Hypothesis HQJ : jrep QJ Q.

Definition lin (xy : Z * Z) : pt :=
  padd (pmul (fst xy) H) (pmul (snd xy) Q).

Definition jl (J : JacPoint) (xy : Z * Z) : Prop :=
  0 <= fst xy /\ 0 <= snd xy /\ jrep J (lin xy).

Lemma oncurve_lin (xy : Z * Z) : oncurve (lin xy).
Proof.
  apply (Fp.oncurve_padd _ Hp Hp3 a b no_y0); now apply oncurve_mul.
Qed.

Lemma lin_add (x1 y1 x2 y2 : Z) :
  0 <= x1 -> 0 <= y1 -> 0 <= x2 -> 0 <= y2 ->
  padd (lin (x1, y1)) (lin (x2, y2)) = lin (x1 + x2, y1 + y2).
Proof.
  intros. unfold lin. cbn [fst snd].
  rewrite !(Fp.pmul_add _ Hp Hp3 a b no_y0) by (auto; lia).
  apply (Fp.padd_swap4 _ Hp Hp3 a b no_y0); now apply oncurve_mul.
Qed.

Lemma jl_eq (J : JacPoint) (xy xy' : Z * Z) : xy = xy' -> jl J xy -> jl J xy'.
Proof. now intros ->. Qed.

Lemma jl_double (J : JacPoint) (xy : Z * Z) :
  jl J xy -> jl (_double_jac ec J) (2 * fst xy, 2 * snd xy).
Proof.
  destruct xy as [x y]. cbn [fst snd]. intros (Hx & Hy & HJ0).
  cbn [fst snd] in Hx, Hy.
  split; [cbn [fst snd]; lia|]. split; [cbn [fst snd]; lia|].
  replace (2 * x) with (x + x) by lia. replace (2 * y) with (y + y) by lia.
  rewrite <- lin_add by lia.
  apply jrep_double; [apply oncurve_lin | exact HJ0].
Qed.

Lemma jl_add (J1 J2 : JacPoint) (xy1 xy2 : Z * Z) :
  jl J1 xy1 -> jl J2 xy2 ->
  jl (_add_jac ec J1 J2) (fst xy1 + fst xy2, snd xy1 + snd xy2).
Proof.
  destruct xy1 as [x1 y1], xy2 as [x2 y2]. cbn [fst snd].
  intros (Hx1 & Hy1 & H1) (Hx2 & Hy2 & H2). cbn [fst snd] in *.
  split; [cbn [fst snd]; lia|]. split; [cbn [fst snd]; lia|].
  rewrite <- lin_add by lia.
  apply jrep_add; auto using oncurve_lin, INFJ_ok.
Qed.

Lemma double_mult_rep (u v : Z) :
  0 <= u -> 0 <= v ->
  exists R, _double_mult u HJ v QJ ec = Ret R /\ jl R (u, v).
Proof.
  intros Hu Hv. unfold _double_mult.
  replace (u <? 0) with false by (symmetry; apply Z.ltb_ge; lia).
  replace (v <? 0) with false by (symmetry; apply Z.ltb_ge; lia).
  set (T := [INFJ; HJ; QJ; _add_jac ec HJ QJ]).
  assert (HT : forall d, 0 <= d < 4 ->
            exists t, py_index T d = Ret t /\ jl t (d mod 2, d / 2)).
  { assert (H0 : jl INFJ (0, 0)).
    { split; [cbn [fst snd]; lia|]. split; [cbn [fst snd]; lia|]. exact INFJ_ok. }
    assert (H1 : jl HJ (1, 0)).
    { split; [cbn [fst snd]; lia|]. split; [cbn [fst snd]; lia|].
      unfold lin. cbn [fst snd]. rewrite Fp.pmul_1, Fp.pmul_0.
      now rewrite Fp.padd_None_r. }
    assert (H2 : jl QJ (0, 1)).
    { split; [cbn [fst snd]; lia|]. split; [cbn [fst snd]; lia|].
      unfold lin. cbn [fst snd]. now rewrite Fp.pmul_1, Fp.pmul_0. }
    intros d Hd.
    assert (Hc : d = 0 \/ d = 1 \/ d = 2 \/ d = 3) by lia.
    destruct Hc as [->|[->|[->| ->]]]; eexists; (split; [reflexivity|]).
    - exact H0.
    - exact H1.
    - exact H2.
    - exact (jl_add _ _ _ _ H1 H2). }
  destruct (py_bin_bits u Hu) as [Hub Huv].
  destruct (py_bin_bits v Hv) as [Hvb Hvv].
  destruct (zfill_bits (py_bin v) (length (py_bin u)) Hvb)
    as (Hvb' & Hvv' & Hvl).
  destruct (zfill_bits (py_bin u) (length (zfill (py_bin v) (length (py_bin u))))
              Hub) as (Hub' & Huv' & Hul).
  set (vi := zfill (py_bin v) (length (py_bin u))) in *.
  set (ui := zfill (py_bin u) (length vi)) in *.
  assert (Hlen : length ui = length vi) by lia.
  destruct (shamir_digits ui vi 0 0 Hub' Hvb' Hlen) as [Hd Hfold].
  rewrite Huv', Hvv', Huv, Hvv in Hfold.
  set (digits := map (fun jk => fst jk + 2 * snd jk) (combine ui vi)) in *.
  pose proof (py_bin_length u) as Hlu.
  destruct digits as [|d0 rest] eqn:Edig.
  { exfalso. assert (E : length digits = length ui).
    { unfold digits. rewrite length_map, length_combine. lia. }
    rewrite Edig in E. cbn [length] in E. lia. }
  rewrite (py_index_nth (d0 :: rest) 0 d0) by (try reflexivity; lia).
  cbn [bind tl].
  apply Forall_cons_iff in Hd. destruct Hd as [Hd0 Hrest].
  destruct (HT d0 Hd0) as (R0 & ER0 & HR0).
  rewrite ER0. cbn [bind].
  destruct (foldM_inv jl shamir_next (double_mult_step ec T) rest)
    with (s := R0) (v := shamir_next (0, 0) d0) as (R & ER & HR).
  - intros s xy d Hin Hs.
    rewrite Forall_forall in Hrest. specialize (Hrest d Hin).
    destruct (HT d Hrest) as (t & Et & Ht).
    unfold double_mult_step. rewrite Et. cbn [bind].
    eexists. split; [reflexivity|].
    exact (jl_add _ _ _ _ (jl_double _ _ Hs) Ht).
  - exact HR0.
  - exists R. split; [exact ER|].
    cbn [fold_left] in Hfold. rewrite Hfold in HR. exact HR.
Qed.

End TwoPoints.

(** *** Several points: Bos-Coster *)

Lemma oncurve_add (A B : pt) : oncurve A -> oncurve B -> oncurve (padd A B).
Proof. apply (Fp.oncurve_padd _ Hp Hp3 a b no_y0). Qed.

Lemma add_assoc (A B C : pt) :
  oncurve A -> oncurve B -> oncurve C ->
  padd (padd A B) C = padd A (padd B C).
Proof. apply (Fp.padd_assoc _ Hp Hp3 a b no_y0). Qed.

Lemma add_comm (A B : pt) :
  oncurve A -> oncurve B -> padd A B = padd B A.
Proof. apply (Fp.padd_comm _ Hp Hp3 a b no_y0). Qed.

Lemma entry_ltb_fst (e1 e2 : Z * JacPoint) :
  entry_ltb e1 e2 = false -> fst e2 <= fst e1.
Proof.
  destruct e1 as [n1 [[X1 Y1] Z1]], e2 as [n2 [[X2 Y2] Z2]].
  cbn [entry_ltb fst]. destruct (Z.ltb_spec n1 n2); [discriminate | lia].
Qed.

Lemma entry_ltb_irrefl (e : Z * JacPoint) : entry_ltb e e = false.
Proof.
  destruct e as [n [[X Y] Z]]. cbn [entry_ltb].
  now rewrite !Z.ltb_irrefl, !Z.eqb_refl.
Qed.

Lemma entry_eqb_eq (e1 e2 : Z * JacPoint) : entry_eqb e1 e2 = true -> e1 = e2.
Proof.
  destruct e1 as [n1 [[X1 Y1] Z1]], e2 as [n2 [[X2 Y2] Z2]].
  unfold entry_eqb. cbn [entry_ltb].
  destruct (Z.lt_trichotomy n1 n2) as [Hn|[Hn|Hn]].
  - replace (n1 <? n2) with true by (symmetry; apply Z.ltb_lt; lia).
    discriminate.
  - subst n2. rewrite !Z.ltb_irrefl, !Z.eqb_refl. cbn [orb andb].
    destruct (Z.lt_trichotomy X1 X2) as [HX|[HX|HX]].
    + replace (X1 <? X2) with true by (symmetry; apply Z.ltb_lt; lia).
      discriminate.
    + subst X2. rewrite !Z.ltb_irrefl, !Z.eqb_refl. cbn [orb andb].
      destruct (Z.lt_trichotomy Y1 Y2) as [HY|[HY|HY]].
      * replace (Y1 <? Y2) with true by (symmetry; apply Z.ltb_lt; lia).
        discriminate.
      * subst Y2. rewrite !Z.ltb_irrefl, !Z.eqb_refl. cbn [orb andb].
        destruct (Z.lt_trichotomy Z1 Z2) as [HZ|[HZ|HZ]].
        -- replace (Z1 <? Z2) with true by (symmetry; apply Z.ltb_lt; lia).
           discriminate.
        -- now subst Z2.
        -- replace (Z2 <? Z1) with true by (symmetry; apply Z.ltb_lt; lia).
           rewrite andb_false_r. discriminate.
      * replace (Y2 <? Y1) with true by (symmetry; apply Z.ltb_lt; lia).
        rewrite andb_false_r. discriminate.
    + replace (X2 <? X1) with true by (symmetry; apply Z.ltb_lt; lia).
      rewrite andb_false_r. discriminate.
  - replace (n2 <? n1) with true by (symmetry; apply Z.ltb_lt; lia).
    rewrite andb_false_r. discriminate.
Qed.

Lemma entry_eqb_refl (e : Z * JacPoint) : entry_eqb e e = true.
Proof. unfold entry_eqb. now rewrite entry_ltb_irrefl. Qed.

Lemma heap_min_spec (x : list (Z * JacPoint)) :
  forall e, In (heap_min e x) (e :: x)
    /\ forall e', In e' (e :: x) -> fst (heap_min e x) <= fst e'.
Proof.
  induction x as [|e1 x IH]; intros e; cbn [heap_min].
  - split; [now left|]. intros e' [<-|[]]. lia.
  - destruct (IH (if entry_ltb e1 e then e1 else e)) as [Hin Hmin].
    split.
    + destruct Hin as [Hin|Hin]; [|now right; right].
      rewrite <- Hin. destruct (entry_ltb e1 e); [right; now left | now left].
    + intros e' He'.
      assert (Hsel : fst (if entry_ltb e1 e then e1 else e) <= fst e
                     /\ fst (if entry_ltb e1 e then e1 else e) <= fst e1).
      { destruct (entry_ltb e1 e) eqn:E.
        - split; [|lia].
          destruct e1 as [n1 [[X1 Y1] Z1]], e as [n [[X Y] Z]].
          cbn [entry_ltb fst] in E |- *.
          destruct (Z.ltb_spec n1 n); [lia|]. cbn [orb] in E.
          destruct (Z.eqb_spec n1 n); [lia | discriminate].
        - split; [lia | now apply entry_ltb_fst]. }
      pose proof (Hmin _ (or_introl eq_refl)) as H0.
      destruct He' as [<-|[<-|He']]; try lia.
      apply Hmin. now right.
Qed.

Lemma heap_remove_spec (m : Z * JacPoint) (x : list (Z * JacPoint)) :
  In m x ->
  exists l1 l2, x = l1 ++ m :: l2 /\ heap_remove m x = l1 ++ l2.
Proof.
  induction x as [|e x IH]; intros Hin; [contradiction|].
  cbn [heap_remove]. destruct (entry_eqb m e) eqn:E.
  - apply entry_eqb_eq in E. subst e. now exists [], x.
  - destruct Hin as [->|Hin]; [now rewrite entry_eqb_refl in E|].
    destruct (IH Hin) as (l1 & l2 & -> & E').
    exists (e :: l1), l2. split; [reflexivity|]. now rewrite E'.
Qed.

Lemma heappop_spec (x : list (Z * JacPoint)) :
  x <> [] ->
  exists m l1 l2, heappop x = Ret (m, l1 ++ l2) /\ x = l1 ++ m :: l2
    /\ forall e', In e' x -> fst m <= fst e'.
Proof.
  destruct x as [|e x]; [congruence|]. intros _.
  destruct (heap_min_spec x e) as [Hin Hmin].
  destruct (heap_remove_spec _ _ Hin) as (l1 & l2 & E1 & E2).
  exists (heap_min e x), l1, l2. unfold heappop. rewrite E2.
  split; [reflexivity|]. split; [exact E1 | exact Hmin].
Qed.

(** The sum of n_i P_i over a list of pairs. *)
Definition term (c : Z * pt) : pt := pmul (fst c) (snd c).

Definition psum (ps : list (Z * pt)) : pt :=
  fold_right (fun c acc => padd (term c) acc) None ps.

Definition msum (ps : list (Z * pt)) : Z :=
  fold_right (fun c acc => fst c + acc) 0 ps.

Definition all_oncurve (ps : list (Z * pt)) : Prop :=
  Forall (fun c => oncurve (snd c)) ps.

Lemma oncurve_term (c : Z * pt) : oncurve (snd c) -> oncurve (term c).
Proof. intros H. now apply oncurve_mul. Qed.

Lemma oncurve_psum (ps : list (Z * pt)) : all_oncurve ps -> oncurve (psum ps).
Proof.
  induction 1 as [|c ps Hc Hps IH]; [exact I|].
  cbn [psum fold_right].
  apply (Fp.oncurve_padd _ Hp Hp3 a b no_y0); auto using oncurve_term.
Qed.

Lemma psum_app_cons (p1 p2 : list (Z * pt)) (c : Z * pt) :
  all_oncurve p1 -> all_oncurve p2 -> oncurve (snd c) ->
  psum (p1 ++ c :: p2) = padd (term c) (psum (p1 ++ p2)).
Proof.
  intros H1 H2 Hc. induction H1 as [|d p1 Hd Hp1 IH]; [reflexivity|].
  cbn [app psum fold_right]. fold (psum (p1 ++ c :: p2)). fold (psum (p1 ++ p2)).
  rewrite IH.
  assert (Hs : oncurve (psum (p1 ++ p2))).
  { apply oncurve_psum, Forall_app. now split. }
  rewrite <- !(Fp.padd_assoc _ Hp Hp3 a b no_y0) by auto using oncurve_term.
  f_equal. apply (Fp.padd_comm _ Hp Hp3 a b no_y0); auto using oncurve_term.
Qed.

Lemma msum_app_cons (p1 p2 : list (Z * pt)) (c : Z * pt) :
  msum (p1 ++ c :: p2) = fst c + msum (p1 ++ p2).
Proof.
  induction p1 as [|d p1 IH]; [reflexivity|].
  cbn [app msum fold_right]. fold (msum (p1 ++ c :: p2)). fold (msum (p1 ++ p2)).
  lia.
Qed.

Lemma psum_snoc (ps : list (Z * pt)) (c : Z * pt) :
  all_oncurve ps -> oncurve (snd c) ->
  psum (ps ++ [c]) = padd (psum ps) (term c).
Proof.
  intros Hps Hc. rewrite psum_app_cons by (auto; constructor).
  rewrite app_nil_r.
  apply (Fp.padd_comm _ Hp Hp3 a b no_y0);
    auto using oncurve_term, oncurve_psum.
Qed.

(** A heap entry (-n, J) and the pair (n, P) it stands for. *)
Definition erep (e : Z * JacPoint) (c : Z * pt) : Prop :=
  fst e = - fst c /\ 0 < fst c /\ oncurve (snd c) /\ jrep (snd e) (snd c).

Lemma erep_oncurve (x : list (Z * JacPoint)) (ps : list (Z * pt)) :
  Forall2 erep x ps -> all_oncurve ps.
Proof.
  induction 1 as [|e c x ps He _ IH]; constructor; [|exact IH].
  exact (proj1 (proj2 (proj2 He))).
Qed.

Lemma erep_msum (x : list (Z * JacPoint)) (ps : list (Z * pt)) :
  Forall2 erep x ps ->
  fold_right Z.add 0 (map (fun e => - fst e) x) = msum ps
  /\ Z.of_nat (length x) <= msum ps.
Proof.
  induction 1 as [|e c x ps He _ [IH1 IH2]]; [split; reflexivity|].
  destruct He as (E & Hpos & _). cbn [map fold_right msum length].
  fold (msum ps). split; lia.
Qed.

(** Popping an entry takes its pair out of the sum. *)
Lemma heappop_rep (x : list (Z * JacPoint)) (ps : list (Z * pt)) :
  x <> [] -> Forall2 erep x ps ->
  exists e x' c ps', heappop x = Ret (e, x')
    /\ erep e c /\ Forall2 erep x' ps'
    /\ psum ps = padd (term c) (psum ps')
    /\ msum ps = fst c + msum ps'
    /\ length x = S (length x')
    /\ forall e', In e' x' -> fst e <= fst e'.
Proof.
  intros Hne Hrep.
  destruct (heappop_spec x Hne) as (m & l1 & l2 & E & Ex & Hmin).
  rewrite Ex in Hrep.
  apply Forall2_app_inv_l in Hrep.
  destruct Hrep as (p1 & p2' & H1 & H2 & Eps).
  inversion H2 as [|? c ? p2 Hm H2' E1 E2]. subst p2'.
  pose proof (erep_oncurve _ _ H1) as Ho1.
  pose proof (erep_oncurve _ _ H2') as Ho2.
  exists m, (l1 ++ l2), c, (p1 ++ p2). split; [exact E|].
  split; [exact Hm|]. split; [now apply Forall2_app|].
  rewrite Eps. split; [|split; [|split]].
  - apply psum_app_cons; auto. exact (proj1 (proj2 (proj2 Hm))).
  - apply msum_app_cons.
  - rewrite Ex, !length_app. cbn [length]. lia.
  - intros e' He'. apply Hmin. rewrite Ex.
    apply in_app_or in He'. apply in_or_app.
    destruct He'; [now left | right; now right].
Qed.

Lemma multi_mult_loop_rep (fuel : nat) :
  forall (x : list (Z * JacPoint)) (ps : list (Z * pt)),
  x <> [] -> Forall2 erep x ps -> msum ps <= Z.of_nat fuel ->
  exists e c, multi_mult_loop fuel ec x = Ret [e]
    /\ erep e c /\ term c = psum ps.
Proof.
  induction fuel as [|fuel IH]; intros x ps Hne Hrep Hfuel;
    destruct (erep_msum _ _ Hrep) as [_ Hlen].
  - (* no fuel: a single entry *)
    destruct x as [|e [|e2 x]]; [congruence| |cbn [length] in Hlen; lia].
    inversion Hrep as [|? c ? ps' He Hnil]. subst.
    inversion Hnil. subst.
    exists e, c. split; [reflexivity|]. split; [exact He|].
    cbn [psum fold_right]. now rewrite Fp.padd_None_r.
  - cbn [multi_mult_loop].
    destruct (Z.ltb_spec 1 (Z.of_nat (length x))) as [Hlong|Hshort].
    2:{ destruct x as [|e [|e2 x]]; [congruence| |cbn [length] in Hshort; lia].
        inversion Hrep as [|? c ? ps' He Hnil]. subst.
        inversion Hnil. subst.
        exists e, c. split; [reflexivity|]. split; [exact He|].
        cbn [psum fold_right]. now rewrite Fp.padd_None_r. }
    destruct (heappop_rep x ps Hne Hrep)
      as (e1 & x1 & c1 & ps1 & E1 & He1 & Hrep1 & Hs1 & Hm1 & Hl1 & Hmin1).
    rewrite E1. cbn [bind].
    assert (Hne1 : x1 <> []) by (intros ->; cbn [length] in Hl1; lia).
    destruct (heappop_rep x1 ps1 Hne1 Hrep1)
      as (e2 & x2 & c2 & ps2 & E2 & He2 & Hrep2 & Hs2 & Hm2 & Hl2 & _).
    rewrite E2. cbn [bind].
    assert (Hin2 : In e2 x1).
    { destruct (heappop_spec x1 Hne1) as (m & l1 & l2 & E & Ex & _).
      rewrite E in E2. injection E2 as <- _. rewrite Ex.
      apply in_or_app. right. now left. }
    pose proof (Hmin1 e2 Hin2) as Hord.
    destruct He1 as (Ef1 & Hp1 & Ho1 & Hj1), He2 as (Ef2 & Hp2 & Ho2 & Hj2).
    destruct c1 as [n1 P1], c2 as [n2 P2]. cbn [fst snd] in *.
    pose proof (erep_oncurve _ _ Hrep2) as Hops2.
    pose proof (oncurve_psum _ Hops2) as Hos2.
    replace (- fst e1 - - fst e2) with (n1 - n2) by lia.
    replace (- (n1 - n2)) with (- (n1 - n2)) by reflexivity.
    set (x' := heappush
                 (if 0 <? n1 - n2 then heappush x2 (- (n1 - n2), snd e1)
                  else x2) (- - fst e2, _add_jac ec (snd e1) (snd e2))).
    set (ps' := (n2, padd P1 P2)
                :: (if 0 <? n1 - n2 then (n1 - n2, P1) :: ps2 else ps2)).
    assert (Hrep' : Forall2 erep x' ps').
    { unfold x', ps', heappush. constructor.
      - split; [cbn [fst]; lia|]. split; [exact Hp2|]. split.
        + now apply (Fp.oncurve_padd _ Hp Hp3 a b no_y0).
        + cbn [snd]. apply jrep_add; auto using INFJ_ok.
      - destruct (Z.ltb_spec 0 (n1 - n2)); [|exact Hrep2].
        constructor; [|exact Hrep2].
        split; [reflexivity|]. split; [assumption|]. split; assumption. }
    assert (Hsum : psum ps' = psum ps).
    { rewrite Hs1, Hs2. unfold ps', term. cbn [psum fold_right fst snd].
      fold (psum ps2).
      assert (E : psum (if 0 <? n1 - n2 then (n1 - n2, P1) :: ps2 else ps2)
                  = padd (pmul (n1 - n2) P1) (psum ps2)).
      { destruct (Z.ltb_spec 0 (n1 - n2)); [reflexivity|].
        replace (n1 - n2) with 0 by lia. now rewrite Fp.pmul_0. }
      fold (psum (if 0 <? n1 - n2 then (n1 - n2, P1) :: ps2 else ps2)).
      rewrite E. unfold term. cbn [fst snd].
      rewrite (Fp.pmul_padd _ Hp Hp3 a b no_y0) by (auto; lia).
      replace n1 with (n2 + (n1 - n2)) at 2 by lia.
      rewrite (Fp.pmul_add _ Hp Hp3 a b no_y0 n2 (n1 - n2)) by (auto; lia).
      set (A := pmul n2 P1). set (B := pmul n2 P2).
      set (C := pmul (n1 - n2) P1). set (S2 := psum ps2).
      assert (HA : oncurve A) by now apply oncurve_mul.
      assert (HB : oncurve B) by now apply oncurve_mul.
      assert (HC : oncurve C) by now apply oncurve_mul.
      rewrite (add_assoc A B), (add_assoc A C) by auto using oncurve_add.
      f_equal.
      rewrite <- !add_assoc by auto.
      f_equal. now apply add_comm. }
    assert (Hmes : msum ps' <= Z.of_nat fuel).
    { unfold ps'. cbn [msum fold_right fst]. fold (msum ps2).
      assert (E : msum (if 0 <? n1 - n2 then (n1 - n2, P1) :: ps2 else ps2)
                  <= n1 - n2 + msum ps2).
      { destruct (Z.ltb_spec 0 (n1 - n2)); [reflexivity|]. lia. }
      fold (msum (if 0 <? n1 - n2 then (n1 - n2, P1) :: ps2 else ps2)).
      lia. }
    destruct (IH x' ps') as (e & c & E & He & Hc); auto.
    { unfold x', heappush. discriminate. }
    exists e, c. split; [exact E|]. split; [exact He|]. congruence.
Qed.

Definition points_rep (JPoints : list JacPoint) (Ps : list pt) : Prop :=
  Forall2 (fun J P => oncurve P /\ jrep J P) JPoints Ps.

Lemma points_rep_oncurve (scalars : list Z) :
  forall (JPoints : list JacPoint) (Ps : list pt),
  points_rep JPoints Ps -> all_oncurve (combine scalars Ps).
Proof.
  induction scalars as [|n scalars IH]; intros JPoints Ps H; [constructor|].
  destruct H as [|J P l Ps' [HP _] H]; [constructor|].
  cbn [combine]. constructor; [exact HP | exact (IH _ _ H)].
Qed.

Lemma multi_mult_filter_rep (scalars : list Z) :
  forall (JPoints : list JacPoint) (Ps : list pt)
         (x0 : list (Z * JacPoint)) (ps0 : list (Z * pt)),
  Forall (fun n => 0 <= n) scalars ->
  points_rep JPoints Ps -> length scalars = length JPoints ->
  Forall2 erep x0 ps0 ->
  exists x ps, multi_mult_filter (combine scalars JPoints) x0 = Ret x
    /\ Forall2 erep x ps
    /\ psum ps = padd (psum ps0) (psum (combine scalars Ps)).
Proof.
  induction scalars as [|n scalars IH];
    intros JPoints Ps x0 ps0 Hn HJ Hlen H0.
  - exists x0, ps0. split; [reflexivity|]. split; [exact H0|].
    cbn [combine psum fold_right]. now rewrite Fp.padd_None_r.
  - destruct HJ as [|J P JPoints Ps [HP HJP] HJ]; [discriminate|].
    apply Forall_cons_iff in Hn. destruct Hn as [Hn0 Hn].
    pose proof (erep_oncurve _ _ H0) as Ho0.
    pose proof (points_rep_oncurve scalars _ _ HJ) as Hor.
    cbn [combine multi_mult_filter psum fold_right].
    fold (psum (combine scalars Ps)).
    destruct (Z.eqb_spec n 0) as [->|Hnz].
    + destruct (IH JPoints Ps x0 ps0 Hn HJ ltac:(cbn in Hlen; lia) H0)
        as (x & ps & E & Hx & Hs).
      exists x, ps. split; [exact E|]. split; [exact Hx|].
      rewrite Hs. unfold term. cbn [fst snd].
      now rewrite Fp.pmul_0, Fp.padd_None_l.
    + replace (n <? 0) with false by (symmetry; apply Z.ltb_ge; lia).
      destruct (IH JPoints Ps (x0 ++ [(- n, J)]) (ps0 ++ [(n, P)])
                  Hn HJ ltac:(cbn in Hlen; lia))
        as (x & ps & E & Hx & Hs).
      { apply Forall2_app; [exact H0|]. constructor; [|constructor].
        split; [reflexivity|]. split; [cbn [fst]; lia|]. now split. }
      exists x, ps. split; [exact E|]. split; [exact Hx|].
      rewrite Hs, psum_snoc by assumption.
      apply add_assoc; auto using oncurve_psum, oncurve_term.
Qed.

Lemma multi_mult_rep (scalars : list Z) (JPoints : list JacPoint)
  (Ps : list pt) :
  Forall (fun n => 0 <= n) scalars ->
  points_rep JPoints Ps -> length scalars = length JPoints ->
  exists R, _multi_mult scalars JPoints ec = Ret R
    /\ jrep R (psum (combine scalars Ps)).
Proof.
  intros Hn HJ Hlen. unfold _multi_mult.
  rewrite Hlen, Nat.eqb_refl. cbn [negb].
  destruct (multi_mult_filter_rep scalars JPoints Ps [] [] Hn HJ Hlen
              (Forall2_nil _)) as (x & ps & E & Hx & Hs).
  rewrite E. cbn [bind].
  cbn [psum fold_right] in Hs. rewrite Fp.padd_None_l in Hs.
  destruct x as [|e0 x0].
  - inversion Hx. subst. cbn [psum fold_right] in Hs. rewrite <- Hs.
    eexists. split; [reflexivity | exact INFJ_ok].
  - unfold heapify.
    destruct (erep_msum _ _ Hx) as [Hfuel Hlen'].
    destruct (multi_mult_loop_rep
                (Z.to_nat (fold_right Z.add 0
                             (map (fun e => - fst e) (e0 :: x0))))
                (e0 :: x0) ps ltac:(discriminate) Hx)
      as (e & c & El & (Ef & Hpos & Ho & Hj) & Hc).
    { rewrite Hfuel. cbn [length] in Hlen'. lia. }
    rewrite El. cbn [bind heappop heap_min].
    destruct (mult_fixed_window_rep (snd c) Ho (snd e) Hj (fst c) 4)
      as (R & ER & _ & HR); [lia | lia |].
    exists R. split.
    + unfold _mult. rewrite Ef, Z.opp_involutive. cbn [fst snd]. exact ER.
    + rewrite <- Hs, <- Hc. exact HR.
Qed.

(** The affine sum of the multiples, by the functions of the code. *)
Fixpoint affine_sum (l : list (Z * JacPoint)) (acc : Point) : result Point :=
  match l with
  | [] => Ret acc
  | (n, J) :: l' =>
    R <- _mult n J ec ;;
    A <- _aff_from_jac ec R ;;
    acc' <- add ec acc A ;;
    affine_sum l' acc'
  end.

Lemma affine_sum_rep (scalars : list Z) :
  forall (JPoints : list JacPoint) (Ps : list pt) (S : pt),
  Forall (fun n => 0 <= n) scalars ->
  points_rep JPoints Ps -> length scalars = length JPoints ->
  oncurve S ->
  affine_sum (combine scalars JPoints) (acanon S)
  = Ret (acanon (padd S (psum (combine scalars Ps)))).
Proof.
  induction scalars as [|n scalars IH]; intros JPoints Ps S Hn HJ Hlen HS.
  - cbn [combine affine_sum psum fold_right]. now rewrite Fp.padd_None_r.
  - destruct HJ as [|J P JPoints Ps [HP HJP] HJ]; [discriminate|].
    apply Forall_cons_iff in Hn. destruct Hn as [Hn0 Hn].
    pose proof (points_rep_oncurve scalars _ _ HJ) as Hor.
    cbn [combine affine_sum psum fold_right].
    fold (psum (combine scalars Ps)).
    destruct (mult_fixed_window_rep P HP J HJP n 4) as (R & ER & HR);
      [lia | lia |].
    unfold _mult. rewrite ER. cbn [bind].
    rewrite (jm_affine P R n HR). cbn [bind].
    rewrite add_rep by (auto using oncurve_mul). cbn [bind].
    rewrite (IH JPoints Ps) by (auto using oncurve_add, oncurve_mul;
                                cbn in Hlen; lia).
    do 2 f_equal. unfold term. cbn [fst snd].
    apply add_assoc; auto using oncurve_psum, oncurve_mul.
Qed.

(** *** Points the code computes with *)

(** A finite point of the curve, as the affine functions take it. *)
Definition finite_on_curve (Q : Point) : Prop :=
  is_on_curve ec Q = Ret true /\ snd Q <> 0 /\ 0 <= fst Q < ec.(p).

(** The affine pairs of the library: the constant [INF] and the finite
    points of the curve. *)
Definition valid_point (Q : Point) : Prop := Q = INF \/ finite_on_curve Q.

(** The Jacobian triples of the library: Z = 0 with X, Y that do not
    vanish together modulo p, or an invertible Z and a finite point of
    the curve as affine image. *)
Definition valid_jac (J : JacPoint) : Prop :=
  (snd J = 0
   /\ (fst (fst J) mod ec.(p) <> 0 \/ snd (fst J) mod ec.(p) <> 0))
  \/ (snd J mod ec.(p) <> 0
      /\ exists A, _aff_from_jac ec J = Ret A /\ finite_on_curve A).

Lemma finite_on_curve_rep (Q : Point) :
  finite_on_curve Q ->
  oncurve (point_of Q) /\ jrep (_jac_from_aff Q) (point_of Q)
  /\ acanon (point_of Q) = Q.
Proof.
  intros (Hc & Hy & Hx). split; [|split].
  - now apply is_on_curve_point.
  - now apply jrep_jac_from_aff.
  - now apply acanon_point_of.
Qed.

Lemma point_of_INF : point_of INF = None.
Proof. unfold point_of. now rewrite INF_y. Qed.

Lemma valid_point_rep (Q : Point) :
  valid_point Q -> oncurve (point_of Q) /\ acanon (point_of Q) = Q.
Proof.
  intros [->|H].
  - rewrite point_of_INF. now split.
  - destruct (finite_on_curve_rep Q H) as (H1 & _ & H2). now split.
Qed.

Lemma acanon_finite (A : Zmod ec.(p) * Zmod ec.(p)) :
  oncurve (Some A) -> finite_on_curve (acanon (Some A)).
Proof.
  intros HP. split; [now apply is_on_curve_acanon|].
  destruct A as [x y]. cbn [acanon fst snd]. split.
  - apply to_Z_nz. exact (Fp.oncurve_y_nz _ Hp a b no_y0 _ _ HP).
  - apply to_Z_range.
Qed.

Lemma acanon_valid (P : pt) : oncurve P -> valid_point (acanon P).
Proof.
  destruct P as [A|]; intros HP; [right; now apply acanon_finite | now left].
Qed.

Lemma point_of_acanon (P : pt) : oncurve P -> point_of (acanon P) = P.
Proof.
  destruct P as [[x y]|]; intros HP; [|apply point_of_INF].
  unfold point_of. cbn [acanon fst snd].
  pose proof (to_Z_nz y (Fp.oncurve_y_nz _ Hp a b no_y0 _ _ HP)) as Hy.
  apply Z.eqb_neq in Hy. rewrite Hy. now rewrite !toF_to_Z.
Qed.

Lemma negate_acanon (P : pt) : negate ec (acanon P) = acanon (pneg P).
Proof.
  pose proof Hp3 as H3.
  destruct P as [[x y]|]; cbn [acanon Fp.pneg].
  - unfold negate. f_equal. rewrite ZmodBase.Zmod.to_Z_opp.
    replace (ec.(p) - Zmod.to_Z y) with (- Zmod.to_Z y + 1 * ec.(p)) by ring.
    now rewrite Z.mod_add by lia.
  - destruct INF as [x0 y0]. cbn [snd] in INF_y. subst y0. unfold negate.
    now rewrite Z.sub_0_r, Z.mod_same by lia.
Qed.

Lemma valid_jac_rep (J : JacPoint) :
  valid_jac J -> exists P : pt, oncurve P /\ jrep J P.
Proof.
  destruct J as [[X Y] Z]. unfold valid_jac. cbn [fst snd].
  intros [[-> HXY]|[HZ (A & EA & HA)]].
  - exists None. split; [exact I|]. split; [|reflexivity].
    cbn [jF Fp.jrepF]. split; [apply toF_0|].
    destruct HXY as [H|H]; [left|right]; now apply toF_nz.
  - apply toF_nz in HZ.
    set (x := Zmod.mul (toF X) (Zmod.inv (Zmod.mul (toF Z) (toF Z)))).
    set (y := Zmod.mul (toF Y)
                (Zmod.inv (Zmod.mul (Zmod.mul (toF Z) (toF Z)) (toF Z)))).
    assert (HJ : jrep (X, Y, Z) (Some (x, y))).
    { split; [|discriminate]. cbn [jF Fp.jrepF Fp.frep].
      split; [exact HZ|]. unfold x, y.
      rewrite !ZmodBase.Zmod.mul_inv_r. split; field; exact HZ. }
    clearbody x y. exists (Some (x, y)). split; [|exact HJ].
    rewrite (aff_from_jac_rep _ _ HJ) in EA. injection EA as <-.
    destruct HA as (Hc & Hy & _).
    apply is_on_curve_point in Hc. unfold point_of in Hc.
    apply Z.eqb_neq in Hy. rewrite Hy in Hc.
    cbn [acanon fst snd] in Hc. now rewrite !toF_to_Z in Hc.
Qed.

Lemma rep_valid_jac (J : JacPoint) (P : pt) :
  oncurve P -> jrep J P -> valid_jac J.
Proof.
  destruct J as [[X Y] Z], P as [A|]; intros HP HJ.
  - right. cbn [snd]. split.
    + destruct A as [x y]. destruct HJ as [(HZ & _) _]. now apply toF_nz.
    + exists (acanon (Some A)).
      split; [now apply aff_from_jac_rep | now apply acanon_finite].
  - left. destruct HJ as [(HZ & HXY) H0]. cbn [fst snd].
    split; [now apply H0|].
    destruct HXY as [H|H]; [left|right]; now apply toF_nz.
Qed.

(** *** The group law of [add] *)

(** X1. On the valid points of a curve without points of order two,
    [add] never fails and returns a valid point. *)
Theorem add_closed (Q1 Q2 : Point) :
  valid_point Q1 -> valid_point Q2 ->
  exists A, add ec Q1 Q2 = Ret A /\ valid_point A.
Proof.
  intros H1 H2.
  destruct (valid_point_rep Q1 H1) as [HP1 E1].
  destruct (valid_point_rep Q2 H2) as [HP2 E2].
  exists (acanon (padd (point_of Q1) (point_of Q2))). split.
  - rewrite <- E1 at 1. rewrite <- E2 at 1. now apply add_rep.
  - apply acanon_valid. now apply oncurve_add.
Qed.

(** X2. [add] is commutative on the valid points: the two orders
    return the same point. *)
Theorem add_commutative (Q1 Q2 : Point) :
  valid_point Q1 -> valid_point Q2 ->
  exists A, add ec Q1 Q2 = Ret A /\ add ec Q2 Q1 = Ret A.
Proof.
  intros H1 H2.
  destruct (valid_point_rep Q1 H1) as [HP1 E1].
  destruct (valid_point_rep Q2 H2) as [HP2 E2].
  remember (point_of Q1) as P1 eqn:R1. remember (point_of Q2) as P2 eqn:R2.
  clear R1 R2 H1 H2. subst Q1 Q2.
  exists (acanon (padd P1 P2)).
  rewrite !add_rep by assumption.
  split; [reflexivity|]. now rewrite add_comm.
Qed.

(** X3. [add] is associative on the valid points: adding Q3 to the sum
    of Q1 and Q2 returns the point that adding Q1 to the sum of Q2 and
    Q3 returns. *)
Theorem add_associative (Q1 Q2 Q3 : Point) :
  valid_point Q1 -> valid_point Q2 -> valid_point Q3 ->
  exists S,
    (A <- add ec Q1 Q2 ;; add ec A Q3) = Ret S
    /\ (B <- add ec Q2 Q3 ;; add ec Q1 B) = Ret S
    /\ valid_point S.
Proof.
  intros H1 H2 H3.
  destruct (valid_point_rep Q1 H1) as [HP1 E1].
  destruct (valid_point_rep Q2 H2) as [HP2 E2].
  destruct (valid_point_rep Q3 H3) as [HP3 E3].
  remember (point_of Q1) as P1 eqn:R1. remember (point_of Q2) as P2 eqn:R2.
  remember (point_of Q3) as P3 eqn:R3.
  clear R1 R2 R3 H1 H2 H3. subst Q1 Q2 Q3.
  exists (acanon (padd (padd P1 P2) P3)).
  rewrite !add_rep by assumption. cbn [bind].
  rewrite !add_rep by (auto using oncurve_add).
  split; [reflexivity|]. split; [now rewrite add_assoc|].
  apply acanon_valid. auto using oncurve_add.
Qed.

(** X4. [INF] is the neutral element of [add] on both sides, and
    [negate] gives the inverse: the opposite of a valid point is valid
    and its sum with the point, in either order, is [INF]. *)
Theorem add_neutral_inverse (Q : Point) :
  valid_point Q ->
  add ec INF Q = Ret Q /\ add ec Q INF = Ret Q
  /\ valid_point (negate ec Q)
  /\ add ec Q (negate ec Q) = Ret INF
  /\ add ec (negate ec Q) Q = Ret INF.
Proof.
  intros H. destruct (valid_point_rep Q H) as [HP E].
  set (P := point_of Q) in *.
  pose proof (Fp.oncurve_pneg _ Hp _ _ _ HP) as HN.
  rewrite <- E. rewrite negate_acanon.
  change INF with (acanon None).
  rewrite !add_rep by (assumption || exact I).
  rewrite Fp.padd_None_l, Fp.padd_None_r.
  rewrite (Fp.padd_comm _ Hp Hp3 _ _ no_y0 (pneg P) P) by assumption.
  rewrite (Fp.padd_pneg _ Hp Hp3 _ _ no_y0 P HP).
  repeat split; try reflexivity. now apply acanon_valid.
Qed.

(** *** Jacobian coordinates *)

Lemma acanon_inj (P1 P2 : pt) :
  oncurve P1 -> oncurve P2 -> acanon P1 = acanon P2 -> P1 = P2.
Proof.
  intros H1 H2 E.
  rewrite <- (point_of_acanon P1 H1), <- (point_of_acanon P2 H2).
  now rewrite E.
Qed.

Lemma jac_equality_eq (Q R : JacPoint) :
  _jac_equality ec Q R = same_jac Q R.
Proof.
  destruct Q as [[Q0 Q1] Q2], R as [[R0 R1] R2].
  unfold _jac_equality, same_jac. rewrite !mod_eqb_sub.
  cbn [jF snd Fp.jeqX Fp.jeqY].
  cbv [Fp.opsF Fp.oc Fp.oadd Fp.osub Fp.omul].
  unfold Fp.toF. rewrite !ZmodBase.Zmod.of_Z_mul. fold (Fp.toF ec.(p)).
  match goal with |- context [negb ?c] => destruct c end; reflexivity.
Qed.

Lemma same_jac_rep (J1 J2 : JacPoint) (P1 P2 : pt) :
  oncurve P1 -> oncurve P2 -> jrep J1 P1 -> jrep J2 P2 ->
  same_jac J1 J2 = true <-> P1 = P2.
Proof.
  intros HP1 HP2 H1 H2. unfold same_jac.
  rewrite andb_true_iff, !ZmodBase.Zmod.eqb_eq.
  destruct J1 as [[X1 Y1] Z1], J2 as [[X2 Y2] Z2].
  destruct P1 as [[x1 y1]|], P2 as [[x2 y2]|].
  - destruct H1 as [H1 _], H2 as [H2 _]. cbn [Fp.jrepF] in H1, H2.
    destruct (Fp.frep_same _ Hp _ _ _ _ _ _ H1 H2) as [HX HY].
    rewrite HX, HY. split; [intros [-> ->]; reflexivity|].
    intros E. injection E as -> ->. now split.
  - destruct H1 as [(HZ1 & _) _]. destruct H2 as [(HZ2 & HXY) _].
    cbn [jF] in *. rewrite HZ2.
    pose proof (Fp.jeq_inf_r _ Hp (toF X1) (toF Y1) (toF Z1) (toF X2) (toF Y2)
                  HZ1 HXY) as Hn.
    split; [tauto | discriminate].
  - destruct H2 as [(HZ2 & _) _]. destruct H1 as [(HZ1 & HXY) _].
    cbn [jF] in *. rewrite HZ1.
    pose proof (Fp.jeq_inf_l _ Hp (toF X1) (toF Y1) (toF X2) (toF Y2) (toF Z2)
                  HZ2 HXY) as Hn.
    split; [tauto | discriminate].
  - destruct H1 as [(HZ1 & _) _]. destruct H2 as [(HZ2 & _) _].
    cbn [jF] in *. rewrite HZ1, HZ2.
    pose proof (Fp.jeq_inf_inf _ Hp (toF X1) (toF Y1) (toF X2) (toF Y2)).
    tauto.
Qed.

Lemma toF_modulus : toF ec.(p) = Zmod.zero.
Proof. apply toF_0_iff. apply Z.mod_same. pose proof Hp3. lia. Qed.

Lemma jrep_negate (J : JacPoint) (P : pt) :
  jrep J P -> jrep (negate_jac ec J) (pneg P).
Proof.
  destruct J as [[X Y] Z]. intros [HJ H0].
  assert (E : toF ((ec.(p) - Y) mod ec.(p)) = Zmod.opp (toF Y)).
  { pose proof toF_modulus as Ep. unfold Fp.toF in *.
    rewrite ZmodBase.Zmod.of_Z_mod, ZmodBase.Zmod.of_Z_sub, Ep. ring. }
  destruct P as [[x y]|].
  - split; [|discriminate]. cbn [negate_jac jF Fp.pneg Fp.jrepF]. rewrite E.
    destruct HJ as (HZ & -> & ->). cbn [Fp.frep].
    split; [exact HZ|]. split; ring.
  - split; [|exact H0]. cbn [negate_jac jF Fp.pneg Fp.jrepF]. rewrite E.
    destruct HJ as (HZ & HXY). split; [exact HZ|].
    destruct HXY as [H|H]; [now left|right].
    intros E0. apply H.
    replace (toF Y) with (Zmod.opp (Zmod.opp (toF Y))) by ring.
    rewrite E0. ring.
Qed.

(** X5. On valid Jacobian triples of a curve without points of order
    two, [_add_jac] and [_double_jac] return valid triples, and their
    affine images are the sums that [add] computes on the affine
    images of the operands. *)
Theorem jac_operations_spec (J1 J2 : JacPoint) :
  valid_jac J1 -> valid_jac J2 ->
  valid_jac (_add_jac ec J1 J2) /\ valid_jac (_double_jac ec J1)
  /\ exists A1 A2 A D,
       _aff_from_jac ec J1 = Ret A1 /\ _aff_from_jac ec J2 = Ret A2
       /\ _aff_from_jac ec (_add_jac ec J1 J2) = Ret A
       /\ add ec A1 A2 = Ret A
       /\ _aff_from_jac ec (_double_jac ec J1) = Ret D
       /\ add ec A1 A1 = Ret D.
Proof.
  intros H1 H2.
  destruct (valid_jac_rep J1 H1) as (P1 & HP1 & HJ1).
  destruct (valid_jac_rep J2 H2) as (P2 & HP2 & HJ2).
  pose proof (jrep_add J1 J2 P1 P2 INFJ_ok HP1 HP2 HJ1 HJ2) as Ha.
  pose proof (jrep_double J1 P1 HP1 HJ1) as Hd.
  pose proof (oncurve_add P1 P2 HP1 HP2) as Hoa.
  pose proof (oncurve_add P1 P1 HP1 HP1) as Hod.
  split; [exact (rep_valid_jac _ _ Hoa Ha)|].
  split; [exact (rep_valid_jac _ _ Hod Hd)|].
  exists (acanon P1), (acanon P2), (acanon (padd P1 P2)),
    (acanon (padd P1 P1)).
  rewrite !add_rep by assumption.
  repeat split; try reflexivity; now apply aff_from_jac_rep.
Qed.

(** X6. [_jac_equality] decides equality of the affine images: on
    valid Jacobian triples it answers True exactly when
    [_aff_from_jac] gives the same point for both. *)
Theorem jac_equality_spec (J1 J2 : JacPoint) :
  valid_jac J1 -> valid_jac J2 ->
  _jac_equality ec J1 J2 = true
  <-> _aff_from_jac ec J1 = _aff_from_jac ec J2.
Proof.
  intros H1 H2.
  destruct (valid_jac_rep J1 H1) as (P1 & HP1 & HJ1).
  destruct (valid_jac_rep J2 H2) as (P2 & HP2 & HJ2).
  rewrite jac_equality_eq, (same_jac_rep J1 J2 P1 P2) by assumption.
  rewrite (aff_from_jac_rep _ _ HJ1), (aff_from_jac_rep _ _ HJ2).
  split; [now intros -> |].
  intros E. injection E as E. now apply acanon_inj.
Qed.

(** X7. [negate_jac] gives the opposite point: the negated triple is
    valid, its affine image is [negate] of the affine image, and its
    sum with the triple, by [_add_jac], is a point at infinity. *)
Theorem negate_jac_spec (J : JacPoint) :
  valid_jac J ->
  valid_jac (negate_jac ec J)
  /\ exists A,
       _aff_from_jac ec J = Ret A
       /\ _aff_from_jac ec (negate_jac ec J) = Ret (negate ec A)
       /\ _aff_from_jac ec (_add_jac ec J (negate_jac ec J)) = Ret INF
       /\ snd (_add_jac ec J (negate_jac ec J)) = 0.
Proof.
  intros H. destruct (valid_jac_rep J H) as (P & HP & HJ).
  pose proof (Fp.oncurve_pneg _ Hp _ _ _ HP) as HN.
  pose proof (jrep_negate J P HJ) as HJN.
  pose proof (jrep_add _ _ _ _ INFJ_ok HP HN HJ HJN) as Ha.
  rewrite (Fp.padd_pneg _ Hp Hp3 _ _ no_y0 P HP) in Ha.
  split; [exact (rep_valid_jac _ _ HN HJN)|].
  exists (acanon P). rewrite negate_acanon.
  split; [now apply aff_from_jac_rep|].
  split; [now apply aff_from_jac_rep|].
  split; [exact (aff_from_jac_rep _ _ Ha)|].
  exact (proj2 Ha eq_refl).
Qed.

Lemma mod_inv_none (z : Z) :
  z mod ec.(p) = 0 -> mod_inv z ec.(p) = Raise (ValueError "no inverse").
Proof. intros H. unfold mod_inv. now rewrite H. Qed.

(** X8. [_aff_from_jac] divides X by Z^2 and Y by Z^3 in the field: for
    Z invertible modulo p it returns the reduced pair (x, y) with
    x Z^2 = X and y Z^3 = Y modulo p, and [_x_aff_from_jac] returns the
    same x.  For Z = 0 the first returns [INF] and the second raises
    ValueError; for a nonzero multiple of p both fail in [mod_inv]. *)
Theorem aff_from_jac_spec (X Y Z : Z) :
  (Z = 0 ->
     _aff_from_jac ec (X, Y, Z) = Ret INF
     /\ _x_aff_from_jac ec (X, Y, Z)
        = Raise (ValueError "infinity point has no x-coordinate"))
  /\ (Z <> 0 -> Z mod ec.(p) = 0 ->
      _aff_from_jac ec (X, Y, Z) = Raise (ValueError "no inverse")
      /\ _x_aff_from_jac ec (X, Y, Z) = Raise (ValueError "no inverse"))
  /\ (Z mod ec.(p) <> 0 ->
      exists x y,
        _aff_from_jac ec (X, Y, Z) = Ret (x, y)
        /\ _x_aff_from_jac ec (X, Y, Z) = Ret x
        /\ 0 <= x < ec.(p) /\ 0 <= y < ec.(p)
        /\ x * (Z * Z) mod ec.(p) = X mod ec.(p)
        /\ y * (Z * Z * Z) mod ec.(p) = Y mod ec.(p)).
Proof using Hp Hp3.
  pose proof Hp3 as H3.
  split; [|split].
  - intros ->. split; reflexivity.
  - intros HZ H0. apply Z.eqb_neq in HZ.
    unfold _aff_from_jac, _x_aff_from_jac. rewrite HZ.
    rewrite mod_inv_none; [split; reflexivity|].
    rewrite Z.mul_mod, H0 by lia. reflexivity.
  - intros HZ.
    assert (HZ0 : (Z =? 0) = false)
      by (apply Z.eqb_neq; intros ->; now rewrite Z.mod_0_l in HZ by lia).
    apply toF_nz in HZ.
    unfold _aff_from_jac, _x_aff_from_jac. rewrite HZ0.
    rewrite !mod_inv_ok
      by (toF_push; repeat apply (Fp.Fmul_nz _ Hp); exact HZ).
    cbn [bind]. eexists _, _.
    split; [reflexivity|]. split; [reflexivity|].
    split; [apply Z.mod_pos_bound; lia|].
    split; [apply Z.mod_pos_bound; lia|].
    split; apply toF_eq; toF_push; rewrite toF_invmod; toF_push;
      rewrite ZmodBase.Zmod.mul_inv_r; field; exact HZ.
Qed.

(** X9. A triple with Z = 0 as an operand of [_add_jac].  When its X
    and Y do not vanish together modulo p, the other operand (with Z
    invertible) is returned unchanged.  When both vanish, as in the
    triple (0, 0, 0), the doubling branch is taken instead: the sum is
    (0, 0, 0) with the triple on the left, and the double of the other
    operand with the triple on the right. *)
Theorem add_jac_infinity_operand (Q R : JacPoint) :
  snd Q = 0 ->
  (fst (fst Q) mod ec.(p) <> 0 \/ snd (fst Q) mod ec.(p) <> 0 ->
   snd R mod ec.(p) <> 0 ->
   _add_jac ec Q R = R /\ _add_jac ec R Q = R)
  /\ (fst (fst Q) mod ec.(p) = 0 -> snd (fst Q) mod ec.(p) = 0 ->
      _add_jac ec Q R = (0, 0, 0)
      /\ _add_jac ec R Q = _double_jac ec R).
Proof using Hp Hp3.
  clear INFJ_xy.
  pose proof Hp3 as H3.
  destruct Q as [[X Y] Z], R as [[R0 R1] R2]. cbn [fst snd].
  intros ->. split.
  - intros HXY HR.
    assert (HR0 : (R2 =? 0) = false)
      by (apply Z.eqb_neq; intros ->; now rewrite Z.mod_0_l in HR by lia).
    apply toF_nz in HR.
    assert (HXY' : toF X <> Zmod.zero \/ toF Y <> Zmod.zero)
      by (destruct HXY; [left|right]; now apply toF_nz).
    rewrite !add_jac_eq. cbn [snd]. rewrite HR0.
    change (0 =? 0) with true.
    pose proof (Fp.jeq_inf_l _ Hp (toF X) (toF Y) (toF R0) (toF R1) (toF R2)
                  HR HXY') as Hl.
    pose proof (Fp.jeq_inf_r _ Hp (toF R0) (toF R1) (toF R2) (toF X) (toF Y)
                  HR HXY') as Hr.
    unfold same_jac. cbn [jF]. rewrite toF_0.
    split.
    + destruct (ZmodBase.Zmod.eqb_spec
                  (Fp.jeqX opsF (toF X, toF Y, Zmod.zero)
                     (toF R0, toF R1, toF R2)) Zmod.zero); [|reflexivity].
      destruct (ZmodBase.Zmod.eqb_spec
                  (Fp.jeqY opsF (toF X, toF Y, Zmod.zero)
                     (toF R0, toF R1, toF R2)) Zmod.zero); [|reflexivity].
      tauto.
    + destruct (ZmodBase.Zmod.eqb_spec
                  (Fp.jeqX opsF (toF R0, toF R1, toF R2)
                     (toF X, toF Y, Zmod.zero)) Zmod.zero); [|reflexivity].
      destruct (ZmodBase.Zmod.eqb_spec
                  (Fp.jeqY opsF (toF R0, toF R1, toF R2)
                     (toF X, toF Y, Zmod.zero)) Zmod.zero); [|reflexivity].
      tauto.
  - intros HX HY. apply toF_0_iff in HX, HY.
    rewrite !add_jac_eq. unfold same_jac. cbn [jF]. rewrite toF_0, HX, HY.
    replace (Fp.jeqX opsF (Zmod.zero, Zmod.zero, Zmod.zero)
               (toF R0, toF R1, toF R2)) with (@Zmod.zero ec.(p))
      by (cbv [Fp.jeqX Fp.opsF Fp.oc Fp.oadd Fp.osub Fp.omul]; ring).
    replace (Fp.jeqY opsF (Zmod.zero, Zmod.zero, Zmod.zero)
               (toF R0, toF R1, toF R2)) with (@Zmod.zero ec.(p))
      by (cbv [Fp.jeqY Fp.opsF Fp.oc Fp.oadd Fp.osub Fp.omul]; ring).
    replace (Fp.jeqX opsF (toF R0, toF R1, toF R2)
               (Zmod.zero, Zmod.zero, Zmod.zero)) with (@Zmod.zero ec.(p))
      by (cbv [Fp.jeqX Fp.opsF Fp.oc Fp.oadd Fp.osub Fp.omul]; ring).
    replace (Fp.jeqY opsF (toF R0, toF R1, toF R2)
               (Zmod.zero, Zmod.zero, Zmod.zero)) with (@Zmod.zero ec.(p))
      by (cbv [Fp.jeqY Fp.opsF Fp.oc Fp.oadd Fp.osub Fp.omul]; ring).
    rewrite ZmodBase.Zmod.eqb_refl. cbn [andb].
    split; [|reflexivity].
    unfold _double_jac. cbv zeta.
    apply f_equal2; [apply f_equal2|].
    + apply toF_0_iff. toF_push. unfold Fp.toF in *. rewrite ?HX, ?HY. ring.
    + apply toF_0_iff. toF_push. unfold Fp.toF in *.
      rewrite ?ZmodBase.Zmod.of_Z_mod.
      repeat first [ rewrite ZmodBase.Zmod.of_Z_add
                   | rewrite ZmodBase.Zmod.of_Z_sub
                   | rewrite ZmodBase.Zmod.of_Z_mul
                   | rewrite ZmodBase.Zmod.of_Z_mod ].
      rewrite ?HX, ?HY. ring.
    + now rewrite !Z.mul_0_r.
Qed.

(** *** Scalar multiplication *)

Lemma points_rep_valid (JPoints : list JacPoint) :
  Forall valid_jac JPoints -> exists Ps, points_rep JPoints Ps.
Proof.
  induction 1 as [|J l HJ _ (Ps & IH)].
  - exists []. constructor.
  - destruct (valid_jac_rep J HJ) as (P & HP).
    exists (P :: Ps). now constructor.
Qed.

Lemma mult_rep (P : pt) (J : JacPoint) (m : Z) :
  oncurve P -> jrep J P -> 0 <= m ->
  exists R, _mult m J ec = Ret R /\ jm P R m.
Proof.
  intros HP HJ Hm. apply (mult_fixed_window_rep P HP J HJ m 4); lia.
Qed.

Lemma jm_valid (P : pt) (J : JacPoint) (k : Z) :
  oncurve P -> jm P J k -> valid_jac J.
Proof.
  intros HP [_ H]. exact (rep_valid_jac _ _ (oncurve_mul P HP k) H).
Qed.

Lemma pmul_pneg (k : Z) (P : pt) :
  oncurve P -> 0 <= k -> pmul k (pneg P) = pneg (pmul k P).
Proof.
  intros HP Hk. revert k Hk. apply natlike_ind.
  - reflexivity.
  - intros k Hk IH. unfold Z.succ.
    rewrite !Fp.pmul_succ by assumption. rewrite IH.
    symmetry. apply (Fp.pneg_padd _ Hp Hp3 _ _ no_y0); [exact HP|].
    now apply oncurve_mul.
Qed.

(** X10. [_mult] is additive in the scalar: for a valid Jacobian triple
    and u, v >= 0, the affine image of [_mult (u + v)] is the sum, by
    [add], of the affine images of [_mult u] and [_mult v]. *)
Theorem mult_additive (J : JacPoint) (u v : Z) :
  valid_jac J -> 0 <= u -> 0 <= v ->
  exists Ru Rv Ruv Au Av Auv,
    _mult u J ec = Ret Ru /\ _mult v J ec = Ret Rv
    /\ _mult (u + v) J ec = Ret Ruv /\ valid_jac Ruv
    /\ _aff_from_jac ec Ru = Ret Au /\ _aff_from_jac ec Rv = Ret Av
    /\ _aff_from_jac ec Ruv = Ret Auv
    /\ add ec Au Av = Ret Auv.
Proof.
  intros HJ Hu Hv. destruct (valid_jac_rep J HJ) as (P & HP & HR).
  destruct (mult_rep P J u HP HR Hu) as (Ru & Eu & Hju).
  destruct (mult_rep P J v HP HR Hv) as (Rv & Ev & Hjv).
  destruct (mult_rep P J (u + v) HP HR ltac:(lia)) as (Ruv & Euv & Hjuv).
  exists Ru, Rv, Ruv, (acanon (pmul u P)), (acanon (pmul v P)),
    (acanon (pmul (u + v) P)).
  split; [exact Eu|]. split; [exact Ev|]. split; [exact Euv|].
  split; [exact (jm_valid P _ _ HP Hjuv)|].
  split; [exact (jm_affine P _ _ Hju)|].
  split; [exact (jm_affine P _ _ Hjv)|].
  split; [exact (jm_affine P _ _ Hjuv)|].
  rewrite add_rep by (apply oncurve_mul; assumption).
  now rewrite (Fp.pmul_add _ Hp Hp3 _ _ no_y0) by (auto; lia).
Qed.

(** X11. [_mult] composes: for a valid Jacobian triple and u, v >= 0,
    multiplying by v and then the result by u gives the affine image of
    the multiplication by u * v; multiplying by 1 keeps the affine
    image and multiplying by 0 gives [INFJ]. *)
Theorem mult_multiplicative (J : JacPoint) (u v : Z) :
  valid_jac J -> 0 <= u -> 0 <= v ->
  (exists Rv Rc Ruv A,
     _mult v J ec = Ret Rv /\ _mult u Rv ec = Ret Rc
     /\ _mult (u * v) J ec = Ret Ruv
     /\ _aff_from_jac ec Rc = Ret A /\ _aff_from_jac ec Ruv = Ret A)
  /\ (exists R1 A, _mult 1 J ec = Ret R1
        /\ _aff_from_jac ec R1 = Ret A /\ _aff_from_jac ec J = Ret A)
  /\ _mult 0 J ec = Ret INFJ.
Proof.
  intros HJ Hu Hv. destruct (valid_jac_rep J HJ) as (P & HP & HR).
  split; [|split].
  - destruct (mult_rep P J v HP HR Hv) as (Rv & Ev & Hjv).
    destruct (mult_rep (pmul v P) Rv u (oncurve_mul P HP v) (proj2 Hjv) Hu)
      as (Rc & Ec & Hjc).
    destruct (mult_rep P J (u * v) HP HR ltac:(lia)) as (Ruv & Euv & Hjuv).
    exists Rv, Rc, Ruv, (acanon (pmul (u * v) P)).
    split; [exact Ev|]. split; [exact Ec|]. split; [exact Euv|].
    split; [|exact (jm_affine P _ _ Hjuv)].
    rewrite (jm_affine _ _ _ Hjc).
    now rewrite (Fp.pmul_mul _ Hp Hp3 _ _ no_y0) by assumption.
  - destruct (mult_rep P J 1 HP HR ltac:(lia)) as (R1 & E1 & Hj1).
    exists R1, (acanon P). split; [exact E1|].
    split; [|now apply aff_from_jac_rep].
    rewrite (jm_affine P _ _ Hj1). now rewrite Fp.pmul_1.
  - apply mult_zero.
Qed.

(** X12. [_mult] commutes with taking opposites: multiplying the
    negated triple gives the opposite, by [negate], of the affine image
    of the multiple. *)
Theorem mult_negate (J : JacPoint) (m : Z) :
  valid_jac J -> 0 <= m ->
  exists R Rn A,
    _mult m J ec = Ret R /\ _mult m (negate_jac ec J) ec = Ret Rn
    /\ _aff_from_jac ec R = Ret A
    /\ _aff_from_jac ec Rn = Ret (negate ec A).
Proof.
  intros HJ Hm. destruct (valid_jac_rep J HJ) as (P & HP & HR).
  pose proof (Fp.oncurve_pneg _ Hp _ _ _ HP) as HN.
  destruct (mult_rep P J m HP HR Hm) as (R & E & Hj).
  destruct (mult_rep (pneg P) _ m HN (jrep_negate J P HR) Hm)
    as (Rn & En & Hjn).
  exists R, Rn, (acanon (pmul m P)).
  split; [exact E|]. split; [exact En|].
  split; [exact (jm_affine P _ _ Hj)|].
  rewrite (jm_affine _ _ _ Hjn), negate_acanon.
  now rewrite pmul_pneg.
Qed.

(** X13. [_double_mult] computes u H + v Q: for valid Jacobian triples
    and u, v >= 0 its affine image is the sum, by [add], of the affine
    images of [_mult u H] and [_mult v Q]. *)
Theorem double_mult_spec (HJ QJ : JacPoint) (u v : Z) :
  valid_jac HJ -> valid_jac QJ -> 0 <= u -> 0 <= v ->
  exists R Ru Rv A Au Av,
    _double_mult u HJ v QJ ec = Ret R
    /\ _mult u HJ ec = Ret Ru /\ _mult v QJ ec = Ret Rv
    /\ valid_jac R
    /\ _aff_from_jac ec R = Ret A
    /\ _aff_from_jac ec Ru = Ret Au /\ _aff_from_jac ec Rv = Ret Av
    /\ add ec Au Av = Ret A.
Proof.
  intros HH HQ Hu Hv.
  destruct (valid_jac_rep HJ HH) as (Ph & HPh & HJh).
  destruct (valid_jac_rep QJ HQ) as (Pq & HPq & HJq).
  destruct (mult_rep Ph HJ u HPh HJh Hu) as (Ru & Eu & Hju).
  destruct (mult_rep Pq QJ v HPq HJq Hv) as (Rv & Ev & Hjv).
  destruct (double_mult_rep Ph Pq HPh HPq _ _ HJh HJq u v Hu Hv)
    as (R & E & _ & _ & HR).
  exists R, Ru, Rv, (acanon (lin Ph Pq (u, v))),
    (acanon (pmul u Ph)), (acanon (pmul v Pq)).
  split; [exact E|]. split; [exact Eu|]. split; [exact Ev|].
  split; [exact (rep_valid_jac _ _ (oncurve_lin Ph Pq HPh HPq (u, v)) HR)|].
  split; [now apply aff_from_jac_rep|].
  split; [exact (jm_affine Ph _ _ Hju)|].
  split; [exact (jm_affine Pq _ _ Hjv)|].
  rewrite add_rep by (apply oncurve_mul; assumption). reflexivity.
Qed.

(** X14. [_multi_mult] computes the sum of the multiples: for scalars
    >= 0 and as many valid Jacobian triples, its affine image is what
    adding up, with [add] from [INF], the affine images of the
    [_mult scalar_i point_i] gives. *)
Theorem multi_mult_spec (scalars : list Z) (JPoints : list JacPoint) :
  length scalars = length JPoints ->
  Forall (fun n => 0 <= n) scalars -> Forall valid_jac JPoints ->
  exists R A,
    _multi_mult scalars JPoints ec = Ret R /\ valid_jac R
    /\ _aff_from_jac ec R = Ret A
    /\ affine_sum (combine scalars JPoints) INF = Ret A.
Proof.
  intros Hlen Hn HJs.
  destruct (points_rep_valid JPoints HJs) as (Ps & HPs).
  destruct (multi_mult_rep scalars JPoints Ps Hn HPs Hlen) as (R & E & HR).
  pose proof (oncurve_psum _ (points_rep_oncurve scalars _ _ HPs)) as Ho.
  exists R, (acanon (psum (combine scalars Ps))).
  split; [exact E|]. split; [exact (rep_valid_jac _ _ Ho HR)|].
  split; [now apply aff_from_jac_rep|].
  change INF with (acanon None).
  rewrite (affine_sum_rep scalars JPoints Ps None Hn HPs Hlen I).
  now rewrite Fp.padd_None_l.
Qed.

(** X15. [multiples] tabulates the multiples of a point: for a valid
    Jacobian triple and size >= 2 it returns [size] valid triples that
    follow the recurrence of the code, and the k-th one has the affine
    image of [_mult k].  For size < 2 it raises. *)
Theorem multiples_spec (J : JacPoint) (size : Z) :
  valid_jac J ->
  (2 <= size ->
     exists T, multiples J size ec = Ret T
       /\ Z.of_nat (length T) = size
       /\ table_ok ec J T
       /\ forall k t, nth_error T k = Some t ->
            valid_jac t
            /\ exists R A, _mult (Z.of_nat k) J ec = Ret R
                 /\ _aff_from_jac ec R = Ret A
                 /\ _aff_from_jac ec t = Ret A)
  /\ (size < 2 -> raises (multiples J size ec)).
Proof.
  intros HJ. destruct (valid_jac_rep J HJ) as (P & HP & HR). split.
  - intros Hs.
    destruct (multiples_shape ec J size Hs) as (T & E & HT & Hlen).
    exists T. split; [exact E|]. split; [exact Hlen|]. split; [exact HT|].
    intros k t Hk.
    pose proof (table_rep P HP J HR T HT k t Hk) as Hjt.
    split; [exact (jm_valid P _ _ HP Hjt)|].
    destruct (mult_rep P J (Z.of_nat k) HP HR ltac:(lia)) as (R & ER & HjR).
    exists R, (acanon (pmul (Z.of_nat k) P)).
    split; [exact ER|].
    split; [exact (jm_affine P _ _ HjR) | exact (jm_affine P _ _ Hjt)].
  - intros Hs. rewrite (multiples_too_low ec J size Hs).
    eexists. split; [reflexivity | discriminate].
Qed.

(** X16. The scalar multiplications agree: for a valid Jacobian triple
    and m >= 0, [_mult_aff] on the affine image returns a valid point,
    and [_mult_jac], the Montgomery ladder, the base-3 and the
    fixed-window multiplications return triples with that affine
    image; so does the cached fixed-window multiplication when the
    digits of m fit its table. *)
Theorem mult_algorithms_agree (J : JacPoint) (m w : Z) :
  valid_jac J -> 0 <= m -> 1 <= w ->
  exists Q A, _aff_from_jac ec J = Ret Q
    /\ _mult_aff m Q ec = Ret A /\ valid_point A
    /\ (exists R, _mult_jac m J ec = Ret R
                  /\ _aff_from_jac ec R = Ret A)
    /\ (exists R, _mult_mont_ladder m J ec = Ret R
                  /\ _aff_from_jac ec R = Ret A)
    /\ (exists R, _mult_base_3 m J ec = Ret R
                  /\ _aff_from_jac ec R = Ret A)
    /\ (exists R, _mult_fixed_window m J ec w false = Ret R
                  /\ _aff_from_jac ec R = Ret A)
    /\ (0 <= ec.(psize) ->
        (forall digits, convert_number_to_base m (2 ^ w) = Ret digits ->
           Z.of_nat (length digits) <= ec.(psize) * 8 / w + 1) ->
        exists R, _mult_fixed_window_cached m J ec w = Ret R
                  /\ _aff_from_jac ec R = Ret A).
Proof.
  intros HJ Hm Hw. destruct (valid_jac_rep J HJ) as (P & HP & HR).
  exists (acanon P), (acanon (pmul m P)).
  split; [now apply aff_from_jac_rep|].
  split; [apply (mult_aff_rep P HP); [reflexivity | exact Hm]|].
  split; [apply acanon_valid; now apply oncurve_mul|].
  split; [|split; [|split; [|split]]].
  - destruct (mult_jac_rep P HP _ HR m Hm) as (R & E & Hj).
    exists R. split; [exact E | exact (jm_affine P R m Hj)].
  - destruct (mult_mont_ladder_rep P HP _ HR m Hm) as (R & E & Hj).
    exists R. split; [exact E | exact (jm_affine P R m Hj)].
  - destruct (mult_base_3_rep P HP _ HR m Hm) as (R & E & Hj).
    exists R. split; [exact E | exact (jm_affine P R m Hj)].
  - destruct (mult_fixed_window_rep P HP _ HR m w Hm Hw) as (R & E & Hj).
    exists R. split; [exact E | exact (jm_affine P R m Hj)].
  - intros Hps Hfit.
    destruct (mult_fixed_window_cached_rep P HP _ HR m w Hm Hw Hps Hfit)
      as (R & E & Hj).
    exists R. split; [exact E | exact (jm_affine P R m Hj)].
Qed.




(** X18. [cached_multiples_fixwind] tabulates the windows of the cached
    fixed-window multiplication: for a valid Jacobian triple, w >= 1
    and a curve size >= 0, entry j of sublist i is a valid triple with
    the affine image of [_mult (j * 2^(w i))]. *)
Theorem cached_multiples_fixwind_spec (J : JacPoint) (w : Z) :
  valid_jac J -> 1 <= w -> 0 <= ec.(psize) ->
  exists T, cached_multiples_fixwind J ec w = Ret T
    /\ Z.of_nat (length T) = ec.(psize) * 8 / w + 1
    /\ forall i s j t, nth_error T i = Some s -> nth_error s j = Some t ->
         valid_jac t
         /\ exists R A,
              _mult (Z.of_nat j * 2 ^ (w * Z.of_nat i)) J ec = Ret R
              /\ _aff_from_jac ec R = Ret A
              /\ _aff_from_jac ec t = Ret A.
Proof.
  intros HJ Hw Hps. destruct (valid_jac_rep J HJ) as (P & HP & HR).
  destruct (cached_multiples_fixwind_rep P HP J HR w Hw Hps)
    as (T & E & HT & Hlen).
  exists T. split; [exact E|]. split; [exact Hlen|].
  intros i s j t Hi Hj.
  destruct (HT i s Hi) as [_ Hs]. pose proof (Hs j t Hj) as Hjt.
  split; [exact (jm_valid P _ _ HP Hjt)|].
  destruct (mult_rep P J _ HP HR (proj1 Hjt)) as (R & ER & HjR).
  exists R, (acanon (pmul (Z.of_nat j * 2 ^ (w * Z.of_nat i)) P)).
  split; [exact ER|].
  split; [exact (jm_affine P _ _ HjR) | exact (jm_affine P _ _ Hjt)].
Qed.


End Jacobian.

(** ** Primality and points of order two on the test curves *)

Lemma in_range_from (n : nat) :
  forall s x, s <= x < s + Z.of_nat n -> In x (range_from n s 1).
Proof.
  induction n as [|n IH]; intros s x Hx; [lia|].
  cbn [range_from]. destruct (Z.eq_dec s x) as [E|E]; [now left|].
  right. apply IH. lia.
Qed.

Lemma in_py_range (start stop x : Z) :
  start <= x < stop -> In x (py_range start stop 1).
Proof.
  intros Hx. unfold py_range. apply in_range_from.
  rewrite Z.div_1_r. lia.
Qed.

Lemma is_prime_b_sound (n : Z) : is_prime_b n = true -> Z.prime n.
Proof.
  unfold is_prime_b. intros H. apply andb_true_iff in H. destruct H as [H2 Hd].
  apply Z.leb_le in H2. split; [lia|].
  intros d Hr Hdiv.
  rewrite forallb_forall in Hd.
  specialize (Hd d (in_py_range 2 n d ltac:(lia))).
  apply negb_true_iff, Z.eqb_neq in Hd. apply Hd.
  apply Z.mod_divide; [lia | exact Hdiv].
Qed.

(** No point of order two: x^3 + a x + b has no root modulo p. *)
Definition no_two_torsion (ec : CurveGroup) : bool :=
  forallb (fun x => negb (_y2 ec x =? 0)) (py_range 0 ec.(p) 1).

Lemma no_two_torsion_sound (ec : CurveGroup) :
  no_two_torsion ec = true ->
  forall x, 0 <= x < ec.(p) -> _y2 ec x <> 0.
Proof.
  unfold no_two_torsion. intros H x Hx.
  rewrite forallb_forall in H.
  specialize (H x (in_py_range 0 ec.(p) x Hx)).
  now apply negb_true_iff, Z.eqb_neq in H.
Qed.

(** A curve with points of order four: (4, 2) doubles to (6, 0). *)
Definition ec13_16 : CurveGroup :=
  {| p := 13; _a := 0; _b := 5; psize := 1; pIsThreeModFour := false |}.

Lemma prime_13 : Z.prime 13.
Proof. apply is_prime_b_sound. reflexivity. Qed.

Lemma finite_on_curve_1_9 : finite_on_curve ec13_19 (1, 9).
Proof. split; [reflexivity|]. split; [discriminate | cbn; lia]. Qed.


(** ** The cached table of [_mult_fixed_window] *)

Section CachedTable.

Context {al : Alias}.
Variable ec : CurveGroup.

Lemma foldM_ext {A B : Type} (f g : A -> B -> result A) (l : list B) :
  (forall a b, In b l -> f a b = g a b) ->
  forall a, foldM f l a = foldM g l a.
Proof.
  induction l as [|b l IH]; intros H a; [reflexivity|].
  cbn [foldM]. rewrite (H a b) by now left.
  destruct (g a b) as [a'|e]; [|reflexivity].
  cbn [bind]. apply IH. intros a0 b0 Hin. apply H. now right.
Qed.

Lemma foldM_returns {A B : Type} (f : A -> B -> result A) (l : list B) :
  (forall a b, In b l -> returns (f a b)) ->
  forall a, returns (foldM f l a).
Proof.
  induction l as [|b l IH]; intros H a; [now exists a|].
  cbn [foldM]. destruct (H a b) as (a' & E); [now left|].
  rewrite E. cbn [bind]. apply IH. intros a0 b0 Hin. apply H. now right.
Qed.

(** [cached_multiples] is the table of [multiples] of size 2^5. *)
Lemma cached_multiples_eq (Q : JacPoint) :
  cached_multiples Q ec = multiples Q (2 ^ _MAX_W) ec.
Proof.
  unfold cached_multiples, multiples.
  change (2 ^ _MAX_W) with 32. change (32 <? 2) with false.
  change (32 / 2 * 2) with 32. change (32 mod 2) with 0.
  cbv beta iota zeta. change (negb (0 =? 0)) with false. cbv iota.
  now destruct (foldM _ _ _).
Qed.

(** The recurrence determines the entries of a table. *)
Lemma table_ok_unique (Q : JacPoint) (T T' : list JacPoint) :
  table_ok ec Q T -> table_ok ec Q T' ->
  forall k d d', nth_error T k = Some d -> nth_error T' k = Some d' ->
  d = d'.
Proof.
  intros (H0 & H1 & Hrec) (H0' & H1' & Hrec') k.
  induction k as [k IH] using lt_wf_ind. intros d d' Hd Hd'.
  destruct k as [|[|k]].
  - congruence.
  - congruence.
  - destruct (Nat.Even_or_Odd (S (S k))) as [[j Hj]|[j Hj]].
    + rewrite Hj in Hd, Hd'.
      destruct (Hrec j ltac:(lia)) as [He _].
      destruct (Hrec' j ltac:(lia)) as [He' _].
      destruct (He d Hd) as (h & Hh & ->).
      destruct (He' d' Hd') as (h' & Hh' & ->).
      f_equal. exact (IH j ltac:(lia) h h' Hh Hh').
    + rewrite Hj in Hd, Hd'.
      destruct (Hrec j ltac:(lia)) as [_ Ho].
      destruct (Hrec' j ltac:(lia)) as [_ Ho'].
      destruct (Ho d Hd) as (e & Hh & ->).
      destruct (Ho' d' Hd') as (e' & Hh' & ->).
      f_equal. exact (IH (2 * j)%nat ltac:(lia) e e' Hh Hh').
Qed.

Lemma table_lookup_eq (Q : JacPoint) (T T' : list JacPoint) (i : Z) :
  table_ok ec Q T -> table_ok ec Q T' ->
  0 <= i < Z.of_nat (length T) -> 0 <= i < Z.of_nat (length T') ->
  py_index T i = py_index T' i.
Proof.
  intros HT HT' Hi Hi'.
  destruct (py_index_in T i Hi) as (t & E & Hn).
  destruct (py_index_in T' i Hi') as (t' & E' & Hn').
  rewrite E, E'. f_equal. exact (table_ok_unique Q T T' HT HT' _ _ _ Hn Hn').
Qed.

(** X19. The flag [cached] of [_mult_fixed_window] replaces the table
    of 2^w multiples by one of 2^5.  For w <= 5 the result is the same
    triple, whatever m, Q and the curve.  For w > 5 a scalar
    2^5 <= m < 2^w, which is a single digit in base 2^w, makes the
    cached call raise IndexError, while the call without cache
    returns. *)
Theorem mult_fixed_window_cached_table (m : Z) (Q : JacPoint) (w : Z) :
  (w <= 5 ->
   _mult_fixed_window m Q ec w true = _mult_fixed_window m Q ec w false)
  /\ (5 < w -> 32 <= m < 2 ^ w ->
      _mult_fixed_window m Q ec w true = Raise IndexError
      /\ returns (_mult_fixed_window m Q ec w false)).
Proof.
  split.
  - intros Hw5. unfold _mult_fixed_window.
    destruct (Z.ltb_spec m 0) as [|Hm]; [reflexivity|].
    destruct (Z.leb_spec w 0) as [|Hw]; [reflexivity|].
    assert (Hb : 2 <= 2 ^ w).
    { change 2 with (2 ^ 1) at 1. apply Z.pow_le_mono_r; lia. }
    assert (Hb5 : 2 ^ w <= 32).
    { change 32 with (2 ^ 5). apply Z.pow_le_mono_r; lia. }
    rewrite cached_multiples_eq. change (2 ^ _MAX_W) with 32.
    destruct (multiples_shape ec Q 32 ltac:(lia)) as (C & EC & HC & HlC).
    destruct (multiples_shape ec Q (2 ^ w) Hb) as (T & ET & HT & HlT).
    rewrite EC, ET. cbn [bind].
    destruct (convert_number_to_base_ok m (2 ^ w) Hm Hb)
      as (digits & ED & Hne & Hall & _).
    rewrite ED. cbn [bind].
    destruct digits as [|d0 rest]; [congruence|].
    rewrite (py_index_nth (d0 :: rest) 0 d0) by (try reflexivity; lia).
    cbn [bind tl].
    apply Forall_cons_iff in Hall. destruct Hall as [Hd0 Hrest].
    rewrite (table_lookup_eq Q C T d0 HC HT) by lia.
    destruct (py_index T d0) as [R|e]; [|reflexivity]. cbn [bind].
    apply foldM_ext. intros R' d Hin.
    rewrite Forall_forall in Hrest. specialize (Hrest d Hin).
    unfold fixed_window_step.
    now rewrite (table_lookup_eq Q C T d HC HT) by lia.
  - intros Hw Hm.
    assert (Hb : 2 <= 2 ^ w) by lia.
    destruct (convert_number_to_base_ok m (2 ^ w) ltac:(lia) Hb)
      as (digits & ED & Hne & Hall & Hval & Hhd & _).
    pose proof (digits_value_lower (2 ^ w) digits Hb Hall Hne
                  (Hhd ltac:(lia))) as Hlow.
    assert (Hlen : length digits = 1%nat).
    { destruct digits as [|d0 [|d1 rest]]; [congruence | reflexivity |].
      exfalso. rewrite Hval in Hlow. cbn [length] in Hlow.
      assert (H1 : (2 ^ w) ^ 1
                   <= (2 ^ w) ^ (Z.of_nat (S (S (length rest))) - 1))
        by (apply Z.pow_le_mono_r; lia).
      rewrite Z.pow_1_r in H1. lia. }
    destruct digits as [|d0 [|d1 rest]]; try discriminate.
    unfold digits_value in Hval. cbn [fold_left] in Hval.
    assert (d0 = m) by lia. subst d0.
    unfold _mult_fixed_window.
    replace (m <? 0) with false by (symmetry; apply Z.ltb_ge; lia).
    replace (w <=? 0) with false by (symmetry; apply Z.leb_gt; lia).
    rewrite ED. split.
    + rewrite cached_multiples_eq. change (2 ^ _MAX_W) with 32.
      destruct (multiples_shape ec Q 32 ltac:(lia)) as (C & EC & HC & HlC).
      rewrite EC. cbn [bind].
      rewrite (py_index_nth [m] 0 m) by (try reflexivity; lia). cbn [bind].
      now rewrite (py_index_out C m) by lia.
    + destruct (multiples_shape ec Q (2 ^ w) Hb) as (T & ET & HT & HlT).
      rewrite ET. cbn [bind].
      rewrite (py_index_nth [m] 0 m) by (try reflexivity; lia). cbn [bind].
      destruct (py_index_in T m ltac:(lia)) as (t & Et & _).
      rewrite Et. cbn [bind tl foldM]. now exists t.
Qed.

End CachedTable.

(** ** Points with x outside [0, p) *)

Section XRange.

Context {al : Alias}.
Variable ec : CurveGroup.

(** X28. [is_on_curve] reduces x modulo p and never checks its range:
    for a finite point (x, y) of the curve and k <> 0, the pair
    on a curve with p odd, for a finite point (x, y) of the curve and
    k <> 0, the pair (x + k p, y) is accepted as well.  [add] takes it,
    but the affine addition compares the x coordinates as integers:
    adding it to (x, y) or to the opposite of (x, y) fails in
    [mod_inv], where (x, y) plus its opposite is [INF]. *)
Theorem x_range_unchecked (x y k : Z) :
  ec.(p) mod 2 = 1 -> y <> 0 -> is_on_curve ec (x, y) = Ret true ->
  k <> 0 ->
  is_on_curve ec (x + k * ec.(p), y) = Ret true
  /\ add ec (x + k * ec.(p), y) (x, y) = Raise (ValueError "no inverse")
  /\ add ec (x + k * ec.(p), y) (negate ec (x, y))
     = Raise (ValueError "no inverse")
  /\ add ec (x, y) (negate ec (x, y)) = Ret INF.
Proof.
  intros Hodd Hy Hc Hk.
  destruct (is_on_curve_inv ec (x, y) Hc) as [H|[Hr Heq]];
    cbn [fst snd] in *; [contradiction|].
  assert (Hs : is_on_curve ec (x + k * ec.(p), y) = Ret true)
    by now rewrite is_on_curve_shift.
  assert (Hneg : negate ec (x, y) = (x, ec.(p) - y)).
  { unfold negate. f_equal. apply Z.mod_small. lia. }
  assert (Hn : is_on_curve ec (x, ec.(p) - y) = Ret true).
  { unfold is_on_curve.
    replace (ec.(p) - y =? 0) with false by (symmetry; apply Z.eqb_neq; lia).
    replace ((0 <? ec.(p) - y) && (ec.(p) - y <? ec.(p))) with true
      by (symmetry; apply andb_true_iff; split; apply Z.ltb_lt; lia).
    cbn [negb]. f_equal. apply Z.eqb_eq. rewrite Heq.
    replace ((ec.(p) - y) * (ec.(p) - y))
      with (y * y + (ec.(p) - 2 * y) * ec.(p)) by ring.
    symmetry. apply Z.mod_add. lia. }
  assert (Hinv : mod_inv (x - (x + k * ec.(p))) ec.(p)
                 = Raise (ValueError "no inverse")).
  { unfold mod_inv.
    replace (x - (x + k * ec.(p))) with (- k * ec.(p)) by ring.
    now rewrite Z.mod_mul by lia. }
  assert (Hx : (x =? x + k * ec.(p)) = false) by (apply Z.eqb_neq; nia).
  split; [exact Hs|]. rewrite Hneg.
  unfold add, require_on_curve. rewrite Hs, Hc, Hn. cbn [bind negb].
  unfold _add_aff.
  replace (y =? 0) with false by (symmetry; now apply Z.eqb_neq).
  replace (ec.(p) - y =? 0) with false by (symmetry; apply Z.eqb_neq; lia).
  rewrite Hx, Hinv, Z.eqb_refl. cbn [bind].
  replace (ec.(p) - y =? y) with false; [repeat split|].
  symmetry. apply Z.eqb_neq. intros E.
  assert (ec.(p) mod 2 = 0)
    by (replace ec.(p) with (y * 2) by lia; apply Z.mod_mul; lia).
  lia.
Qed.

End XRange.

(** ** The theorems on the test curve p = 13, a = 0, b = 2 *)

Lemma ec13_19_gt3 : 3 < ec13_19.(p).
Proof. cbn. lia. Qed.

Lemma ec13_19_no_root : forall x, 0 <= x < ec13_19.(p) -> _y2 ec13_19 x <> 0.
Proof. apply (no_two_torsion_sound ec13_19). reflexivity. Qed.

Lemma alias_on_curve_xy :
  fst (fst (@INFJ alias_on_curve)) mod ec13_19.(p) <> 0
  \/ snd (fst (@INFJ alias_on_curve)) mod ec13_19.(p) <> 0.
Proof. left. discriminate. Qed.

Lemma finite_on_curve_1_4 : finite_on_curve ec13_19 (1, 4).
Proof. split; [reflexivity|]. split; [discriminate | cbn; lia]. Qed.

Lemma finite_on_curve_2_6 : finite_on_curve ec13_19 (2, 6).
Proof. split; [reflexivity|]. split; [discriminate | cbn; lia]. Qed.

Lemma valid_point_1_9 : @valid_point alias_on_curve ec13_19 (1, 9).
Proof. right. exact finite_on_curve_1_9. Qed.

Lemma valid_point_1_4 : @valid_point alias_on_curve ec13_19 (1, 4).
Proof. right. exact finite_on_curve_1_4. Qed.

Lemma valid_point_2_6 : @valid_point alias_on_curve ec13_19 (2, 6).
Proof. right. exact finite_on_curve_2_6. Qed.

Lemma valid_jac_1_9 : @valid_jac alias_on_curve ec13_19 (1, 9, 1).
Proof.
  right. split; [discriminate|].
  exists (1, 9). split; [reflexivity | exact finite_on_curve_1_9].
Qed.

Lemma valid_jac_11_9_5 : @valid_jac alias_on_curve ec13_19 (11, 9, 5).
Proof.
  right. split; [discriminate|].
  exists (2, 6). split; [reflexivity | exact finite_on_curve_2_6].
Qed.

Ltac ec13_19_side :=
  first [ exact prime_13 | exact ec13_19_gt3 | exact ec13_19_no_root
        | exact alias_on_curve_xy | exact valid_point_1_9
        | exact valid_point_1_4 | exact valid_point_2_6
        | exact valid_jac_1_9 | exact valid_jac_11_9_5
        | reflexivity | lia ].

Lemma add_closed_witness :
  exists A, @add alias_on_curve ec13_19 (1, 9) (2, 6) = Ret A
    /\ @valid_point alias_on_curve ec13_19 A.
Proof. apply (@add_closed alias_on_curve ec13_19); ec13_19_side. Defined.

Lemma add_commutative_witness :
  exists A, @add alias_on_curve ec13_19 (1, 9) (2, 6) = Ret A
    /\ @add alias_on_curve ec13_19 (2, 6) (1, 9) = Ret A.
Proof. apply (@add_commutative alias_on_curve ec13_19); ec13_19_side. Defined.

Lemma add_associative_witness :
  exists S,
    (A <- @add alias_on_curve ec13_19 (1, 9) (2, 6) ;;
     @add alias_on_curve ec13_19 A (1, 4)) = Ret S
    /\ (B <- @add alias_on_curve ec13_19 (2, 6) (1, 4) ;;
        @add alias_on_curve ec13_19 (1, 9) B) = Ret S
    /\ @valid_point alias_on_curve ec13_19 S.
Proof. apply (@add_associative alias_on_curve ec13_19); ec13_19_side. Defined.

Lemma add_neutral_inverse_witness :
  @add alias_on_curve ec13_19 (@INF alias_on_curve) (1, 9) = Ret (1, 9)
  /\ @add alias_on_curve ec13_19 (1, 9) (@INF alias_on_curve) = Ret (1, 9)
  /\ @valid_point alias_on_curve ec13_19 (negate ec13_19 (1, 9))
  /\ @add alias_on_curve ec13_19 (1, 9) (negate ec13_19 (1, 9))
     = Ret (@INF alias_on_curve)
  /\ @add alias_on_curve ec13_19 (negate ec13_19 (1, 9)) (1, 9)
     = Ret (@INF alias_on_curve).
Proof.
  apply (@add_neutral_inverse alias_on_curve ec13_19); ec13_19_side.
Defined.

Lemma jac_operations_witness :
  @valid_jac alias_on_curve ec13_19
    (@_add_jac alias_on_curve ec13_19 (1, 9, 1) (11, 9, 5))
  /\ @valid_jac alias_on_curve ec13_19 (_double_jac ec13_19 (1, 9, 1))
  /\ exists A1 A2 A D,
       @_aff_from_jac alias_on_curve ec13_19 (1, 9, 1) = Ret A1
       /\ @_aff_from_jac alias_on_curve ec13_19 (11, 9, 5) = Ret A2
       /\ @_aff_from_jac alias_on_curve ec13_19
            (@_add_jac alias_on_curve ec13_19 (1, 9, 1) (11, 9, 5)) = Ret A
       /\ @add alias_on_curve ec13_19 A1 A2 = Ret A
       /\ @_aff_from_jac alias_on_curve ec13_19
            (_double_jac ec13_19 (1, 9, 1)) = Ret D
       /\ @add alias_on_curve ec13_19 A1 A1 = Ret D.
Proof.
  apply (@jac_operations_spec alias_on_curve ec13_19); ec13_19_side.
Defined.

Lemma jac_equality_witness :
  _jac_equality ec13_19 (_double_jac ec13_19 (1, 9, 1)) (11, 9, 5) = true
  <-> @_aff_from_jac alias_on_curve ec13_19 (_double_jac ec13_19 (1, 9, 1))
      = @_aff_from_jac alias_on_curve ec13_19 (11, 9, 5).
Proof.
  apply (@jac_equality_spec alias_on_curve ec13_19); ec13_19_side.
Defined.

Lemma negate_jac_witness :
  @valid_jac alias_on_curve ec13_19 (negate_jac ec13_19 (1, 9, 1))
  /\ exists A,
       @_aff_from_jac alias_on_curve ec13_19 (1, 9, 1) = Ret A
       /\ @_aff_from_jac alias_on_curve ec13_19 (negate_jac ec13_19 (1, 9, 1))
          = Ret (negate ec13_19 A)
       /\ @_aff_from_jac alias_on_curve ec13_19
            (@_add_jac alias_on_curve ec13_19 (1, 9, 1)
               (negate_jac ec13_19 (1, 9, 1)))
          = Ret (@INF alias_on_curve)
       /\ snd (@_add_jac alias_on_curve ec13_19 (1, 9, 1)
                 (negate_jac ec13_19 (1, 9, 1))) = 0.
Proof.
  apply (@negate_jac_spec alias_on_curve ec13_19); ec13_19_side.
Defined.

Lemma aff_from_jac_witness :
  exists x y,
    @_aff_from_jac alias_on_curve ec13_19 (11, 9, 5) = Ret (x, y)
    /\ _x_aff_from_jac ec13_19 (11, 9, 5) = Ret x
    /\ 0 <= x < ec13_19.(p) /\ 0 <= y < ec13_19.(p)
    /\ x * (5 * 5) mod ec13_19.(p) = 11 mod ec13_19.(p)
    /\ y * (5 * 5 * 5) mod ec13_19.(p) = 9 mod ec13_19.(p).
Proof.
  destruct (@aff_from_jac_spec alias_on_curve ec13_19 prime_13 ec13_19_gt3
              11 9 5) as (_ & _ & H).
  apply H. discriminate.
Defined.

Lemma add_jac_infinity_operand_witness :
  (@_add_jac alias_on_curve ec13_19 (1, 1, 0) (1, 9, 1) = (1, 9, 1)
   /\ @_add_jac alias_on_curve ec13_19 (1, 9, 1) (1, 1, 0) = (1, 9, 1))
  /\ (@_add_jac alias_on_curve ec13_19 (0, 0, 0) (1, 9, 1) = (0, 0, 0)
      /\ @_add_jac alias_on_curve ec13_19 (1, 9, 1) (0, 0, 0)
         = _double_jac ec13_19 (1, 9, 1)).
Proof.
  split.
  - destruct (@add_jac_infinity_operand alias_on_curve ec13_19 prime_13
                ec13_19_gt3 (1, 1, 0) (1, 9, 1) eq_refl) as [H _].
    apply H; [left|]; discriminate.
  - destruct (@add_jac_infinity_operand alias_on_curve ec13_19 prime_13
                ec13_19_gt3 (0, 0, 0) (1, 9, 1) eq_refl) as [_ H].
    apply H; reflexivity.
Defined.


Lemma mult_additive_witness :
  exists Ru Rv Ruv Au Av Auv,
    @_mult alias_on_curve 5 (1, 9, 1) ec13_19 = Ret Ru
    /\ @_mult alias_on_curve 7 (1, 9, 1) ec13_19 = Ret Rv
    /\ @_mult alias_on_curve (5 + 7) (1, 9, 1) ec13_19 = Ret Ruv
    /\ @valid_jac alias_on_curve ec13_19 Ruv
    /\ @_aff_from_jac alias_on_curve ec13_19 Ru = Ret Au
    /\ @_aff_from_jac alias_on_curve ec13_19 Rv = Ret Av
    /\ @_aff_from_jac alias_on_curve ec13_19 Ruv = Ret Auv
    /\ @add alias_on_curve ec13_19 Au Av = Ret Auv.
Proof. apply (@mult_additive alias_on_curve ec13_19); ec13_19_side. Defined.

Lemma mult_multiplicative_witness :
  (exists Rv Rc Ruv A,
     @_mult alias_on_curve 7 (1, 9, 1) ec13_19 = Ret Rv
     /\ @_mult alias_on_curve 5 Rv ec13_19 = Ret Rc
     /\ @_mult alias_on_curve (5 * 7) (1, 9, 1) ec13_19 = Ret Ruv
     /\ @_aff_from_jac alias_on_curve ec13_19 Rc = Ret A
     /\ @_aff_from_jac alias_on_curve ec13_19 Ruv = Ret A)
  /\ (exists R1 A, @_mult alias_on_curve 1 (1, 9, 1) ec13_19 = Ret R1
        /\ @_aff_from_jac alias_on_curve ec13_19 R1 = Ret A
        /\ @_aff_from_jac alias_on_curve ec13_19 (1, 9, 1) = Ret A)
  /\ @_mult alias_on_curve 0 (1, 9, 1) ec13_19 = Ret (@INFJ alias_on_curve).
Proof.
  apply (@mult_multiplicative alias_on_curve ec13_19); ec13_19_side.
Defined.

Lemma mult_negate_witness :
  exists R Rn A,
    @_mult alias_on_curve 5 (1, 9, 1) ec13_19 = Ret R
    /\ @_mult alias_on_curve 5 (negate_jac ec13_19 (1, 9, 1)) ec13_19
       = Ret Rn
    /\ @_aff_from_jac alias_on_curve ec13_19 R = Ret A
    /\ @_aff_from_jac alias_on_curve ec13_19 Rn = Ret (negate ec13_19 A).
Proof. apply (@mult_negate alias_on_curve ec13_19); ec13_19_side. Defined.

Lemma double_mult_witness :
  exists R Ru Rv A Au Av,
    @_double_mult alias_on_curve 5 (11, 9, 5) 7 (1, 9, 1) ec13_19 = Ret R
    /\ @_mult alias_on_curve 5 (11, 9, 5) ec13_19 = Ret Ru
    /\ @_mult alias_on_curve 7 (1, 9, 1) ec13_19 = Ret Rv
    /\ @valid_jac alias_on_curve ec13_19 R
    /\ @_aff_from_jac alias_on_curve ec13_19 R = Ret A
    /\ @_aff_from_jac alias_on_curve ec13_19 Ru = Ret Au
    /\ @_aff_from_jac alias_on_curve ec13_19 Rv = Ret Av
    /\ @add alias_on_curve ec13_19 Au Av = Ret A.
Proof. apply (@double_mult_spec alias_on_curve ec13_19); ec13_19_side. Defined.

Lemma multi_mult_witness :
  exists R A,
    @_multi_mult alias_on_curve [5; 0; 7] [(1, 9, 1); (11, 9, 5); (1, 9, 1)]
      ec13_19 = Ret R
    /\ @valid_jac alias_on_curve ec13_19 R
    /\ @_aff_from_jac alias_on_curve ec13_19 R = Ret A
    /\ @affine_sum alias_on_curve ec13_19
         (combine [5; 0; 7] [(1, 9, 1); (11, 9, 5); (1, 9, 1)])
         (@INF alias_on_curve) = Ret A.
Proof.
  apply (@multi_mult_spec alias_on_curve ec13_19); try ec13_19_side.
  - repeat constructor; lia.
  - constructor; [exact valid_jac_1_9|].
    constructor; [exact valid_jac_11_9_5|].
    constructor; [exact valid_jac_1_9 | constructor].
Defined.

Lemma multiples_witness :
  exists T, @multiples alias_on_curve (1, 9, 1) 4 ec13_19 = Ret T
    /\ Z.of_nat (length T) = 4
    /\ @table_ok alias_on_curve ec13_19 (1, 9, 1) T
    /\ forall k t, nth_error T k = Some t ->
         @valid_jac alias_on_curve ec13_19 t
         /\ exists R A,
              @_mult alias_on_curve (Z.of_nat k) (1, 9, 1) ec13_19 = Ret R
              /\ @_aff_from_jac alias_on_curve ec13_19 R = Ret A
              /\ @_aff_from_jac alias_on_curve ec13_19 t = Ret A.
Proof.
  destruct (@multiples_spec alias_on_curve ec13_19 prime_13 ec13_19_gt3
              ec13_19_no_root eq_refl eq_refl alias_on_curve_xy
              (1, 9, 1) 4 valid_jac_1_9) as [H _].
  apply H. lia.
Defined.

Lemma mult_algorithms_agree_witness :
  exists Q A, @_aff_from_jac alias_on_curve ec13_19 (1, 9, 1) = Ret Q
    /\ @_mult_aff alias_on_curve 18 Q ec13_19 = Ret A
    /\ @valid_point alias_on_curve ec13_19 A
    /\ (exists R, @_mult_jac alias_on_curve 18 (1, 9, 1) ec13_19 = Ret R
                  /\ @_aff_from_jac alias_on_curve ec13_19 R = Ret A)
    /\ (exists R, @_mult_mont_ladder alias_on_curve 18 (1, 9, 1) ec13_19
                  = Ret R
                  /\ @_aff_from_jac alias_on_curve ec13_19 R = Ret A)
    /\ (exists R, @_mult_base_3 alias_on_curve 18 (1, 9, 1) ec13_19 = Ret R
                  /\ @_aff_from_jac alias_on_curve ec13_19 R = Ret A)
    /\ (exists R, @_mult_fixed_window alias_on_curve 18 (1, 9, 1) ec13_19
                    4 false = Ret R
                  /\ @_aff_from_jac alias_on_curve ec13_19 R = Ret A)
    /\ (exists R, @_mult_fixed_window_cached alias_on_curve 18 (1, 9, 1)
                    ec13_19 4 = Ret R
                  /\ @_aff_from_jac alias_on_curve ec13_19 R = Ret A).
Proof.
  destruct (@mult_algorithms_agree alias_on_curve ec13_19 prime_13
              ec13_19_gt3 ec13_19_no_root eq_refl eq_refl alias_on_curve_xy
              (1, 9, 1) 18 4 valid_jac_1_9 ltac:(lia) ltac:(lia))
    as (Q & A & H0 & H1 & H2 & H3 & H4 & H5 & H6 & H7).
  exists Q, A.
  split; [exact H0|]. split; [exact H1|]. split; [exact H2|].
  split; [exact H3|]. split; [exact H4|]. split; [exact H5|].
  split; [exact H6|].
  apply H7; [cbn; lia|].
  intros digits E. vm_compute in E. injection E as <-. cbn. lia.
Defined.


Lemma cached_multiples_fixwind_witness :
  exists T, @cached_multiples_fixwind alias_on_curve (1, 9, 1) ec13_19 4
            = Ret T
    /\ Z.of_nat (length T) = ec13_19.(psize) * 8 / 4 + 1
    /\ forall i s j t, nth_error T i = Some s -> nth_error s j = Some t ->
         @valid_jac alias_on_curve ec13_19 t
         /\ exists R A,
              @_mult alias_on_curve (Z.of_nat j * 2 ^ (4 * Z.of_nat i))
                (1, 9, 1) ec13_19 = Ret R
              /\ @_aff_from_jac alias_on_curve ec13_19 R = Ret A
              /\ @_aff_from_jac alias_on_curve ec13_19 t = Ret A.
Proof.
  apply (@cached_multiples_fixwind_spec alias_on_curve ec13_19);
    try ec13_19_side.
  cbn. lia.
Defined.

(** On a curve with points of order two the affine and the Jacobian
    double-and-add disagree: on y^2 = x^3 + 5 over F_13 the point
    (4, 2) doubles to (6, 0), which the code reads as infinity. *)
Example order_two_breaks_mult_aff :
  CurveGroup_init 13 0 5 = Ret ec13_16
  /\ @_mult_aff alias_on_curve 3 (4, 2) ec13_16 = Ret (4, 2)
  /\ @_mult_jac alias_on_curve 3 (4, 2, 1) ec13_16 = Ret (3, 3, 11)
  /\ @_aff_from_jac alias_on_curve ec13_16 (3, 3, 11) = Ret (4, 11).
Proof. repeat split. Qed.

Lemma x_range_unchecked_witness :
  is_on_curve ec13_19 (1 + 1 * ec13_19.(p), 9) = Ret true
  /\ @add alias_on_curve ec13_19 (1 + 1 * ec13_19.(p), 9) (1, 9)
     = Raise (ValueError "no inverse")
  /\ @add alias_on_curve ec13_19 (1 + 1 * ec13_19.(p), 9)
       (negate ec13_19 (1, 9))
     = Raise (ValueError "no inverse")
  /\ @add alias_on_curve ec13_19 (1, 9) (negate ec13_19 (1, 9))
     = Ret (@INF alias_on_curve).
Proof.
  apply (@x_range_unchecked alias_on_curve ec13_19 1 9 1);
    [reflexivity | discriminate | reflexivity | discriminate].
Defined.

(** ** The square root that is a quadratic residue *)

Section QuadraticResidue.

Import Field.
Import Stdlib.Zmod.ZmodDef.

Context {nt : Numbertheory}.
Variable ec : CurveGroup.
Hypothesis Hp : Z.prime ec.(p).
Hypothesis H34 : ec.(p) mod 4 = 3.

Local Notation toF := (Fp.toF ec.(p)) (only parsing).
Local Notation e := ((ec.(p) + 1) / 4) (only parsing).

Ltac toF_cst t :=
  match t with
  | Fp.toF _ ?z =>
    match isZcst z with true => z | _ => constr:(InitialRing.NotConstant) end
  | Zmod.of_Z _ ?z =>
    match isZcst z with true => z | _ => constr:(InitialRing.NotConstant) end
  | _ => constr:(InitialRing.NotConstant)
  end.

Add Field Fqr : (ZmodInv.Zmod.field_theory ec.(p) Hp)
  (morphism (Fp.toF_morph ec.(p)), constants [toF_cst]).

Lemma p_ge_3 : 3 <= ec.(p).
Proof.
  pose proof (Z.div_mod ec.(p) 4 ltac:(lia)).
  pose proof (Z.prime_ge_2 _ Hp). lia.
Qed.

Lemma e_spec : 0 <= e /\ 4 * e = ec.(p) + 1.
Proof.
  pose proof p_ge_3.
  pose proof (Z.div_mod ec.(p) 4 ltac:(lia)).
  pose proof (Z.div_mod (ec.(p) + 1) 4 ltac:(lia)).
  pose proof (Z.mod_pos_bound (ec.(p) + 1) 4 ltac:(lia)).
  lia.
Qed.

Lemma qr_nz (z : Z) : toF z <> Zmod.zero <-> z mod ec.(p) <> 0.
Proof.
  pose proof p_ge_3.
  unfold Fp.toF. rewrite <- (ZmodBase.Zmod.of_Z_0 ec.(p)), ZmodBase.Zmod.of_Z_inj.
  rewrite Z.mod_0_l by lia. tauto.
Qed.

Lemma qr_eq (x y : Z) : toF x = toF y <-> x mod ec.(p) = y mod ec.(p).
Proof. apply ZmodBase.Zmod.of_Z_inj. Qed.

Lemma toF_p : toF ec.(p) = Zmod.zero.
Proof.
  unfold Fp.toF. rewrite <- ZmodBase.Zmod.of_Z_mod, Z.mod_same by (pose proof p_ge_3; lia).
  apply ZmodBase.Zmod.of_Z_0.
Qed.

Lemma one_ne_opp : (Zmod.one : Zmod ec.(p)) <> Zmod.opp Zmod.one.
Proof.
  intros E. pose proof p_ge_3.
  assert (E2 : toF 2 = Zmod.zero).
  { transitivity (Zmod.add (Zmod.one : Zmod ec.(p)) Zmod.one); [unfold Fp.toF; ring|].
    rewrite E at 1. ring. }
  apply qr_nz in E2; [exact E2|]. rewrite Z.mod_small; lia.
Qed.

(** -1 is not a square when p = 3 (mod 4). *)
Lemma minus_one_not_square (U : Zmod ec.(p)) :
  Zmod.mul U U <> Zmod.opp Zmod.one.
Proof.
  intros HU. destruct e_spec as [He0 He]. pose proof p_ge_3 as Hp3.
  assert (Hnz : U <> Zmod.zero).
  { intros ->. apply one_ne_opp.
    transitivity (Zmod.opp (Zmod.opp (Zmod.one : Zmod ec.(p)))); [ring|].
    rewrite <- HU. ring. }
  pose proof (ZmodInv.Zmod.fermat_nz U Hnz Hp) as HF.
  replace (Z.pred ec.(p)) with (2 * (2 * (e - 1)) + 2) in HF by lia.
  rewrite ZmodBase.Zmod.pow_add_r_nonneg in HF by lia.
  rewrite ZmodInv.Zmod.pow_mul_r_nonneg in HF by lia.
  rewrite !ZmodBase.Zmod.pow_2_r, HU in HF.
  rewrite ZmodInv.Zmod.pow_mul_r_nonneg in HF by lia.
  rewrite ZmodBase.Zmod.pow_2_r in HF.
  replace (Zmod.mul (Zmod.opp Zmod.one) (Zmod.opp Zmod.one))
    with (Zmod.one : Zmod ec.(p)) in HF by ring.
  rewrite ZmodInv.Zmod.pow_1_l in HF.
  apply one_ne_opp. rewrite <- HF at 1. ring.
Qed.

Lemma qr_to_Z_range (X : Zmod ec.(p)) : 0 <= Zmod.to_Z X < ec.(p).
Proof.
  pose proof p_ge_3.
  rewrite <- (ZmodBase.Zmod.of_Z_to_Z X) at 1 2.
  rewrite ZmodBase.Zmod.to_Z_of_Z. apply Z.mod_pos_bound. lia.
Qed.

Lemma qr_mul_nz (X : Zmod ec.(p)) :
  Zmod.mul X X <> Zmod.zero -> X <> Zmod.zero.
Proof. intros H ->. apply H. ring. Qed.

(** The direct square root of [mod_sqrt] for p = 3 (mod 4) is the root
    that is a quadratic residue; the other root is not one. *)
Lemma mod_sqrt_qr (c r0 : Z) :
  r0 mod ec.(p) <> 0 -> r0 * r0 mod ec.(p) = c mod ec.(p) ->
  exists r, mod_sqrt c ec.(p) = Ret r
    /\ 0 < r < ec.(p) /\ r * r mod ec.(p) = c mod ec.(p)
    /\ legendre_symbol r ec.(p) = 1
    /\ legendre_symbol (ec.(p) - r) ec.(p) = -1.
Proof.
  intros Hr0 Hsq. destruct e_spec as [He0 He]. pose proof p_ge_3 as Hp3.
  set (S := toF r0).
  assert (HS : S <> Zmod.zero) by now apply qr_nz.
  assert (HA : toF c = Zmod.mul S S).
  { unfold S, Fp.toF. rewrite <- ZmodBase.Zmod.of_Z_mul. symmetry.
    now apply qr_eq. }
  set (W := Zmod.pow S e).
  set (r := (c mod ec.(p)) ^ e mod ec.(p)).
  assert (HR : toF r = Zmod.mul W W).
  { unfold r, W, Fp.toF.
    rewrite ZmodBase.Zmod.of_Z_mod, ZmodBase.Zmod.of_Z_pow by lia.
    rewrite ZmodBase.Zmod.of_Z_mod. fold (Fp.toF ec.(p) c). rewrite HA.
    apply ZmodBase.Zmod.pow_mul_l_nonneg. lia. }
  assert (HRR : Zmod.mul (toF r) (toF r) = toF c).
  { rewrite HR, HA. unfold W.
    rewrite <- !ZmodBase.Zmod.pow_add_r_nonneg by lia.
    replace (e + e + (e + e)) with (Z.pred ec.(p) + 2) by lia.
    rewrite ZmodBase.Zmod.pow_add_r_nonneg by lia.
    rewrite (ZmodInv.Zmod.fermat_nz S HS Hp), ZmodBase.Zmod.pow_2_r. ring. }
  assert (HSS : Zmod.mul S S <> Zmod.zero).
  { intros E. apply (ZmodInv.Zmod.mul_0_iff_prime Hp) in E. tauto. }
  assert (HRnz : toF r <> Zmod.zero).
  { apply qr_mul_nz. rewrite HRR, HA. exact HSS. }
  assert (HWnz : W <> Zmod.zero).
  { apply qr_mul_nz. now rewrite <- HR. }
  assert (Hrr : 0 < r < ec.(p)).
  { pose proof (Z.mod_pos_bound ((c mod ec.(p)) ^ e) ec.(p) ltac:(lia)) as Hb.
    fold r in Hb. apply qr_nz in HRnz.
    assert (r <> 0) by (intros E; apply HRnz; rewrite E; apply Z.mod_0_l; lia).
    lia. }
  assert (Hsqr : r * r mod ec.(p) = c mod ec.(p)).
  { apply qr_eq. unfold Fp.toF. rewrite ZmodBase.Zmod.of_Z_mul. exact HRR. }
  exists r. split; [|split; [exact Hrr|split; [exact Hsqr|split]]].
  - unfold mod_sqrt. rewrite H34. cbn [Z.eqb Pos.eqb]. fold r.
    rewrite Hsqr, Z.eqb_refl. reflexivity.
  - unfold legendre_symbol.
    replace (r mod ec.(p) =? 0) with false
      by (symmetry; apply Z.eqb_neq; now apply qr_nz).
    replace (is_square_mod r ec.(p)) with true; [reflexivity|].
    symmetry. unfold is_square_mod. apply existsb_exists.
    exists (Zmod.to_Z W). split.
    + apply in_py_range. pose proof (qr_to_Z_range W).
      assert (Zmod.to_Z W <> 0).
      { intros E. apply HWnz. rewrite <- (ZmodBase.Zmod.of_Z_to_Z W), E.
        apply ZmodBase.Zmod.of_Z_0. }
      lia.
    + apply Z.eqb_eq. apply qr_eq. unfold Fp.toF.
      rewrite ZmodBase.Zmod.of_Z_mul, ZmodBase.Zmod.of_Z_to_Z.
      symmetry. exact HR.
  - assert (Hneg : toF (ec.(p) - r) = Zmod.opp (toF r)).
    { unfold Fp.toF. rewrite ZmodBase.Zmod.of_Z_sub.
      fold (Fp.toF ec.(p) ec.(p)). rewrite toF_p. ring. }
    unfold legendre_symbol.
    replace ((ec.(p) - r) mod ec.(p) =? 0) with false.
    2:{ symmetry. apply Z.eqb_neq. apply qr_nz. rewrite Hneg.
        intros E. apply HRnz.
        transitivity (Zmod.opp (Zmod.opp (toF r))); [ring|].
        rewrite E. ring. }
    destruct (is_square_mod (ec.(p) - r) ec.(p)) eqn:Esq; [exfalso|reflexivity].
    unfold is_square_mod in Esq. apply existsb_exists in Esq.
    destruct Esq as (s & _ & Hs). apply Z.eqb_eq in Hs. apply qr_eq in Hs.
    unfold Fp.toF in Hs. rewrite ZmodBase.Zmod.of_Z_mul in Hs.
    fold (Fp.toF ec.(p) s) in Hs. fold (Fp.toF ec.(p) (ec.(p) - r)) in Hs.
    rewrite Hneg, HR in Hs.
    apply (minus_one_not_square (Zmod.mdiv (toF s) W)).
    transitivity (Zmod.mdiv (Zmod.mul (toF s) (toF s)) (Zmod.mul W W));
      [field; exact HWnz|].
    rewrite Hs. field. exact HWnz.
Qed.

(** The root that [y] returns for the x of a finite point of the curve
    is the y of the point or its opposite. *)
Lemma y_root (x yy : Z) :
  0 <= x < ec.(p) -> 0 < yy < ec.(p) ->
  _y2 ec x = yy * yy mod ec.(p) ->
  exists r, y ec x = Ret r /\ 0 < r < ec.(p)
    /\ (r = yy \/ r = ec.(p) - yy)
    /\ legendre_symbol r ec.(p) = 1
    /\ legendre_symbol (ec.(p) - r) ec.(p) = -1.
Proof.
  intros Hx Hy Hc. pose proof p_ge_3 as Hp3.
  assert (Hy2 : _y2 ec x mod ec.(p) = _y2 ec x).
  { unfold _y2. apply Z.mod_mod. lia. }
  destruct (mod_sqrt_qr (_y2 ec x) yy) as (r & Er & Hr & Hrr & Hl1 & Hl0).
  { rewrite Z.mod_small; lia. }
  { now rewrite Hy2. }
  exists r. split; [|split; [exact Hr|split; [|now split]]].
  - unfold y.
    replace ((0 <=? x) && (x <? ec.(p))) with true
      by (symmetry; apply andb_true_iff; split;
          [apply Z.leb_le | apply Z.ltb_lt]; lia).
    cbn [negb]. now rewrite Er.
  - rewrite Hy2, Hc in Hrr. apply qr_eq in Hrr.
    unfold Fp.toF in Hrr. rewrite !ZmodBase.Zmod.of_Z_mul in Hrr.
    assert (E : Zmod.mul (Zmod.sub (Zmod.of_Z ec.(p) r) (Zmod.of_Z ec.(p) yy))
                  (Zmod.add (Zmod.of_Z ec.(p) r) (Zmod.of_Z ec.(p) yy))
                = Zmod.zero).
    { transitivity
        (Zmod.sub (Zmod.mul (Zmod.of_Z ec.(p) r) (Zmod.of_Z ec.(p) r))
           (Zmod.mul (Zmod.of_Z ec.(p) yy) (Zmod.of_Z ec.(p) yy)));
        [ring | rewrite Hrr; ring]. }
    apply (ZmodInv.Zmod.mul_0_iff_prime Hp) in E. destruct E as [E|E].
    + left. apply (proj1 (ZmodBase.Zmod.sub_eq_0_iff _ _)) in E.
      apply (proj1 (ZmodBase.Zmod.of_Z_inj _ _)) in E.
      rewrite !Z.mod_small in E by lia. exact E.
    + right. rewrite <- ZmodBase.Zmod.of_Z_add in E.
      fold (Fp.toF ec.(p) (r + yy)) in E. 
      destruct (Z.eq_dec (r + yy) ec.(p)) as [E'|E']; [lia|exfalso].
      revert E. apply qr_nz.
      destruct (Z_lt_le_dec (r + yy) ec.(p)) as [Hlt|Hge].
      * rewrite Z.mod_small; lia.
      * replace (r + yy) with (r + yy - ec.(p) + 1 * ec.(p)) by ring.
        rewrite Z.mod_add, Z.mod_small; lia.
Qed.

Lemma on_curve_equation (x yy : Z) :
  is_on_curve ec (x, yy) = Ret true -> yy <> 0 ->
  0 < yy < ec.(p) /\ _y2 ec x = yy * yy mod ec.(p).
Proof.
  intros Hc Hy. destruct (is_on_curve_inv ec (x, yy) Hc) as [H|H];
    cbn [fst snd] in H; [contradiction | exact H].
Qed.

Lemma on_curve_opp (x yy : Z) :
  0 < yy < ec.(p) -> _y2 ec x = yy * yy mod ec.(p) ->
  is_on_curve ec (x, ec.(p) - yy) = Ret true.
Proof.
  intros Hy Hc. unfold is_on_curve.
  replace (ec.(p) - yy =? 0) with false by (symmetry; apply Z.eqb_neq; lia).
  replace ((0 <? ec.(p) - yy) && (ec.(p) - yy <? ec.(p))) with true
    by (symmetry; apply andb_true_iff; split; apply Z.ltb_lt; lia).
  cbn [negb]. f_equal. apply Z.eqb_eq. rewrite Hc.
  replace ((ec.(p) - yy) * (ec.(p) - yy))
    with (yy * yy + (ec.(p) - 2 * yy) * ec.(p)) by ring.
  symmetry. apply Z.mod_add. lia.
Qed.

Lemma p_odd : ec.(p) mod 2 = 1.
Proof.
  pose proof (Z.div_mod ec.(p) 4 ltac:(lia)) as H4.
  rewrite H34 in H4.
  replace ec.(p) with (1 + (2 * (ec.(p) / 4) + 1) * 2) by lia.
  now rewrite Z.mod_add by lia.
Qed.

(** X20. [y] on a curve with p = 3 (mod 4).  An x outside [0, p) and
    an x for which x^3 + a x + b is not a square raise ValueError; for
    the x of a finite point (x, y0) of the curve, [y] returns y0 or
    p - y0, and the point it gives is on the curve. *)
Theorem y_spec (x : Z) :
  (~ 0 <= x < ec.(p) ->
   y ec x = Raise (ValueError "x-coordinate not in 0..p-1: "))
  /\ (0 <= x < ec.(p) ->
      (forall r0, r0 * r0 mod ec.(p) <> _y2 ec x) ->
      y ec x = Raise (ValueError "invalid x-coordinate"))
  /\ (forall y0, 0 <= x < ec.(p) -> y0 <> 0 ->
      is_on_curve ec (x, y0) = Ret true ->
      exists r, y ec x = Ret r /\ (r = y0 \/ r = ec.(p) - y0)
        /\ is_on_curve ec (x, r) = Ret true).
Proof.
  pose proof p_ge_3 as Hp3. split; [|split].
  - intros Hx. unfold y.
    replace ((0 <=? x) && (x <? ec.(p))) with false; [reflexivity|].
    symmetry. apply andb_false_iff.
    destruct (Z.leb_spec 0 x); [right; apply Z.ltb_ge; lia | now left].
  - intros Hx Hn. unfold y.
    replace ((0 <=? x) && (x <? ec.(p))) with true
      by (symmetry; apply andb_true_iff; split;
          [apply Z.leb_le | apply Z.ltb_lt]; lia).
    cbn [negb]. unfold mod_sqrt. rewrite H34. cbn [Z.eqb Pos.eqb].
    assert (Hy2 : _y2 ec x mod ec.(p) = _y2 ec x).
    { unfold _y2. apply Z.mod_mod. lia. }
    rewrite Hy2.
    destruct (Z.eqb_spec
                (_y2 ec x ^ ((ec.(p) + 1) / 4) mod ec.(p)
                 * (_y2 ec x ^ ((ec.(p) + 1) / 4) mod ec.(p)) mod ec.(p))
                (_y2 ec x)) as [E|E]; [|reflexivity].
    exfalso. exact (Hn _ E).
  - intros y0 Hx Hy0 Hc.
    destruct (on_curve_equation x y0 Hc Hy0) as [Hr Heq].
    destruct (y_root x y0 Hx Hr Heq) as (r & Er & _ & Hor & _).
    exists r. split; [exact Er|]. split; [exact Hor|].
    destruct Hor as [->| ->]; [exact Hc | now apply on_curve_opp].
Qed.

(** X21. [y_odd] selects the root by parity and inverts the
    compression of a point: for a finite point (x, y0) of a curve with
    p = 3 (mod 4), [y_odd x (y0 mod 2)] returns y0 and the other flag
    returns p - y0, of the other parity.  A flag that is not 0 or 1
    raises ValueError. *)
Theorem y_odd_spec (x y0 : Z) :
  (0 <= x < ec.(p) -> y0 <> 0 -> is_on_curve ec (x, y0) = Ret true ->
   y_odd ec x (y0 mod 2) = Ret y0
   /\ y_odd ec x (1 - y0 mod 2) = Ret (ec.(p) - y0)
   /\ (ec.(p) - y0) mod 2 = 1 - y0 mod 2)
  /\ (forall k, k <> 0 -> k <> 1 ->
      y_odd ec x k = Raise (ValueError "odd1even0 must be bool or 1/0")).
Proof.
  pose proof p_ge_3 as Hp3. pose proof p_odd as Hodd. split.
  - intros Hx Hy0 Hc.
    destruct (on_curve_equation x y0 Hc Hy0) as [Hr Heq].
    destruct (y_root x y0 Hx Hr Heq) as (r & Er & _ & Hor & _).
    pose proof (Z.mod_pos_bound y0 2 ltac:(lia)) as Hb.
    pose proof (Z.div_mod y0 2 ltac:(lia)) as Hdy.
    pose proof (Z.div_mod ec.(p) 2 ltac:(lia)) as Hdp.
    assert (Hpar : (ec.(p) - y0) mod 2 = 1 - y0 mod 2).
    { replace (ec.(p) - y0)
        with (1 - y0 mod 2 + (ec.(p) / 2 - y0 / 2) * 2) by lia.
      rewrite Z.mod_add by lia. apply Z.mod_small. lia. }
    split; [|split; [|exact Hpar]].
    + unfold y_odd.
      replace ((y0 mod 2 =? 0) || (y0 mod 2 =? 1)) with true
        by (symmetry; apply orb_true_iff;
            destruct (Z.eq_dec (y0 mod 2) 0);
            [left | right]; apply Z.eqb_eq; lia).
      cbn [negb]. rewrite Er. cbn [bind].
      destruct Hor as [->| ->].
      * now rewrite Z.eqb_refl.
      * rewrite Hpar.
        replace (1 - y0 mod 2 =? y0 mod 2) with false
          by (symmetry; apply Z.eqb_neq; lia).
        f_equal. lia.
    + unfold y_odd.
      replace ((1 - y0 mod 2 =? 0) || (1 - y0 mod 2 =? 1)) with true
        by (symmetry; apply orb_true_iff;
            destruct (Z.eq_dec (y0 mod 2) 0);
            [right | left]; apply Z.eqb_eq; lia).
      cbn [negb]. rewrite Er. cbn [bind].
      destruct Hor as [->| ->].
      * replace (y0 mod 2 =? 1 - y0 mod 2) with false
          by (symmetry; apply Z.eqb_neq; lia).
        reflexivity.
      * rewrite Hpar. now rewrite Z.eqb_refl.
  - intros k H0 H1. unfold y_odd.
    apply Z.eqb_neq in H0, H1. now rewrite H0, H1.
Qed.

(** X22. [y_low] selects the root by size and inverts the compression
    of a point: for a finite point (x, y0) of a curve with
    p = 3 (mod 4), the flag 1 returns the root that is at most p // 2
    and the flag 0 the other one, so the flag of y0 returns y0.  A flag
    that is not 0 or 1 raises ValueError. *)
Theorem y_low_spec (x y0 : Z) :
  (0 <= x < ec.(p) -> y0 <> 0 -> is_on_curve ec (x, y0) = Ret true ->
   exists lo hi,
     y_low ec x 1 = Ret lo /\ y_low ec x 0 = Ret hi
     /\ 0 < lo <= ec.(p) / 2 /\ ec.(p) / 2 < hi < ec.(p)
     /\ lo + hi = ec.(p)
     /\ y_low ec x (Z.b2z (y0 <=? ec.(p) / 2)) = Ret y0)
  /\ (forall k, k <> 0 -> k <> 1 ->
      y_low ec x k = Raise (ValueError "low1high0 must be bool or 1/0")).
Proof.
  pose proof p_ge_3 as Hp3. pose proof p_odd as Hodd. split.
  - intros Hx Hy0 Hc.
    destruct (on_curve_equation x y0 Hc Hy0) as [Hr Heq].
    destruct (y_root x y0 Hx Hr Heq) as (r & Er & Hrr & Hor & _).
    pose proof (Z.div_mod ec.(p) 2 ltac:(lia)) as Hdp.
    unfold y_low. cbn [Z.eqb orb negb]. rewrite Er. cbn [bind].
    assert (Hsel : forall k, k = 0 \/ k = 1 ->
              (if Z.b2z (ec.(p) / 2 >=? r) =? k then r else ec.(p) - r)
              = if (k =? 1) then Z.min r (ec.(p) - r)
                else Z.max r (ec.(p) - r)).
    { intros k Hk. rewrite Z.geb_leb.
      destruct (Z.leb_spec r (ec.(p) / 2)); cbn [Z.b2z];
        destruct Hk as [-> | ->]; cbn [Z.eqb Pos.eqb]; lia. }
    exists (Z.min r (ec.(p) - r)), (Z.max r (ec.(p) - r)).
    rewrite (Hsel 1), (Hsel 0) by lia. cbn [Z.eqb Pos.eqb].
    split; [reflexivity|]. split; [reflexivity|].
    split; [lia|]. split; [lia|]. split; [lia|].
    replace ((Z.b2z (y0 <=? ec.(p) / 2) =? 0)
             || (Z.b2z (y0 <=? ec.(p) / 2) =? 1)) with true
      by (now destruct (y0 <=? ec.(p) / 2)).
    cbn [negb]. rewrite Hsel by (destruct (y0 <=? ec.(p) / 2); cbn; lia).
    f_equal.
    destruct (Z.leb_spec y0 (ec.(p) / 2)); cbn [Z.b2z Z.eqb Pos.eqb]; lia.
  - intros k H0 H1. unfold y_low.
    apply Z.eqb_neq in H0, H1. now rewrite H0, H1.
Qed.

(** X23. [y_quadratic_residue] inverts the compression of a point by
    the quadratic character of y: for a finite point (x, y0) of a curve
    with p = 3 (mod 4), the flag 1 returns the root that is a square
    modulo p, the flag 0 the one that is not, and the flag that
    [has_square_y] gives for the point returns y0. *)
Theorem y_quadratic_residue_round_trip (x y0 : Z) :
  ec.(pIsThreeModFour) = true ->
  0 <= x < ec.(p) -> y0 <> 0 -> is_on_curve ec (x, y0) = Ret true ->
  exists y1 yn,
    y_quadratic_residue ec x 1 = Ret y1
    /\ y_quadratic_residue ec x 0 = Ret yn
    /\ has_square_y ec (x, y1) = true /\ has_square_y ec (x, yn) = false
    /\ y1 + yn = ec.(p)
    /\ y_quadratic_residue ec x (Z.b2z (has_square_y ec (x, y0))) = Ret y0.
Proof.
  intros H3 Hx Hy0 Hc. pose proof p_ge_3 as Hp3.
  destruct (on_curve_equation x y0 Hc Hy0) as [Hr Heq].
  destruct (y_root x y0 Hx Hr Heq) as (r & Er & Hrr & Hor & Hl1 & Hl0).
  exists r, (ec.(p) - r).
  unfold y_quadratic_residue, require_p_ThreeModFour, has_square_y.
  rewrite H3. cbn [Z.eqb Pos.eqb orb negb bind snd].
  rewrite Er. cbn [bind]. rewrite Hl1, Hl0. cbn [Z.eqb Pos.eqb].
  split; [reflexivity|]. split; [reflexivity|].
  split; [reflexivity|]. split; [reflexivity|]. split; [lia|].
  destruct Hor as [->|Hor].
  - rewrite Hl1. cbn [Z.eqb Pos.eqb Z.b2z orb negb bind]. reflexivity.
  - replace y0 with (ec.(p) - r) by lia. rewrite Hl0.
    cbn [Z.eqb Pos.eqb Z.b2z orb negb bind]. reflexivity.
Qed.

End QuadraticResidue.

(** X26. On a curve with p = 3 (mod 4) and for x in [0, p) such that
    x^3 + a x + b has a nonzero square root, [y_quadratic_residue x 1]
    returns the root that is a quadratic residue and
    [y_quadratic_residue x 0] the root that is not; on a curve with
    p <> 3 (mod 4), [y_quadratic_residue] raises for all x and
    quad_res. *)
Theorem y_quadratic_residue_spec {nt : Numbertheory}
  (P a b : Z) (ec : CurveGroup) (x : Z) :
  CurveGroup_init P a b = Ret ec -> Z.prime ec.(p) ->
  (ec.(p) mod 4 = 3 -> 0 <= x < ec.(p) ->
   (exists r0, r0 mod ec.(p) <> 0 /\ r0 * r0 mod ec.(p) = _y2 ec x) ->
   exists y1 y0,
     y_quadratic_residue ec x 1 = Ret y1
     /\ y_quadratic_residue ec x 0 = Ret y0
     /\ 0 < y1 < ec.(p) /\ 0 < y0 < ec.(p)
     /\ y1 * y1 mod ec.(p) = _y2 ec x /\ y0 * y0 mod ec.(p) = _y2 ec x
     /\ legendre_symbol y1 ec.(p) = 1
     /\ legendre_symbol y0 ec.(p) = -1)
  /\ (ec.(p) mod 4 <> 3 ->
      forall x' qr, raises (y_quadratic_residue ec x' qr)).
Proof.
  intros Hinit Hp.
  destruct (CurveGroup_init_inv P a b ec Hinit)
    as (EP & _ & _ & HP3 & _ & _ & _ & _ & _ & H3).
  rewrite <- EP in H3. split.
  - intros H34 Hx (r0 & Hr0 & Hsq).
    assert (Hy2 : _y2 ec x mod ec.(p) = _y2 ec x).
    { unfold _y2. apply Z.mod_mod. lia. }
    rewrite <- Hy2 in Hsq.
    destruct (mod_sqrt_qr ec Hp H34 (_y2 ec x) r0 Hr0 Hsq)
      as (r & Er & Hr & Hrr & Hl1 & Hl0).
    rewrite Hy2 in Hrr.
    assert (Ey : y ec x = Ret r).
    { unfold y.
      replace ((0 <=? x) && (x <? ec.(p))) with true
        by (symmetry; apply andb_true_iff; split;
            [apply Z.leb_le | apply Z.ltb_lt]; lia).
      cbn [negb]. now rewrite Er. }
    exists r, (ec.(p) - r).
    unfold y_quadratic_residue, require_p_ThreeModFour.
    rewrite H3, H34. cbn [Z.eqb Pos.eqb orb negb bind].
    rewrite Ey. cbn [bind]. rewrite Hl1. cbn [Z.eqb Pos.eqb].
    split; [reflexivity|]. split; [reflexivity|].
    split; [exact Hr|]. split; [lia|]. split; [exact Hrr|].
    split; [|split; [reflexivity | exact Hl0]].
    rewrite <- Hrr.
    replace ((ec.(p) - r) * (ec.(p) - r))
      with (r * r + (ec.(p) - 2 * r) * ec.(p)) by ring.
    apply Z.mod_add. lia.
  - intros H34 x' qr. unfold y_quadratic_residue, require_p_ThreeModFour.
    rewrite H3.
    replace (ec.(p) mod 4 =? 3) with false by (symmetry; now apply Z.eqb_neq).
    destruct (negb ((qr =? 0) || (qr =? 1)));
      (eexists; split; [reflexivity | discriminate]).
Qed.

(** For the curves with p = 3 (mod 4) the Tonelli-Shanks branch of
    [mod_sqrt] is never taken. *)
Definition no_tonelli_shanks : Numbertheory :=
  {| tonelli_shanks := fun _ _ => Raise (ValueError "not used") |}.

Lemma prime_19 : Z.prime 19.
Proof. apply is_prime_b_sound. reflexivity. Qed.

Lemma y_quadratic_residue_witness :
  exists y1 y0,
    @y_quadratic_residue no_tonelli_shanks ec19_13 4 1 = Ret y1
    /\ @y_quadratic_residue no_tonelli_shanks ec19_13 4 0 = Ret y0
    /\ 0 < y1 < 19 /\ 0 < y0 < 19
    /\ y1 * y1 mod 19 = _y2 ec19_13 4 /\ y0 * y0 mod 19 = _y2 ec19_13 4
    /\ legendre_symbol y1 19 = 1
    /\ legendre_symbol y0 19 = -1.
Proof.
  destruct (@y_quadratic_residue_spec no_tonelli_shanks 19 0 2 ec19_13 4
              eq_refl prime_19) as [H _].
  apply H; [reflexivity | cbn; lia |].
  exists 3. split; [discriminate | reflexivity].
Defined.

(** ** The quadratic character of y in Jacobian coordinates *)

Section SquareY.

Import Field.
Import Stdlib.Zmod.ZmodDef.

Context {al : Alias}.
Variable ec : CurveGroup.
Hypothesis Hp : Z.prime ec.(p).

Local Notation toF := (Fp.toF ec.(p)) (only parsing).

Ltac toF_cst t :=
  match t with
  | Fp.toF _ ?z =>
    match isZcst z with true => z | _ => constr:(InitialRing.NotConstant) end
  | Zmod.of_Z _ ?z =>
    match isZcst z with true => z | _ => constr:(InitialRing.NotConstant) end
  | _ => constr:(InitialRing.NotConstant)
  end.

Add Field Fsq : (ZmodInv.Zmod.field_theory ec.(p) Hp)
  (morphism (Fp.toF_morph ec.(p)), constants [toF_cst]).

Lemma sq_nz (z : Z) : toF z <> Zmod.zero <-> z mod ec.(p) <> 0.
Proof.
  pose proof (Z.prime_ge_2 _ Hp).
  unfold Fp.toF.
  rewrite <- (ZmodBase.Zmod.of_Z_0 ec.(p)), ZmodBase.Zmod.of_Z_inj.
  rewrite Z.mod_0_l by lia. tauto.
Qed.

Lemma sq_to_Z_pos (S : Zmod ec.(p)) :
  S <> Zmod.zero -> 1 <= Zmod.to_Z S < ec.(p).
Proof.
  intros HS. pose proof (Z.prime_ge_2 _ Hp).
  assert (Hr : 0 <= Zmod.to_Z S < ec.(p)).
  { rewrite <- (ZmodBase.Zmod.of_Z_to_Z S) at 1 2.
    rewrite ZmodBase.Zmod.to_Z_of_Z. apply Z.mod_pos_bound. lia. }
  assert (Zmod.to_Z S <> 0).
  { intros E. apply HS. rewrite <- (ZmodBase.Zmod.of_Z_to_Z S), E.
    apply ZmodBase.Zmod.of_Z_0. }
  lia.
Qed.

(** The search of [is_square_mod] finds a root exactly when the field
    has one. *)
Lemma is_square_mod_iff (c : Z) :
  toF c <> Zmod.zero ->
  is_square_mod c ec.(p) = true
  <-> exists S : Zmod ec.(p), Zmod.mul S S = toF c.
Proof.
  intros Hc. unfold is_square_mod. rewrite existsb_exists. split.
  - intros (s & _ & Hs). apply Z.eqb_eq in Hs. exists (toF s).
    unfold Fp.toF. rewrite <- ZmodBase.Zmod.of_Z_mul.
    now apply ZmodBase.Zmod.of_Z_inj.
  - intros (S & HS).
    assert (HSnz : S <> Zmod.zero).
    { intros ->. apply Hc. rewrite <- HS. ring. }
    exists (Zmod.to_Z S). split.
    + apply in_py_range. now apply sq_to_Z_pos.
    + apply Z.eqb_eq. apply ZmodBase.Zmod.of_Z_inj.
      rewrite ZmodBase.Zmod.of_Z_mul, ZmodBase.Zmod.of_Z_to_Z. exact HS.
Qed.

Lemma legendre_one_iff (c : Z) :
  (legendre_symbol c ec.(p) =? 1) = true
  <-> toF c <> Zmod.zero /\ exists S : Zmod ec.(p), Zmod.mul S S = toF c.
Proof.
  unfold legendre_symbol.
  destruct (Z.eqb_spec (c mod ec.(p)) 0) as [E|E].
  - split; [discriminate|]. intros [H _]. apply sq_nz in H. contradiction.
  - apply sq_nz in E. rewrite <- (is_square_mod_iff c E).
    destruct (is_square_mod c ec.(p)); cbn; split;
      try discriminate; try tauto; intros [_ H]; discriminate.
Qed.

(** X24. [has_square_y] on a Jacobian triple tests Y Z instead of the
    affine y = Y / Z^3: for Z invertible modulo p the two differ by the
    square Z^4, and the answer is the one for the affine image. *)
Theorem has_square_y_jac_spec (X Y Z : Z) (A : Point) :
  Z mod ec.(p) <> 0 -> _aff_from_jac ec (X, Y, Z) = Ret A ->
  has_square_y_jac ec (X, Y, Z) = has_square_y ec A.
Proof.
  intros HZ HA. pose proof (Z.prime_ge_2 _ Hp) as H2.
  assert (HZ0 : (Z =? 0) = false)
    by (apply Z.eqb_neq; intros ->; now rewrite Z.mod_0_l in HZ by lia).
  assert (HZF : toF Z <> Zmod.zero) by now apply sq_nz.
  assert (HZ2 : (Z * Z) mod ec.(p) <> 0).
  { apply sq_nz. unfold Fp.toF. rewrite ZmodBase.Zmod.of_Z_mul.
    intros E. apply (ZmodInv.Zmod.mul_0_iff_prime Hp) in E. tauto. }
  assert (HZ3 : (Z * Z * Z) mod ec.(p) <> 0).
  { apply sq_nz. unfold Fp.toF. rewrite !ZmodBase.Zmod.of_Z_mul.
    intros E. apply (ZmodInv.Zmod.mul_0_iff_prime Hp) in E.
    destruct E as [E|E]; [|tauto].
    apply (ZmodInv.Zmod.mul_0_iff_prime Hp) in E. tauto. }
  unfold _aff_from_jac, mod_inv in HA. rewrite HZ0 in HA.
  apply Z.eqb_neq in HZ2, HZ3. rewrite HZ2, HZ3 in HA. cbn [bind] in HA.
  injection HA as <-.
  unfold has_square_y_jac, has_square_y. cbn [snd].
  set (yF := toF (Y * Z.invmod (Z * Z * Z) ec.(p) mod ec.(p))).
  set (uF := toF (Y * Z mod ec.(p))).
  assert (Ey : yF = Zmod.mdiv (toF Y)
                      (Zmod.mul (Zmod.mul (toF Z) (toF Z)) (toF Z))).
  { unfold yF, Fp.toF.
    rewrite ZmodBase.Zmod.of_Z_mod, ZmodBase.Zmod.of_Z_mul.
    fold (Fp.toF ec.(p) (Z.invmod (Z * Z * Z) ec.(p))).
    rewrite toF_invmod. unfold Fp.toF.
    rewrite !ZmodBase.Zmod.of_Z_mul. apply ZmodBase.Zmod.mul_inv_r. }
  assert (Eu : uF = Zmod.mul (toF Y) (toF Z)).
  { unfold uF, Fp.toF.
    now rewrite ZmodBase.Zmod.of_Z_mod, ZmodBase.Zmod.of_Z_mul. }
  apply eq_true_iff_eq. fold yF uF. rewrite !legendre_one_iff.
  fold yF uF. rewrite Ey, Eu. unfold Fp.toF in *.
  set (y := Zmod.of_Z ec.(p) Y) in *. set (z := Zmod.of_Z ec.(p) Z) in *.
  assert (Hnz : Zmod.mul y z <> Zmod.zero
                <-> Zmod.mdiv y (Zmod.mul (Zmod.mul z z) z) <> Zmod.zero).
  { split; intros H E; apply H.
    - transitivity (Zmod.mul (Zmod.mdiv y (Zmod.mul (Zmod.mul z z) z))
                      (Zmod.mul (Zmod.mul z z) (Zmod.mul z z)));
        [field; exact HZF | rewrite E; ring].
    - transitivity (Zmod.mdiv (Zmod.mul y z)
                      (Zmod.mul (Zmod.mul z z) (Zmod.mul z z)));
        [field; exact HZF | rewrite E; field; exact HZF]. }
  split; intros [Hn (S & HS)]; (split; [now apply Hnz|]).
  - exists (Zmod.mdiv S (Zmod.mul z z)).
    transitivity (Zmod.mdiv (Zmod.mul S S)
                    (Zmod.mul (Zmod.mul z z) (Zmod.mul z z)));
      [field; exact HZF | rewrite HS; field; exact HZF].
  - exists (Zmod.mul S (Zmod.mul z z)).
    transitivity (Zmod.mul (Zmod.mul S S)
                    (Zmod.mul (Zmod.mul z z) (Zmod.mul z z)));
      [ring | rewrite HS; field; exact HZF].
Qed.

End SquareY.

(** ** The constructor on odd primes *)

Lemma fermat_2 (P : Z) : Z.prime P -> 2 < P -> 2 ^ (P - 1) mod P = 1.
Proof.
  intros HP H2.
  assert (Hnz : ZmodDef.Zmod.of_Z P 2 <> ZmodDef.Zmod.zero).
  { rewrite <- (ZmodBase.Zmod.of_Z_0 P). intros E.
    apply ZmodBase.Zmod.of_Z_inj in E.
    rewrite Z.mod_0_l, Z.mod_small in E by lia. discriminate. }
  pose proof (ZmodInv.Zmod.fermat_nz _ Hnz HP) as HF.
  rewrite <- Z.sub_1_r, <- ZmodBase.Zmod.of_Z_pow in HF by lia.
  rewrite <- (ZmodBase.Zmod.of_Z_1 P) in HF.
  apply ZmodBase.Zmod.of_Z_inj in HF.
  now rewrite (Z.mod_small 1) in HF by lia.
Qed.

(** X25. [CurveGroup.__init__] accepts every odd prime: for a prime
    p > 2 and coefficients in [0, p) the Fermat test passes, and the
    curve is built, with its size in bytes and the flag for
    p = 3 (mod 4), unless the discriminant vanishes modulo p, which
    raises ValueError. *)
Theorem CurveGroup_init_prime (P a b : Z) :
  Z.prime P -> 2 < P -> 0 <= a < P -> 0 <= b < P ->
  ((4 * a * a * a + 27 * b * b) mod P <> 0 ->
   CurveGroup_init P a b
   = Ret {| p := P; _a := a; _b := b;
            psize := (bit_length P + 7) / 8;
            pIsThreeModFour := P mod 4 =? 3 |})
  /\ ((4 * a * a * a + 27 * b * b) mod P = 0 ->
      CurveGroup_init P a b = Raise (ValueError "zero discriminant")).
Proof.
  intros HP H2 Ha Hb.
  assert (Hodd : P mod 2 <> 0).
  { intros E. destruct HP as [_ HP]. apply (HP 2); [lia|].
    exists (P / 2). pose proof (Z.div_mod P 2 ltac:(lia)). lia. }
  unfold CurveGroup_init.
  replace (P <? 2) with false by (symmetry; apply Z.ltb_ge; lia).
  replace (P mod 2 =? 0) with false by (symmetry; now apply Z.eqb_neq).
  rewrite (fermat_2 P HP H2). cbn [Z.eqb Pos.eqb negb orb].
  replace (a <? 0) with false by (symmetry; apply Z.ltb_ge; lia).
  replace (P <=? a) with false by (symmetry; apply Z.leb_gt; lia).
  replace (b <? 0) with false by (symmetry; apply Z.ltb_ge; lia).
  replace (P <=? b) with false by (symmetry; apply Z.leb_gt; lia).
  split; intros Hd.
  - apply Z.eqb_neq in Hd. now rewrite Hd.
  - apply Z.eqb_eq in Hd. now rewrite Hd.
Qed.

(** ** The theorems on the test curve p = 19, a = 0, b = 2 *)

Lemma y_spec_witness :
  (~ 0 <= 4 < ec19_13.(p) ->
   @y no_tonelli_shanks ec19_13 4
   = Raise (ValueError "x-coordinate not in 0..p-1: "))
  /\ (0 <= 4 < ec19_13.(p) ->
      (forall r0, r0 * r0 mod ec19_13.(p) <> _y2 ec19_13 4) ->
      @y no_tonelli_shanks ec19_13 4
      = Raise (ValueError "invalid x-coordinate"))
  /\ (forall y0, 0 <= 4 < ec19_13.(p) -> y0 <> 0 ->
      is_on_curve ec19_13 (4, y0) = Ret true ->
      exists r, @y no_tonelli_shanks ec19_13 4 = Ret r
        /\ (r = y0 \/ r = ec19_13.(p) - y0)
        /\ is_on_curve ec19_13 (4, r) = Ret true).
Proof.
  apply (@y_spec no_tonelli_shanks ec19_13 prime_19). reflexivity.
Defined.

Lemma y_odd_witness :
  @y_odd no_tonelli_shanks ec19_13 4 (3 mod 2) = Ret 3
  /\ @y_odd no_tonelli_shanks ec19_13 4 (1 - 3 mod 2)
     = Ret (ec19_13.(p) - 3)
  /\ (ec19_13.(p) - 3) mod 2 = 1 - 3 mod 2.
Proof.
  destruct (@y_odd_spec no_tonelli_shanks ec19_13 prime_19 eq_refl 4 3)
    as [H _].
  apply H; [cbn; lia | discriminate | reflexivity].
Defined.

Lemma y_low_witness :
  exists lo hi,
    @y_low no_tonelli_shanks ec19_13 4 1 = Ret lo
    /\ @y_low no_tonelli_shanks ec19_13 4 0 = Ret hi
    /\ 0 < lo <= ec19_13.(p) / 2 /\ ec19_13.(p) / 2 < hi < ec19_13.(p)
    /\ lo + hi = ec19_13.(p)
    /\ @y_low no_tonelli_shanks ec19_13 4
         (Z.b2z (16 <=? ec19_13.(p) / 2)) = Ret 16.
Proof.
  destruct (@y_low_spec no_tonelli_shanks ec19_13 prime_19 eq_refl 4 16)
    as [H _].
  apply H; [cbn; lia | discriminate | reflexivity].
Defined.

Lemma y_quadratic_residue_round_trip_witness :
  exists y1 yn,
    @y_quadratic_residue no_tonelli_shanks ec19_13 4 1 = Ret y1
    /\ @y_quadratic_residue no_tonelli_shanks ec19_13 4 0 = Ret yn
    /\ has_square_y ec19_13 (4, y1) = true
    /\ has_square_y ec19_13 (4, yn) = false
    /\ y1 + yn = ec19_13.(p)
    /\ @y_quadratic_residue no_tonelli_shanks ec19_13 4
         (Z.b2z (has_square_y ec19_13 (4, 3))) = Ret 3.
Proof.
  apply (@y_quadratic_residue_round_trip no_tonelli_shanks ec19_13
           prime_19 eq_refl 4 3);
    [reflexivity | cbn; lia | discriminate | reflexivity].
Defined.

Lemma has_square_y_jac_witness :
  has_square_y_jac ec13_19 (11, 9, 5) = has_square_y ec13_19 (2, 6).
Proof.
  apply (@has_square_y_jac_spec alias_on_curve ec13_19 prime_13 11 9 5 (2, 6));
    [discriminate | reflexivity].
Defined.

Lemma CurveGroup_init_prime_witness :
  ((4 * 0 * 0 * 0 + 27 * 2 * 2) mod 13 <> 0 ->
   CurveGroup_init 13 0 2
   = Ret {| p := 13; _a := 0; _b := 2;
            psize := (bit_length 13 + 7) / 8;
            pIsThreeModFour := 13 mod 4 =? 3 |})
  /\ ((4 * 0 * 0 * 0 + 27 * 2 * 2) mod 13 = 0 ->
      CurveGroup_init 13 0 2 = Raise (ValueError "zero discriminant")).
Proof. apply (CurveGroup_init_prime 13 0 2 prime_13); lia. Defined.
